(** * The audio preprocessing pipeline of [voice_w_cbuff.cpp]

    A shallow embedding of the noise gate, the high-pass filter, the
    automatic gain control, the circular buffer and the PortAudio callback,
    followed by the properties proved about them.

    - [short] samples are integers [Z]; a [short*] with its frame count is a
      [list Z] whose length is the frame count.
    - [float] and [double] are IEEE-754 binary32 and binary64 values with
      round-to-nearest-even, taken from the Standard Library's executable
      specification [SpecFloat] (precision 24, emax 128 and precision 53,
      emax 1024).  Every operation is evaluated in the type C++ gives it and
      rounded to that type, as on a target that computes [float] and
      [double] in their own formats.
    - [size_t] indices of the circular buffer are [nat]: they stay below the
      capacity, so they never wrap.
    - An out-of-bounds vector access or a remainder by zero is undefined in
      C++; the functions that can reach one return [option], [None] standing
      for the undefined execution. *)

From Stdlib Require Import ZArith Lia Bool String Ascii.
From Stdlib.Floats Require Import SpecFloat.
From stdpp Require Import base option list.

(** ** Part I: the model *)

(** *** Floating-point arithmetic *)

Definition float := spec_float.
Definition double := spec_float.

Module Binary32.
Definition prec : Z := 24.
Definition emax : Z := 128.
Definition add : float -> float -> float := SFadd prec emax.
Definition sub : float -> float -> float := SFsub prec emax.
Definition mul : float -> float -> float := SFmul prec emax.
Definition div : float -> float -> float := SFdiv prec emax.
(** Conversion of an integer ([short] or [int]) to [float]. *)
Definition of_Z (z : Z) : float := binary_normalize prec emax z 0 false.
(** Conversion [double -> float]: the value is rounded to 24 bits. *)
Definition of_double (d : double) : float :=
  match d with
  | S754_finite s m e => binary_round prec emax s m e
  | _ => d
  end.
End Binary32.

Module Binary64.
Definition prec : Z := 53.
Definition emax : Z := 1024.
Definition add : double -> double -> double := SFadd prec emax.
Definition div : double -> double -> double := SFdiv prec emax.
Definition sqrt : double -> double := SFsqrt prec emax.
(** Conversion of an integer ([int] or [unsigned long]) to [double]. *)
Definition of_Z (z : Z) : double := binary_normalize prec emax z 0 false.
End Binary64.

Declare Scope f32_scope.
Delimit Scope f32_scope with f32.
Infix "+" := Binary32.add : f32_scope.
Infix "-" := Binary32.sub : f32_scope.
Infix "*" := Binary32.mul : f32_scope.

(** [a < b] on floating-point values: false when either side is a NaN. *)
Definition flt (a b : spec_float) : bool := SFltb a b.
Definition fle (a b : spec_float) : bool := SFleb a b.

(** [std::min(a, b)] is [(b < a) ? b : a] and [std::max(a, b)] is
    [(a < b) ? b : a]. *)
Definition std_min (a b : spec_float) : spec_float := if flt b a then b else a.
Definition std_max (a b : spec_float) : spec_float := if flt a b then b else a.

(** [static_cast<short>] of a [float]: the fractional part is discarded
    (truncation toward zero).  The conversion is only defined for values in
    the range of [short]; every call site clamps first. *)
Definition float_to_short (f : float) : Z :=
  match f with
  | S754_finite s m e => cond_Zopp s (Z.shiftl (Zpos m) e)
  | _ => 0%Z
  end.

(** *** Configuration *)

Definition FRAMES_PER_BUFFER : nat := 512.
Definition NOISE_GATE_THRESHOLD : Z := 500.
Definition AUDIO_BUFFER_SIZE : nat := Z.to_nat 8192.
Definition AGC_TARGET_LEVEL : Z := 8000.
(** The literal [0.1f]: the binary32 value nearest to one tenth. *)
Definition f0_1 : float := S754_finite false 13421773 (-27).
Definition AGC_ADJUSTMENT_RATE : float := f0_1.
(** The literal [0.95f] of [applyHighPassFilter]. *)
Definition alpha : float := S754_finite false 15938355 (-24).
(** The literals [10.0f], [32767.0f], [-32768.0f], [1.0f], [0.0f], [8.0f]. *)
Definition f10 : float := Binary32.of_Z 10.
Definition f32767 : float := Binary32.of_Z 32767.
Definition fm32768 : float := Binary32.of_Z (-32768).
Definition f1 : float := Binary32.of_Z 1.
Definition f0 : float := Binary32.of_Z 0.
Definition f8 : float := Binary32.of_Z 8.

(** [std::max(-32768.0f, std::min(32767.0f, x))]. *)
Definition clamp16 (x : float) : float := std_max fm32768 (std_min f32767 x).
(** [std::max(0.1f, std::min(10.0f, x))]. *)
Definition clamp_gain (x : float) : float :=
  std_max f0_1 (std_min f10 x).

(** A [for (i = 0; i < n; ++i)] loop over a loop state. *)
Definition for_loop {S : Type} (n : nat) (body : nat -> S -> S) (init : S) : S :=
  foldl (fun s i => body i s) init (seq 0 n).

(** [a[i]] for an index the loop bound keeps inside the block. *)
Definition at_index (a : list Z) (i : nat) : Z := default 0%Z (a !! i).

(** *** [CircularBuffer] *)

Module CircularBuffer.

Record t := mk {
  buffer : list Z;
  head : nat;
  tail : nat;
  count : nat;
  capacity : nat
}.

(** The constructor: [buffer(size)] is zero-filled. *)
Definition new (size : nat) : t := mk (replicate size 0%Z) 0 0 0 size.

(** One iteration of the loop of [push].  Writing [buffer[head]] outside the
    vector and [% capacity] with a zero capacity are undefined. *)
Definition push_sample (b : t) (x : Z) : option t :=
  if decide (head b < length (buffer b) ∧ 0 < capacity b) then
    Some {| buffer := <[head b := x]> (buffer b);
            head := (head b + 1) mod capacity b;
            tail := if decide (count b < capacity b) then tail b
                    else (tail b + 1) mod capacity b;
            count := if decide (count b < capacity b) then count b + 1
                     else count b;
            capacity := capacity b |}
  else None.

Fixpoint push (b : t) (data : list Z) : option t :=
  match data with
  | [] => Some b
  | x :: rest => b' ← push_sample b x; push b' rest
  end.

(** [start] of [getSmoothed]. *)
Definition start_index (b : t) (len : nat) : nat :=
  if decide (len ≤ head b) then head b - len
  else capacity b - (len - head b).

(** The indices of [buffer] that [getSmoothed(len)] reads, in order. *)
Definition read_indices (b : t) (len : nat) : list nat :=
  if decide (count b < len) then []
  else (fun i => (start_index b len + i) mod capacity b) <$> seq 0 len.

(** [getSmoothed]: [None] when one of the reads falls outside [buffer]. *)
Definition getSmoothed (b : t) (len : nat) : option (list Z) :=
  mapM (fun i => buffer b !! i) (read_indices b len).

(** The class invariant established by the constructor for a positive size
    and kept by [push]. *)
Definition wf (b : t) : Prop :=
  0 < capacity b ∧ length (buffer b) = capacity b ∧
  head b < capacity b ∧ count b ≤ capacity b.

(** [recent b l]: the samples of [l] are the ones most recently pushed into
    [b], the last element of [l] being the newest. *)
Definition recent (b : t) (l : list Z) : Prop :=
  wf b ∧ length l `min` capacity b ≤ count b ∧
  ∀ j, j < length l → j < capacity b →
    buffer b !! ((head b + capacity b - 1 - j) mod capacity b) = reverse l !! j.

End CircularBuffer.

(** *** [isAudioAboveNoiseGate] *)

(** The product [audio_data[i] * audio_data[i]] is an [int] product of two
    promoted [short]s, at most 2^30, and is then converted to [double]. *)
Definition noise_gate_body (audio_data : list Z) (i : nat) (rms : double) : double :=
  Binary64.add rms (Binary64.of_Z (at_index audio_data i * at_index audio_data i)).

Definition noise_gate_rms (audio_data : list Z) : double :=
  let rms := for_loop (length audio_data) (noise_gate_body audio_data)
                      (S754_zero false) in
  Binary64.sqrt (Binary64.div rms (Binary64.of_Z (Z.of_nat (length audio_data)))).

Definition isAudioAboveNoiseGate (audio_data : list Z) : bool :=
  flt (Binary64.of_Z NOISE_GATE_THRESHOLD) (noise_gate_rms audio_data).

(** *** [applyHighPassFilter] *)

(** The loop state: the block being rewritten in place and the two
    reference parameters. *)
Definition hp_state : Type := list Z * float * float.

Definition applyHighPassFilter_body (i : nat) (st : hp_state) : hp_state :=
  let '(audio_data, prev_input, prev_output) := st in
  let input := Binary32.of_Z (at_index audio_data i) in
  let output := (alpha * (prev_output + input - prev_input))%f32 in
  (<[i := float_to_short (clamp16 output)]> audio_data, input, output).

Definition applyHighPassFilter (audio_data : list Z) (prev_input prev_output : float)
  : hp_state :=
  for_loop (length audio_data) applyHighPassFilter_body
           (audio_data, prev_input, prev_output).

(** *** [applyAGC] *)

Definition agc_level (audio_data : list Z) : double :=
  let current_level :=
    for_loop (length audio_data)
      (fun i lvl => Binary64.add lvl (Binary64.of_Z (Z.abs (at_index audio_data i))))
      (S754_zero false) in
  Binary64.div current_level (Binary64.of_Z (Z.of_nat (length audio_data))).

Definition agc_desired_gain (current_level : double) : float :=
  Binary32.of_double (Binary64.div (Binary64.of_Z AGC_TARGET_LEVEL) current_level).

Definition agc_new_gain (current_gain desired_gain : float) : float :=
  clamp_gain (current_gain + (desired_gain - current_gain) * AGC_ADJUSTMENT_RATE)%f32.

Definition agc_scale_body (new_gain : float) (i : nat) (audio_data : list Z) : list Z :=
  let sample := (Binary32.of_Z (at_index audio_data i) * new_gain)%f32 in
  <[i := float_to_short (clamp16 sample)]> audio_data.

(** The result is the block and the value of [g_current_gain] afterwards. *)
Definition applyAGC (audio_data : list Z) (g_current_gain : float) : list Z * float :=
  let current_level := agc_level audio_data in
  let current_gain := g_current_gain in
  if flt (Binary64.of_Z 0) current_level then
    let new_gain := agc_new_gain current_gain (agc_desired_gain current_level) in
    (for_loop (length audio_data) (agc_scale_body new_gain) audio_data, new_gain)
  else (audio_data, g_current_gain).

(** *** [preprocessAudio] *)

(** The function-local statics [prev_input], [prev_output] and the global
    [g_current_gain]. *)
Record dsp_state := mkDsp {
  prev_input : float;
  prev_output : float;
  g_current_gain : float
}.

Definition dsp_init : dsp_state := mkDsp f0 f0 f1.

Definition preprocessAudio (audio_data : list Z) (d : dsp_state) : list Z * dsp_state :=
  let '(audio_data, pin, pout) :=
    applyHighPassFilter audio_data (prev_input d) (prev_output d) in
  let '(audio_data, gain) := applyAGC audio_data (g_current_gain d) in
  (audio_data, mkDsp pin pout gain).

(** *** [paCallback] *)

Inductive PaStreamCallbackResult := paContinue | paComplete.

(** What the callback does to the outside world, newest event first: a block
    handed to [vosk_recognizer_accept_waveform_s], a line written to
    [std::cout], and the execution of the branch
    [smoothed_audio = audio_data]. *)
Inductive event :=
  | EvSubmit (samples : list Z)
  | EvPrint (line : string)
  | EvFallback.

(** The double-quote character, and the two substrings searched for in the
    recogniser's JSON. *)
Definition dquote : string := String (ascii_of_nat 34) EmptyString.
Definition empty_partial_marker : string :=
  (dquote ++ "partial" ++ dquote ++ " : " ++ dquote ++ dquote)%string.
Definition empty_text_marker : string :=
  (dquote ++ "text" ++ dquote ++ " : " ++ dquote ++ dquote)%string.

(** [s.find(marker) == std::string::npos]. *)
Definition not_found (marker s : string) : bool :=
  match String.index 0 marker s with
  | Some _ => false
  | None => true
  end.

Section Callback.

(** The recogniser is an external collaborator: its state and the three
    entry points the callback uses.  A result string may be [NULL]. *)
Context {Recognizer : Type}.
Variable vosk_recognizer_accept_waveform_s : Recognizer -> list Z -> Recognizer * Z.
Variable vosk_recognizer_partial_result : Recognizer -> Recognizer * option string.
Variable vosk_recognizer_result : Recognizer -> Recognizer * option string.

Record world := mkWorld {
  g_request_stop : bool;
  g_last_partial_result_json : string;
  dsp : dsp_state;
  g_audio_buffer : CircularBuffer.t;
  recognizer : Recognizer;
  trace : list event
}.

Definition world_init (r : Recognizer) : world :=
  mkWorld false EmptyString dsp_init (CircularBuffer.new AUDIO_BUFFER_SIZE) r [].

(** The push into the circular buffer, the retrieval and the substitution
    of the unsmoothed block.  The boolean tells whether the substitution
    branch ran. *)
Definition smoothing_stage (buf : CircularBuffer.t) (audio_data : list Z)
  : option (CircularBuffer.t * list Z * bool) :=
  buf' ← CircularBuffer.push buf audio_data;
  smoothed_audio ← CircularBuffer.getSmoothed buf' (length audio_data);
  match smoothed_audio with
  | [] => Some (buf', audio_data, true)
  | _ => Some (buf', smoothed_audio, false)
  end.

(** The part of the callback after the recogniser returned its status. *)
Definition handle_status (vosk_status : Z) (r : Recognizer) (last : string)
  (tr : list event) : Recognizer * string * list event :=
  if (vosk_status =? 0)%Z then
    match vosk_recognizer_partial_result r with
    | (r', Some current_partial_json) =>
        if (0 <? String.length current_partial_json)
           && not_found empty_partial_marker current_partial_json
           && negb (String.eqb current_partial_json last)
           && (20 <? String.length current_partial_json)
        then (r', current_partial_json,
              EvPrint ("Partial: " ++ current_partial_json) :: tr)
        else (r', last, tr)
    | (r', None) => (r', last, tr)
    end
  else if (0 <? vosk_status)%Z then
    match vosk_recognizer_result r with
    | (r', Some final_result) =>
        if (0 <? String.length final_result)
           && not_found empty_text_marker final_result
        then (r', EmptyString, EvPrint ("Final:   " ++ final_result) :: tr)
        else (r', EmptyString, tr)
    | (r', None) => (r', EmptyString, tr)
    end
  else (r, last, tr).

(** [inputBuffer] is [None] for a [NULL] pointer; [framesPerBuffer] is the
    length of the block. *)
Definition paCallback (w : world) (inputBuffer : option (list Z))
  : option (world * PaStreamCallbackResult) :=
  if g_request_stop w then Some (w, paComplete)
  else match inputBuffer with
  | None => Some (w, paContinue)
  | Some input_audio =>
    let audio_data := input_audio in
    if negb (isAudioAboveNoiseGate audio_data) then Some (w, paContinue)
    else
      let '(audio_data, d) := preprocessAudio audio_data (dsp w) in
      '(buf, smoothed_audio, fallback) ← smoothing_stage (g_audio_buffer w) audio_data;
      let tr := if fallback : bool then EvFallback :: trace w else trace w in
      let '(r, vosk_status) :=
        vosk_recognizer_accept_waveform_s (recognizer w) smoothed_audio in
      let tr := EvSubmit smoothed_audio :: tr in
      let '(r, last, tr) :=
        handle_status vosk_status r (g_last_partial_result_json w) tr in
      Some (mkWorld (g_request_stop w) last d buf r tr, paContinue)
  end.

(** The driver calls the callback once per block until it answers
    [paComplete]. *)
Fixpoint run_callbacks (w : world) (blocks : list (option (list Z))) : option world :=
  match blocks with
  | [] => Some w
  | b :: rest =>
      '(w', res) ← paCallback w b;
      match res with
      | paContinue => run_callbacks w' rest
      | paComplete => Some w'
      end
  end.

(** The blocks submitted to the recogniser so far. *)
Definition submissions (w : world) : list (list Z) :=
  omap (fun e => match e with EvSubmit s => Some s | _ => None end) (trace w).

End Callback.

(** *** Definitions used to state the properties *)

(** The unclamped filter outputs [y[0], y[1], ...] of a block, by the
    recurrence [y[n] = alpha * (prevOutput + x[n] - prevInput)] with the
    state then set to [(x[n], y[n])]. *)
Fixpoint hp_outputs (xs : list Z) (prev_in prev_out : float) : list float :=
  match xs with
  | [] => []
  | x :: rest =>
      let input := Binary32.of_Z x in
      let y := (alpha * (prev_out + input - prev_in))%f32 in
      y :: hp_outputs rest input y
  end.

(** The sample the code stores for an unclamped output. *)
Definition hp_store (y : float) : Z := float_to_short (clamp16 y).

(** Rounding to the nearest integer, halves away from zero, as [round]. *)
Definition round_nearest (f : float) : Z :=
  match f with
  | S754_finite s m e =>
      cond_Zopp s
        (if (0 <=? e)%Z then Z.shiftl (Zpos m) e
         else Z.shiftr (Zpos m + Z.shiftl 1 (- e - 1)) (- e))
  | _ => 0%Z
  end.

(** The stored sample as the specification words it:
    [clamp(round(y), -32768, 32767)]. *)
Definition hp_store_rounding (y : float) : Z :=
  Z.max (-32768) (Z.min 32767 (round_nearest y)).

(** The value of [g_current_gain] after [applyAGC] has processed the blocks
    in order. *)
Definition agc_gain_after (blocks : list (list Z)) (gain : float) : float :=
  foldl (fun g block => snd (applyAGC block g)) gain blocks.

Definition in_gain_range (g : float) : bool := fle f0_1 g && fle g f10.

(** The mean of the squares and its root, in [double], summing from the
    first sample to the last. *)
Definition mean_square (samples : list Z) : double :=
  Binary64.div
    (foldl Binary64.add (S754_zero false)
           ((fun x => Binary64.of_Z (x * x)) <$> samples))
    (Binary64.of_Z (Z.of_nat (length samples))).

Definition rms (samples : list Z) : double := Binary64.sqrt (mean_square samples).

(** What one callback does to the filter and gain state: nothing below the
    gate, [preprocessAudio] above it. *)
Definition pipeline_step (block : list Z) (d : dsp_state) : dsp_state :=
  if isAudioAboveNoiseGate block then snd (preprocessAudio block d) else d.

(** The gain before the first block and after each of [n] presentations of
    the same block to the gate, filter and gain stages. *)
Fixpoint pipeline_gains (block : list Z) (n : nat) (d : dsp_state) : list float :=
  match n with
  | 0 => [g_current_gain d]
  | S n' => g_current_gain d :: pipeline_gains block n' (pipeline_step block d)
  end.

(** The same for the gain stage alone. *)
Fixpoint agc_gains (block : list Z) (n : nat) (gain : float) : list float :=
  match n with
  | 0 => [gain]
  | S n' => gain :: agc_gains block n' (snd (applyAGC block gain))
  end.

(** [b] lies between [a] and [c]. *)
Definition between (a b c : float) : bool :=
  (fle a b && fle b c) || (fle c b && fle b a).

(** Every element of the sequence lies between its predecessor and the
    target: the sequence moves toward the target and never past it. *)
Fixpoint approaches_monotonically (target : float) (gs : list float) : bool :=
  match gs with
  | g :: (g' :: _) as rest => between g g' target && approaches_monotonically target rest
  | _ => true
  end.

(** A block of [n] samples of the same value. *)
Definition constant_block (n : nat) (c : Z) : list Z := replicate n c.

(** The [k]-th unclamped output for a constant input [c]: after the first
    sample the previous input is [c] itself. *)
Fixpoint hp_dc_output (c : Z) (prev_in prev_out : float) (k : nat) : float :=
  match k with
  | 0 => (alpha * (prev_out + Binary32.of_Z c - prev_in))%f32
  | S k' =>
      (alpha * (hp_dc_output c prev_in prev_out k' + Binary32.of_Z c
                - Binary32.of_Z c))%f32
  end.

(** The block of the end-to-end scenario: 512 samples of amplitude 1000. *)
Definition dc_block : list Z := constant_block FRAMES_PER_BUFFER 1000%Z.

(** [9.5 * 2^-14], about 0.00058. *)
Definition hp_stall : float := S754_finite false 9961472 (-34).

(** [8 - 2^-19], about 7.9999981. *)
Definition agc_settled_gain : float := S754_finite false 16777212 (-21).

(** A recogniser that always asks for more data and has nothing to say. *)
Definition silent_accept (r : unit) (samples : list Z) : unit * Z := (r, 0%Z).
Definition silent_result (r : unit) : unit * option string := (r, None).

(** The filter and gain state the pipeline reaches on [dc_block]. *)
Definition dsp_saturated : dsp_state := mkDsp (Binary32.of_Z 1000) hp_stall f10.

(** The gains produced by repeating the smoothing step toward a fixed
    desired gain. *)
Fixpoint smoothing_gains (desired : float) (n : nat) (g : float) : list float :=
  match n with
  | 0 => [g]
  | S n' => g :: smoothing_gains desired n' (agc_new_gain g desired)
  end.

(** *** Integers held in [double] *)

(** [2^52] and [2^53]: a normal [double] has its mantissa between them. *)
Definition P52 : Z := 4503599627370496.
Definition P53 : Z := 9007199254740992.

(** A shift record with no bit lost so far. *)
Definition exact_record (m : Z) : shr_record :=
  {| shr_m := m; shr_r := false; shr_s := false |}.

(** Mantissa and exponent of the normal [double] holding the integer [k]. *)
Definition norm_man (k : Z) : Z := (k * 2 ^ (53 - Zdigits2 k))%Z.
Definition norm_exp (k : Z) : Z := (Zdigits2 k - 53)%Z.

(** The [double] holding the integer [k], for [0 <= k < 2^53]. *)
Definition double_int (k : Z) : double :=
  if (k =? 0)%Z then S754_zero false
  else S754_finite false (Z.to_pos (norm_man k)) (norm_exp k).

(** The location [l] describes the remainder [r] of a division by [d]:
    zero, below half, half, above half. *)
Definition loc_ok (l : location) (r d : Z) : Prop :=
  match l with
  | loc_Exact => r = 0%Z
  | loc_Inexact Lt => (0 < 2 * r < d)%Z
  | loc_Inexact Eq => (0 < r)%Z /\ (2 * r)%Z = d
  | loc_Inexact Gt => (d < 2 * r)%Z
  end.

(** The [double]s 250000.0 and 500.0. *)
Definition T250000 : double := S754_finite false 8589934592000000 (-35).
Definition T500 : double := S754_finite false 8796093022208000 (-44).

(** A value in the range of [short], and the exact sum of the squares of a
    block. *)
Definition is_short (x : Z) : Prop := (-32768 <= x <= 32767)%Z.
Definition sum_squares (samples : list Z) : Z :=
  foldr (fun x acc => (x * x + acc)%Z) 0%Z samples.
(** The exact sum of the absolute values of a block. *)
Definition sum_abs (samples : list Z) : Z :=
  foldr (fun x acc => (Z.abs x + acc)%Z) 0%Z samples.

(** Each element is strictly below the one before it. *)
Fixpoint strictly_decreasing (l : list float) : bool :=
  match l with
  | y :: (y' :: _) as rest => flt y' y && strictly_decreasing rest
  | _ => true
  end.

(** The state of the circular buffer in every callback: the invariant of
    the class, at the configured capacity. *)
Definition buffer_ready (b : CircularBuffer.t) : Prop :=
  CircularBuffer.wf b ∧ CircularBuffer.capacity b = AUDIO_BUFFER_SIZE.

(** *** Further definitions used to state the properties *)

(** [tail] trails [head] by the occupied count: it is the index of the
    oldest sample still held. *)
Definition tail_consistent (b : CircularBuffer.t) : Prop :=
  CircularBuffer.wf b ∧
  CircularBuffer.tail b < CircularBuffer.capacity b ∧
  CircularBuffer.head b
  = (CircularBuffer.tail b + CircularBuffer.count b) mod CircularBuffer.capacity b.

(** The blocks a run of the callback hands to the recogniser, computed
    from the input blocks and the filter and gain state alone: [NULL]
    inputs and blocks below the gate are skipped, the others go through
    [preprocessAudio]. *)
Fixpoint pipeline_outputs (blocks : list (option (list Z))) (d : dsp_state)
  : list (list Z) :=
  match blocks with
  | [] => []
  | None :: rest => pipeline_outputs rest d
  | Some block :: rest =>
      if isAudioAboveNoiseGate block then
        (preprocessAudio block d).1
          :: pipeline_outputs rest (preprocessAudio block d).2
      else pipeline_outputs rest d
  end.

(** The two forms of line the callback may print. *)
Definition partial_line (line : string) : Prop :=
  ∃ p, line = ("Partial: " ++ p)%string ∧ 20 < String.length p ∧
       not_found empty_partial_marker p = true.
Definition final_line (line : string) : Prop :=
  ∃ f, line = ("Final:   " ++ f)%string ∧ 0 < String.length f ∧
       not_found empty_text_marker f = true.
Definition printed_lines_ok (tr : list event) : Prop :=
  ∀ line, EvPrint line ∈ tr → partial_line line ∨ final_line line.

(** A recogniser that reports the same text at every call. *)
Definition fixed_result (s : string) (r : unit) : unit * option string :=
  (r, Some s).

(** *** [checkForQuitCommand]

    The loop over [std::cin.get(c)]: [cin] is the input still to be read
    and the result is what is left of it with the value of
    [g_request_stop].  Reading from the empty input fails and ends the
    loop.  No other function writes the flag, so within the loop it has the
    value it had on entry.  The banner written before the loop is left
    out. *)
Definition newline : ascii := ascii_of_nat 10.

Fixpoint checkForQuitCommand (cin : list ascii) (g_request_stop : bool)
  : list ascii * bool :=
  match cin with
  | [] => ([], g_request_stop)
  | c :: rest =>
      if Ascii.eqb c "q" || Ascii.eqb c "Q" then (rest, true)
      else if Ascii.eqb c newline && g_request_stop then (rest, g_request_stop)
      else checkForQuitCommand rest g_request_stop
  end.

Definition is_quit (c : ascii) : Prop := c = "q"%char ∨ c = "Q"%char.

(** *** The callback of [voice_basic.cpp]

    The same callback without gate, preprocessing and circular buffer: the
    block goes to the recogniser as it comes. *)
Module Basic.

Definition FRAMES_PER_BUFFER : nat := 1024.

Section Callback.

Context {Recognizer : Type}.
Variable vosk_recognizer_accept_waveform_s : Recognizer -> list Z -> Recognizer * Z.
Variable vosk_recognizer_partial_result : Recognizer -> Recognizer * option string.
Variable vosk_recognizer_result : Recognizer -> Recognizer * option string.

Record world := mkWorld {
  g_request_stop : bool;
  g_last_partial_result_json : string;
  recognizer : Recognizer;
  trace : list event
}.

Definition handle_status (vosk_status : Z) (r : Recognizer) (last : string)
  (tr : list event) : Recognizer * string * list event :=
  if (vosk_status =? 0)%Z then
    match vosk_recognizer_partial_result r with
    | (r', Some current_partial_json) =>
        if (0 <? String.length current_partial_json)
           && not_found empty_partial_marker current_partial_json
           && negb (String.eqb current_partial_json last)
        then (r', current_partial_json,
              EvPrint ("Partial: " ++ current_partial_json) :: tr)
        else (r', last, tr)
    | (r', None) => (r', last, tr)
    end
  else if (0 <? vosk_status)%Z then
    match vosk_recognizer_result r with
    | (r', Some final_result_json) =>
        if 0 <? String.length final_result_json
        then (r', EmptyString, EvPrint ("Final:   " ++ final_result_json) :: tr)
        else (r', EmptyString, tr)
    | (r', None) => (r', EmptyString, tr)
    end
  else (r, last, tr).

Definition paCallback (w : world) (inputBuffer : option (list Z))
  : world * PaStreamCallbackResult :=
  if g_request_stop w then (w, paComplete)
  else match inputBuffer with
  | None => (w, paContinue)
  | Some audio_data =>
      let '(r, vosk_status) :=
        vosk_recognizer_accept_waveform_s (recognizer w) audio_data in
      let tr := EvSubmit audio_data :: trace w in
      let '(r, last, tr) :=
        handle_status vosk_status r (g_last_partial_result_json w) tr in
      (mkWorld (g_request_stop w) last r tr, paContinue)
  end.

Fixpoint run_callbacks (w : world) (blocks : list (option (list Z))) : world :=
  match blocks with
  | [] => w
  | b :: rest =>
      let '(w', res) := paCallback w b in
      match res with
      | paContinue => run_callbacks w' rest
      | paComplete => w'
      end
  end.

Definition submissions (w : world) : list (list Z) :=
  omap (fun e => match e with EvSubmit s => Some s | _ => None end) (trace w).

End Callback.

End Basic.

(** *** [main]

    The calls the main thread makes to the two libraries, in program order
    and with their arguments, and how [main] ends, as a function of what the
    calls answer and of the console input.

    After [Pa_StartStream] the main thread starts [checkForQuitCommand] in a
    thread of its own and waits in [while (!g_request_stop)].  Only
    [checkForQuitCommand] writes the flag, so the wait ends exactly when the
    quit loop, run on the console input [cin] with the flag clear, sets it;
    the thread is then joined and the shutdown runs.  When the input ends
    (or blocks for ever) without [q] or [Q] the flag stays clear and [main]
    never leaves the wait: the stream keeps running and nothing is stopped
    or released.  The calls the PortAudio thread makes through the callback
    in the meantime are those of [run_callbacks]; they are not part of the
    list.  Diagnostic output is left out, except the line for the result
    buffered at exit. *)
Definition MODEL_PATH : string := "/mnt/d/vsk/model".
Definition SAMPLE_RATE : Z := 16000.
Definition NUM_CHANNELS : Z := 1.

Inductive PaSampleFormat := paInt16.
Inductive PaStreamFlags := paClipOff.
(** The field of [PaDeviceInfo] taken as [suggestedLatency]. *)
Inductive input_latency := defaultHighInputLatency | defaultLowInputLatency.
(** The function registered as stream callback: the [paCallback] of
    [voice_w_cbuff.cpp] or the one of [voice_basic.cpp]. *)
Inductive stream_callback := paCallback_w_cbuff | paCallback_basic.

Inductive api_call :=
  | vosk_model_new (model_path : string)
  | vosk_recognizer_new (sample_rate : Z)
  | vosk_recognizer_set_words (words : Z)
  | Pa_Initialize
  | Pa_GetDefaultInputDevice
  | Pa_GetDeviceInfo
  | Pa_OpenStream (channelCount : Z) (sampleFormat : PaSampleFormat)
      (suggestedLatency : input_latency) (sampleRate : Z)
      (framesPerBuffer : nat) (streamFlags : PaStreamFlags)
      (streamCallback : stream_callback)
  | Pa_StartStream
  | start_quit_checker_thread
  | join_quit_checker_thread
  | Pa_StopStream
  | Pa_CloseStream
  | Pa_Terminate
  | vosk_recognizer_final_result
  | print_final_on_exit (json : string)
  | vosk_recognizer_free
  | vosk_model_free.

(** What the environment answers: whether each call succeeds, and the
    string of [vosk_recognizer_final_result] ([None] for [NULL]). *)
Record outcomes := mkOutcomes {
  model_loaded : bool;
  recognizer_created : bool;
  pa_initialized : bool;
  device_found : bool;
  stream_opened : bool;
  stream_started : bool;
  stream_stopped : bool;
  stream_closed : bool;
  final_buffered_result_json : option string
}.

(** How [main] ends: it returns a status after the calls made, or it
    stays in the wait loop after them. *)
Inductive main_result :=
  | returns (calls : list api_call) (status : Z)
  | never_returns (calls : list api_call).

Definition calls_of (r : main_result) : list api_call :=
  match r with
  | returns calls _ => calls
  | never_returns calls => calls
  end.

(** Steps 11 and 12, common to both programs: the result still buffered
    and the release of the recogniser and the model. *)
Definition final_result_and_cleanup (o : outcomes) : list api_call :=
  vosk_recognizer_final_result ::
  match final_buffered_result_json o with
  | Some json =>
      if (0 <? String.length json) && not_found empty_text_marker json
      then [print_final_on_exit json]
      else []
  | None => []
  end ++ [vosk_recognizer_free; vosk_model_free].

(** What follows the wait loop: the join and steps 9 to 12. *)
Definition shutdown (o : outcomes) : list api_call :=
  [join_quit_checker_thread; Pa_StopStream; Pa_CloseStream; Pa_Terminate]
  ++ final_result_and_cleanup o.

(** [main] of [voice_w_cbuff.cpp]. *)
Definition main (o : outcomes) (cin : list ascii) : main_result :=
  let calls := [vosk_model_new MODEL_PATH] in
  if negb (model_loaded o) then returns calls 1 else
  let calls := calls ++ [vosk_recognizer_new SAMPLE_RATE] in
  if negb (recognizer_created o) then
    returns (calls ++ [vosk_model_free]) 1 else
  let calls := calls ++ [vosk_recognizer_set_words 1; Pa_Initialize] in
  if negb (pa_initialized o) then
    returns (calls ++ [vosk_recognizer_free; vosk_model_free]) 1 else
  let calls := calls ++ [Pa_GetDefaultInputDevice] in
  if negb (device_found o) then
    returns (calls ++ [Pa_Terminate; vosk_recognizer_free; vosk_model_free]) 1 else
  let calls := calls ++
    [Pa_GetDeviceInfo;
     Pa_OpenStream NUM_CHANNELS paInt16 defaultHighInputLatency SAMPLE_RATE
       FRAMES_PER_BUFFER paClipOff paCallback_w_cbuff] in
  if negb (stream_opened o) then
    returns (calls ++ [Pa_Terminate; vosk_recognizer_free; vosk_model_free]) 1 else
  let calls := calls ++ [Pa_StartStream] in
  if negb (stream_started o) then
    returns (calls ++ [Pa_CloseStream; Pa_Terminate;
                       vosk_recognizer_free; vosk_model_free]) 1 else
  let calls := calls ++ [Pa_GetDeviceInfo; start_quit_checker_thread] in
  if (checkForQuitCommand cin false).2
  then returns (calls ++ shutdown o) 0
  else never_returns calls.

(** [main] of [voice_basic.cpp]. *)
Definition basic_main (o : outcomes) (cin : list ascii) : main_result :=
  let calls := [vosk_model_new MODEL_PATH] in
  if negb (model_loaded o) then returns calls 1 else
  let calls := calls ++ [vosk_recognizer_new SAMPLE_RATE] in
  if negb (recognizer_created o) then
    returns (calls ++ [vosk_model_free]) 1 else
  let calls := calls ++ [Pa_Initialize] in
  if negb (pa_initialized o) then
    returns (calls ++ [vosk_recognizer_free; vosk_model_free]) 1 else
  let calls := calls ++ [Pa_GetDefaultInputDevice] in
  if negb (device_found o) then
    returns (calls ++ [Pa_Terminate; vosk_recognizer_free; vosk_model_free]) 1 else
  let calls := calls ++
    [Pa_GetDeviceInfo;
     Pa_OpenStream NUM_CHANNELS paInt16 defaultLowInputLatency SAMPLE_RATE
       Basic.FRAMES_PER_BUFFER paClipOff paCallback_basic] in
  if negb (stream_opened o) then
    returns (calls ++ [Pa_Terminate; vosk_recognizer_free; vosk_model_free]) 1 else
  let calls := calls ++ [Pa_StartStream] in
  if negb (stream_started o) then
    returns (calls ++ [Pa_CloseStream; Pa_Terminate;
                       vosk_recognizer_free; vosk_model_free]) 1 else
  let calls := calls ++ [Pa_GetDeviceInfo; start_quit_checker_thread] in
  if (checkForQuitCommand cin false).2
  then returns (calls ++ shutdown o) 0
  else never_returns calls.

(** The four resources [main] holds, the call that releases each, and the
    resources a run has obtained, in the order of acquisition. *)
Inductive resource := Model | RecognizerHandle | PortAudioLibrary | Stream.

Definition releases (c : api_call) : option resource :=
  match c with
  | vosk_model_free => Some Model
  | vosk_recognizer_free => Some RecognizerHandle
  | Pa_Terminate => Some PortAudioLibrary
  | Pa_CloseStream => Some Stream
  | _ => None
  end.

Definition acquired (o : outcomes) : list resource :=
  (if model_loaded o then [Model] else []) ++
  (if model_loaded o && recognizer_created o then [RecognizerHandle] else []) ++
  (if model_loaded o && recognizer_created o && pa_initialized o
   then [PortAudioLibrary] else []) ++
  (if model_loaded o && recognizer_created o && pa_initialized o
      && device_found o && stream_opened o
   then [Stream] else []).

(** The calls that use the recogniser handle, directly or by handing it
    to the stream whose callback uses it. *)
Definition uses_recognizer (c : api_call) : bool :=
  match c with
  | vosk_recognizer_set_words _ | Pa_OpenStream _ _ _ _ _ _ _ | Pa_StartStream
  | vosk_recognizer_final_result | vosk_recognizer_free => true
  | _ => false
  end.

(** Nothing in [calls] uses the recogniser once it has been freed. *)
Fixpoint no_use_after_free (calls : list api_call) : bool :=
  match calls with
  | [] => true
  | vosk_recognizer_free :: rest =>
      forallb (fun c => negb (uses_recognizer c)) rest
  | _ :: rest => no_use_after_free rest
  end.

Definition all_setup_succeeds (o : outcomes) : bool :=
  model_loaded o && recognizer_created o && pa_initialized o
  && device_found o && stream_opened o && stream_started o.

(** The call of [voice_basic.cpp] in the place of a call of
    [voice_w_cbuff.cpp]: [vosk_recognizer_set_words] has none, and the
    stream is opened with the low latency, 1024 frames per buffer and the
    basic callback. *)
Definition basic_counterpart (c : api_call) : option api_call :=
  match c with
  | vosk_recognizer_set_words _ => None
  | Pa_OpenStream channels format _ rate _ flags _ =>
      Some (Pa_OpenStream channels format defaultLowInputLatency rate
              Basic.FRAMES_PER_BUFFER flags paCallback_basic)
  | c => Some c
  end.


(** *** Shapes of binary32 values *)

(** The significand of a finite value fits in 24 bits. *)
Definition fits_float (x : float) : Prop :=
  match x with
  | S754_finite _ m _ => (Zpos m < 2 ^ 24)%Z
  | _ => True
  end.

(** A value that is not a NaN and carries the sign bit [s]. *)
Definition has_sign (s : bool) (x : float) : Prop :=
  match x with
  | S754_zero s' | S754_infinity s' | S754_finite s' _ _ => s' = s
  | S754_nan => False
  end.

(** *** The values of binary32 numbers *)

(** The value of a finite binary32 number in units of [2^-149], the
    smallest positive one: every finite value is an integer number of these
    units, and 1.0 is [float_one]. *)
Definition float_units (x : float) : Z :=
  match x with
  | S754_finite s m e => cond_Zopp s (Zpos m * 2 ^ (e + 149))
  | _ => 0
  end%Z.

Definition float_one : Z := (2 ^ 149)%Z.

(** A zero or a finite number in the normal form of the format. *)
Definition finite_float (x : float) : Prop :=
  valid_binary 24 128 x = true ∧
  match x with
  | S754_zero _ | S754_finite _ _ _ => True
  | _ => False
  end.

(** A state of the filter the analysis covers: a finite number of
    magnitude at most [2^100]. *)
Definition hp_state_ok (x : float) : Prop :=
  finite_float x ∧ (Z.abs (float_units x) <= 2 ^ 100 * float_one)%Z.

(** The states the filter is in between two samples when it is started
    from zero and fed 16-bit samples: the previous input is such a sample,
    and the previous output a finite number of magnitude at most [2^21]. *)
Definition hp_state_reachable (pin pout : float) : Prop :=
  (∃ p, is_short p ∧ pin = Binary32.of_Z p) ∧
  finite_float pout ∧ (Z.abs (float_units pout) <= 2 ^ 21 * float_one)%Z.

(** The exponent [e] is the one the format gives a significand of the
    size of [m]. *)
Definition canon (m e : Z) : Prop := (e = fexp 24 128 (Zdigits2 m + e))%Z.

(** ** Part II: properties *)

(** *** The constants *)

(** The literals are the nearest values of their types. *)
Example alpha_value : alpha = Binary32.div (Binary32.of_Z 95) (Binary32.of_Z 100).
Proof. reflexivity. Qed.

Example f0_1_value : f0_1 = Binary32.div (Binary32.of_Z 1) (Binary32.of_Z 10).
Proof. reflexivity. Qed.

Example T500_value : T500 = Binary64.of_Z NOISE_GATE_THRESHOLD.
Proof. reflexivity. Qed.

Example T250000_value : T250000 = Binary64.of_Z 250000.
Proof. reflexivity. Qed.

Example hp_stall_value :
  hp_stall = Binary32.div (Binary32.of_Z 19) (Binary32.of_Z 32768).
Proof. reflexivity. Qed.

Example agc_settled_gain_value :
  agc_settled_gain
  = (f8 - Binary32.div (Binary32.of_Z 1) (Binary32.of_Z 524288))%f32.
Proof. reflexivity. Qed.

(** The conversion to [short] cuts the fraction off, on both sides of
    zero. *)
Example float_to_short_truncates :
  float_to_short (Binary32.div (Binary32.of_Z 285) (Binary32.of_Z 100)) = 2%Z ∧
  float_to_short (Binary32.div (Binary32.of_Z (-285)) (Binary32.of_Z 100)) = (-2)%Z ∧
  float_to_short alpha = 0%Z.
Proof. by vm_compute. Qed.

(** Out-of-range values and NaN are clamped before the conversion. *)
Example clamp16_examples :
  clamp16 (Binary32.of_Z 40000) = f32767 ∧
  clamp16 (Binary32.of_Z (-40000)) = fm32768 ∧
  clamp16 S754_nan = f32767 ∧
  clamp16 (S754_infinity true) = fm32768.
Proof. by vm_compute. Qed.

(** *** Loops *)

Lemma for_loop_read {S : Type} (f : S -> Z -> S) (a : list Z) (init : S) :
  for_loop (length a) (fun i s => f s (at_index a i)) init = foldl f init a.
Proof.
  unfold for_loop.
  enough (H : ∀ suf pre s,
    foldl (fun s i => f s (at_index (pre ++ suf) i)) s
          (seq (length pre) (length suf)) = foldl f s suf)
    by apply (H a [] init).
  induction suf as [|x suf IH]; intros pre s; [done|].
  simpl. unfold at_index at 2.
  rewrite list_lookup_middle by done. simpl.
  specialize (IH (pre ++ [x]) (f s x)).
  rewrite length_app, Nat.add_1_r, <- app_assoc in IH. exact IH.
Qed.

Lemma for_loop_map (g : Z -> Z) (a : list Z) :
  for_loop (length a) (fun i a => <[i := g (at_index a i)]> a) a = g <$> a.
Proof.
  unfold for_loop.
  enough (H : ∀ suf pre,
    foldl (fun a i => <[i := g (at_index a i)]> a) (pre ++ suf)
          (seq (length pre) (length suf)) = pre ++ (g <$> suf))
    by apply (H a []).
  induction suf as [|x suf IH]; intros pre; [done|].
  simpl. unfold at_index at 2.
  rewrite list_lookup_middle by done. simpl.
  rewrite (insert_app_r_alt pre (x :: suf) (length pre)) by lia.
  rewrite Nat.sub_diag. simpl.
  specialize (IH (pre ++ [g x])).
  rewrite length_app, Nat.add_1_r, <- !app_assoc in IH. exact IH.
Qed.

(** *** The circular buffer *)

Section RingBuffer.
Import CircularBuffer.

Lemma mod_lt2 a c : 0 < c → a < 2 * c →
  a mod c = if decide (a < c) then a else a - c.
Proof.
  intros Hc Ha. case_decide.
  - by apply Nat.mod_small.
  - replace a with ((a - c) + 1 * c) at 1 by lia.
    rewrite Nat.Div0.mod_add. apply Nat.mod_small. lia.
Qed.

Lemma wf_new size : 0 < size → wf (new size).
Proof. intros. unfold wf, new; simpl. rewrite length_replicate. lia. Qed.

Lemma recent_nil b : wf b → recent b [].
Proof. intros Hw. split; [done|]. split; simpl; [lia|]. intros j Hj. lia. Qed.

Lemma recent_wf b l : recent b l → wf b.
Proof. by intros [? _]. Qed.

Lemma push_sample_recent b l x :
  recent b l → ∃ b', push_sample b x = Some b' ∧ recent b' (l ++ [x]) ∧
                     capacity b' = capacity b.
Proof.
  intros ((Hc & Hlen & Hh & Hcnt) & Hmin & Hrd).
  unfold push_sample. rewrite decide_True by lia.
  eexists; split; [reflexivity|]. split; [|done].
  split; [|split]; simpl.
  - unfold wf; simpl. rewrite length_insert.
    repeat split; try lia.
    + apply Nat.mod_upper_bound. lia.
    + case_decide; lia.
  - rewrite length_app; simpl. case_decide; lia.
  - intros j Hj Hjc. rewrite length_app in Hj; simpl in Hj.
    rewrite reverse_app; simpl.
    rewrite (mod_lt2 (head b + 1)) by lia.
    destruct j as [|j]; simpl.
    + rewrite mod_lt2 by (repeat case_decide; lia).
      replace (if decide _ then _ else _) with (head b)
        by (repeat case_decide; lia).
      apply list_lookup_insert_eq. lia.
    + rewrite <- Hrd by lia.
      rewrite !mod_lt2 by (repeat case_decide; lia).
      rewrite list_lookup_insert_ne by (repeat case_decide; lia).
      f_equal. repeat case_decide; lia.
Qed.

Lemma push_recent data : ∀ b l,
  recent b l → ∃ b', push b data = Some b' ∧ recent b' (l ++ data) ∧
                     capacity b' = capacity b.
Proof.
  induction data as [|x data IH]; intros b l Hr; simpl.
  - exists b. by rewrite app_nil_r.
  - destruct (push_sample_recent b l x Hr) as (b1 & -> & Hr1 & Hc1). simpl.
    destruct (IH b1 (l ++ [x]) Hr1) as (b' & Hp & Hr' & Hc').
    exists b'. rewrite <- app_assoc in Hr'. simpl in Hr'.
    split; [done|]. split; [done|]. congruence.
Qed.

Lemma getSmoothed_recent b l n :
  recent b l → n ≤ length l → n ≤ capacity b →
  getSmoothed b n = Some (drop (length l - n) l).
Proof.
  intros ((Hc & Hlen & Hh & Hcnt) & Hmin & Hrd) Hn Hnc.
  unfold getSmoothed, read_indices. rewrite decide_False by lia.
  apply mapM_Some. apply Forall2_same_length_lookup_2.
  - rewrite length_fmap, length_seq, length_drop. lia.
  - intros i idx v Hi Hv.
    rewrite list_lookup_fmap in Hi.
    destruct (seq 0 n !! i) as [k|] eqn:Hk; [|done]. simpl in Hi.
    apply lookup_seq in Hk as [-> Hin]. simpl in Hi. injection Hi as <-.
    rewrite lookup_drop in Hv.
    specialize (Hrd (n - 1 - i) ltac:(lia) ltac:(lia)).
    rewrite reverse_lookup in Hrd by lia.
    replace (length l - S (n - 1 - i)) with (length l - n + i) in Hrd by lia.
    rewrite <- Hv, <- Hrd. f_equal.
    unfold start_index.
    rewrite !mod_lt2 by (repeat case_decide; lia).
    repeat case_decide; lia.
Qed.

(** Every index [getSmoothed] reads lies inside the storage. *)
Lemma read_indices_in_bounds b len i :
  wf b → i ∈ read_indices b len → i < length (buffer b).
Proof.
  intros (Hc & Hlen & _) Hi. unfold read_indices in Hi.
  case_decide; [by apply elem_of_nil in Hi|].
  apply list_elem_of_fmap in Hi as (k & -> & _).
  rewrite Hlen. apply Nat.mod_upper_bound. lia.
Qed.

(** Pushing a block that fits and asking for as many samples returns the
    block; the buffer then holds at least that many samples. *)
Lemma push_block_getSmoothed b data :
  wf b → length data ≤ capacity b →
  ∃ b', push b data = Some b' ∧ wf b' ∧ capacity b' = capacity b ∧
        length data ≤ count b' ∧ getSmoothed b' (length data) = Some data.
Proof.
  intros Hw Hk.
  destruct (push_recent data b [] (recent_nil b Hw)) as (b' & Hp & Hr & Hc).
  simpl in Hr. exists b'. split; [done|]. split; [by eapply recent_wf|].
  split; [done|]. split.
  - destruct Hr as (_ & Hmin & _). lia.
  - rewrite (getSmoothed_recent b' data) by (rewrite ?Hc; done || lia).
    by rewrite Nat.sub_diag.
Qed.

(** Pushing two blocks one after the other is pushing their
    concatenation. *)
Lemma push_app b d1 d2 : push b (d1 ++ d2) = b1 ← push b d1; push b1 d2.
Proof.
  revert b. induction d1 as [|x d1 IH]; intros b; simpl; [done|].
  destruct (push_sample b x) as [b1|]; simpl; [apply IH|done].
Qed.

(** The occupied count grows with the samples pushed and saturates at the
    capacity. *)
Lemma push_count data : ∀ b b',
  count b ≤ capacity b → push b data = Some b' →
  count b' = (count b + length data) `min` capacity b ∧ capacity b' = capacity b.
Proof.
  induction data as [|x data IH]; intros b b' Hc Hp; simpl in *.
  - injection Hp as <-. lia.
  - unfold push_sample in Hp. case_decide; [|done]. simpl in Hp.
    apply IH in Hp; simpl in *; [|case_decide; lia].
    destruct Hp as [-> ->]. split; [|done]. case_decide; lia.
Qed.

(** C3: after a block has been pushed, [getSmoothed(n)] returns exactly
    the last [n] samples pushed, in the order pushed, for every [n] up to
    the length of the block and the capacity, whatever the buffer held
    before: the whole block when it has [k <= capacity] samples, so that the
    smoothing stage of the callback hands on the very block it was given,
    and the last [capacity] samples of a longer block, the older ones having
    been overwritten.  The occupied count saturates at the capacity and no
    undefined access occurs. *)
Theorem push_then_getSmoothed (b : t) (data : list Z) :
  wf b →
  ∃ b', push b data = Some b' ∧ wf b' ∧ capacity b' = capacity b ∧
    count b' = (count b + length data) `min` capacity b ∧
    (∀ n, n ≤ length data → n ≤ capacity b →
       getSmoothed b' n = Some (drop (length data - n) data)) ∧
    (length data ≤ capacity b →
       getSmoothed b' (length data) = Some data ∧
       ∃ fallback, smoothing_stage b data = Some (b', data, fallback)).
Proof.
  intros Hw.
  destruct (push_recent data b [] (recent_nil b Hw)) as (b' & Hp & Hr & Hc).
  simpl in Hr. exists b'. split; [done|]. split; [by eapply recent_wf|].
  split; [done|]. split; [|split].
  - destruct Hw as (_ & _ & _ & Hcnt). by apply (push_count data b b').
  - intros n Hn Hnc. apply getSmoothed_recent; [done|done|lia].
  - intros Hk.
    assert (Hg : getSmoothed b' (length data) = Some data).
    { rewrite (getSmoothed_recent b' data) by (rewrite ?Hc; done || lia).
      by rewrite Nat.sub_diag. }
    split; [done|]. unfold smoothing_stage. rewrite Hp. simpl. rewrite Hg. simpl.
    destruct data; eauto.
Qed.

(** A buffer of capacity 4 holding [1, 2, 3]: a block of three is pushed
    and read back, then a block of six, of which the last four remain. *)
Lemma push_then_getSmoothed_witness :
  (∃ b', push (mk [1; 2; 3; 0] 3 0 3 4)%Z [7; 8; 9]%Z = Some b' ∧
         getSmoothed b' 3 = Some [7; 8; 9]%Z) ∧
  (∃ b', push (mk [1; 2; 3; 0] 3 0 3 4)%Z [4; 5; 6; 7; 8; 9]%Z = Some b' ∧
         count b' = 4 ∧ getSmoothed b' 4 = Some [6; 7; 8; 9]%Z).
Proof.
  assert (Hw : wf (mk [1; 2; 3; 0] 3 0 3 4)%Z) by (unfold wf; simpl; lia).
  split.
  - destruct (push_then_getSmoothed _ [7; 8; 9]%Z Hw)
      as (b' & Hp & _ & _ & _ & _ & Hk).
    exists b'. split; [exact Hp|]. apply Hk. simpl; lia.
  - destruct (push_then_getSmoothed _ [4; 5; 6; 7; 8; 9]%Z Hw)
      as (b' & Hp & _ & _ & Hc & Hk & _).
    exists b'. split; [exact Hp|]. split; [exact Hc|].
    apply (Hk 4); simpl; lia.
Defined.

(** C7: when more samples are requested than the buffer holds,
    [getSmoothed] returns the empty vector and reads no element of the
    storage at all. *)
Theorem getSmoothed_insufficient (b : t) (n : nat) :
  count b < n → getSmoothed b n = Some [] ∧ read_indices b n = [].
Proof.
  intros Hn. unfold getSmoothed, read_indices.
  by rewrite decide_True by done.
Qed.

Lemma getSmoothed_insufficient_witness :
  getSmoothed (mk [5; 6; 0; 0] 2 0 2 4)%Z 3 = Some [] ∧
  read_indices (mk [5; 6; 0; 0] 2 0 2 4)%Z 3 = [].
Proof.
  apply (getSmoothed_insufficient (mk [5; 6; 0; 0] 2 0 2 4)%Z 3). simpl; lia.
Defined.

End RingBuffer.

(** *** Comparisons and clamping *)

Lemma flt_fle a b : flt a b = true → fle a b = true.
Proof.
  unfold flt, fle, SFltb, SFleb. by destruct (SFcompare a b) as [[]|].
Qed.

Lemma flt_not_nan a b : flt a b = true → a ≠ S754_nan ∧ b ≠ S754_nan.
Proof. unfold flt, SFltb. by destruct a, b. Qed.

Lemma clamp_gain_in_range x : in_gain_range (clamp_gain x) = true.
Proof.
  unfold in_gain_range, clamp_gain, std_max, std_min.
  destruct (flt x f10) eqn:Hhi.
  - destruct (flt f0_1 x) eqn:Hlo.
    + by rewrite !flt_fle.
    + reflexivity.
  - reflexivity.
Qed.

(** The clamped value handed to [static_cast<short>] is never a NaN or an
    infinity. *)
Lemma clamp16_finite x :
  match clamp16 x with S754_nan | S754_infinity _ => False | _ => True end.
Proof.
  unfold clamp16, std_max, std_min.
  destruct (flt x f32767) eqn:Hhi; [|exact I].
  destruct (flt fm32768 x) eqn:Hlo; [|exact I].
  destruct x as [|[]| |]; try done.
Qed.

(** *** [double] arithmetic on integers

    The sum of squares, its quotient by the frame count and the root are
    followed through the rounding of [SpecFloat], for the sizes that occur:
    integers below [2^53], whose sums are exact, and quotients and roots
    of 53-bit mantissas, which round with a shift of at most one bit. *)

Section DoubleIntegers.
Local Open Scope Z_scope.

Lemma digits2_pos_size p : digits2_pos p = Pos.size p.
Proof. induction p; simpl; congruence. Qed.

Lemma digits2_pos_bounds p :
  2 ^ (Zpos (digits2_pos p) - 1) <= Zpos p < 2 ^ Zpos (digits2_pos p).
Proof.
  rewrite digits2_pos_size. split.
  - pose proof (Pos.size_le p) as H.
    assert (H' : (Zpos (2 ^ Pos.size p) <= Zpos p~0)) by exact H.
    rewrite Pos2Z.inj_pow in H'.
    replace (Zpos (Pos.size p)) with (Zpos (Pos.size p) - 1 + 1) in H' by lia.
    rewrite Z.pow_add_r in H' by lia. lia.
  - pose proof (Pos.size_gt p) as H.
    assert (H' : (Zpos p < Zpos (2 ^ Pos.size p))) by exact H.
    by rewrite Pos2Z.inj_pow in H'.
Qed.

Lemma digits2_pos_unique p d :
  2 ^ (d - 1) <= Zpos p < 2 ^ d -> Zpos (digits2_pos p) = d.
Proof.
  intros [Hlo Hhi]. destruct (digits2_pos_bounds p) as [Hlo' Hhi'].
  set (D := Zpos (digits2_pos p)) in *.
  assert (0 < D) by (unfold D; lia).
  assert (0 < d).
  { destruct (Z.lt_trichotomy d 0) as [?|[->|?]]; [|simpl in *; lia|lia].
    rewrite Z.pow_neg_r in Hhi by lia. lia. }
  destruct (Z.lt_trichotomy D d) as [Hlt|[Heq|Hgt]]; [|done|].
  - assert (2 ^ D <= 2 ^ (d - 1)) by (apply Z.pow_le_mono_r; lia). lia.
  - assert (2 ^ d <= 2 ^ (D - 1)) by (apply Z.pow_le_mono_r; lia). lia.
Qed.

Lemma loc_of_shr_record_of_loc m l :
  loc_of_shr_record (shr_record_of_loc m l) = l.
Proof. by destruct l as [|[]]. Qed.

Lemma shr_m_shr_record_of_loc m l : shr_m (shr_record_of_loc m l) = m.
Proof. by destruct l as [|[]]. Qed.

Lemma Zdigits2_53 m : P52 <= m < P53 -> Zdigits2 m = 53.
Proof.
  intros H. destruct m as [|p|p]; unfold P52 in *; try lia.
  simpl. apply digits2_pos_unique. unfold P53 in *. simpl. lia.
Qed.

Lemma Zdigits2_54 m : P53 <= m < 2 * P53 -> Zdigits2 m = 54.
Proof.
  intros H. destruct m as [|p|p]; unfold P53 in *; try lia.
  simpl. apply digits2_pos_unique. simpl. lia.
Qed.

Lemma fexp64 x : -1021 <= x -> fexp 53 1024 x = x - 53.
Proof. intros. unfold fexp, emin. lia. Qed.

(** Rounding a mantissa that already has 53 bits: no shift, at most a carry. *)
Lemma round_exact_53 m e :
  P52 <= m <= P53 -> -1074 <= e -> e + 1 <= 971 ->
  (let '(mrs, e') := shr_fexp 53 1024 m e loc_Exact in
   match shr_m mrs with
   | Z0 => S754_zero false
   | Zpos m => if e' <=? 1024 - 53 then S754_finite false m e'
               else S754_infinity false
   | _ => S754_nan
   end)
  = if m =? P53 then S754_finite false (Z.to_pos P52) (e + 1)
    else S754_finite false (Z.to_pos m) e.
Proof.
  intros Hm He He'. unfold shr_fexp.
  destruct (Z.eqb_spec m P53) as [->|Hne].
  - rewrite (Zdigits2_54 P53) by (unfold P53; lia). rewrite fexp64 by lia.
    replace (54 + e - 53 - e) with 1 by lia.
    unfold P53, P52. cbn [shr shr_record_of_loc iter_pos shr_1 shr_m orb Z.to_pos].
    replace (e + 1 <=? 1024 - 53) with true by lia. done.
  - rewrite Zdigits2_53 by lia. rewrite fexp64 by lia.
    replace (53 + e - 53 - e) with 0 by lia.
    cbn [shr shr_record_of_loc shr_m].
    destruct m as [|p|p]; unfold P52 in *; try lia.
    replace (e <=? 1024 - 53) with true by lia. done.
Qed.

Lemma binary_round_aux_53 q e l :
  P52 <= q < P53 -> -1074 <= e -> e + 1 <= 971 ->
  binary_round_aux 53 1024 false q e l
  = let m1 := round_nearest_even q l in
    if m1 =? P53 then S754_finite false (Z.to_pos P52) (e + 1)
    else S754_finite false (Z.to_pos m1) e.
Proof.
  intros Hq He He'. unfold binary_round_aux.
  unfold shr_fexp at 1. rewrite Zdigits2_53 by done. rewrite fexp64 by lia.
  replace (53 + e - 53 - e) with 0 by lia. cbn [shr].
  rewrite loc_of_shr_record_of_loc, shr_m_shr_record_of_loc.
  apply round_exact_53; [|done|done].
  destruct l as [|[]]; simpl; try lia; destruct (Z.even q); lia.
Qed.

Lemma Zpos_xO_div2 p : Zpos p~0 / 2 = Zpos p.
Proof. rewrite (Pos2Z.inj_xO p), Z.mul_comm. apply Z.div_mul. lia. Qed.

Lemma Zpos_xI_div2 p : Zpos p~1 / 2 = Zpos p.
Proof.
  rewrite (Pos2Z.inj_xI p), Z.mul_comm, Z.div_add_l by lia.
  change (1 / 2) with 0. lia.
Qed.

Lemma shr_1_pos p l :
  shr_1 (shr_record_of_loc (Zpos p) l)
  = {| shr_m := Zpos p / 2; shr_r := Z.odd (Zpos p);
       shr_s := match l with loc_Exact => false | _ => true end |}.
Proof.
  destruct p as [p|p|].
  - rewrite Zpos_xI_div2. by destruct l as [|[]].
  - rewrite Zpos_xO_div2. by destruct l as [|[]].
  - by destruct l as [|[]].
Qed.

Lemma binary_round_aux_54 q e l :
  P53 <= q < 2 * P53 -> -1074 <= e -> e + 2 <= 971 ->
  binary_round_aux 53 1024 false q e l
  = let mrs := {| shr_m := q / 2; shr_r := Z.odd q;
                  shr_s := match l with loc_Exact => false | _ => true end |} in
    let m1 := round_nearest_even (shr_m mrs) (loc_of_shr_record mrs) in
    if m1 =? P53 then S754_finite false (Z.to_pos P52) (e + 2)
    else S754_finite false (Z.to_pos m1) (e + 1).
Proof.
  intros Hq He He'. unfold binary_round_aux.
  unfold shr_fexp at 1. rewrite Zdigits2_54 by done. rewrite fexp64 by lia.
  replace (54 + e - 53 - e) with 1 by lia. cbn [shr iter_pos].
  destruct q as [|p|p]; unfold P53 in Hq; try lia.
  rewrite shr_1_pos. cbv zeta.
  set (mrs := {| shr_m := Z.pos p / 2 |}).
  replace (e + 2) with (e + 1 + 1) by lia.
  apply round_exact_53; [|lia|lia].
  assert (P52 <= Z.pos p / 2 < P53).
  { unfold P52, P53. split.
    - apply Z.div_le_lower_bound; lia.
    - apply Z.div_lt_upper_bound; lia. }
  unfold mrs. cbn [shr_m loc_of_shr_record].
  destruct (Z.odd (Z.pos p)), l as [|[]]; cbn [round_nearest_even];
    try destruct (Z.even _); lia.
Qed.

(** *** Shifts that lose nothing *)

Lemma shr_1_double m : 0 <= m -> shr_1 (exact_record (2 * m)) = exact_record m.
Proof. intros Hm. destruct m as [|p|p]; [done|done|lia]. Qed.

Lemma iter_shr_1_exact p : forall m,
  0 <= m -> SpecFloat.iter_pos shr_1 p (exact_record (m * 2 ^ Zpos p)) = exact_record m.
Proof.
  induction p as [p IH|p IH|]; intros m Hm; cbn [SpecFloat.iter_pos].
  - rewrite (Pos2Z.inj_xI p).
    replace (m * 2 ^ (2 * Z.pos p + 1))
      with (2 * (m * 2 ^ Z.pos p * 2 ^ Z.pos p))
      by (replace (2 * Z.pos p + 1) with (Z.pos p + Z.pos p + 1) by lia;
          rewrite !Z.pow_add_r, Z.pow_1_r by lia; ring).
    rewrite shr_1_double by (apply Z.mul_nonneg_nonneg; [apply Z.mul_nonneg_nonneg|]; lia).
    rewrite IH by (apply Z.mul_nonneg_nonneg; lia). by apply IH.
  - rewrite (Pos2Z.inj_xO p).
    replace (m * 2 ^ (2 * Z.pos p)) with (m * 2 ^ Z.pos p * 2 ^ Z.pos p)
      by (replace (2 * Z.pos p) with (Z.pos p + Z.pos p) by lia;
          rewrite Z.pow_add_r by lia; ring).
    rewrite IH by (apply Z.mul_nonneg_nonneg; lia). by apply IH.
  - rewrite Z.pow_1_r, Z.mul_comm. by apply shr_1_double.
Qed.

Lemma P52_pow : P52 = 2 ^ 52. Proof. reflexivity. Qed.
Lemma P53_pow : P53 = 2 ^ 53. Proof. reflexivity. Qed.

Lemma Zpos_iter_xO p s : Zpos (Pos.iter xO p s) = Zpos p * 2 ^ Zpos s.
Proof.
  rewrite (Pos.iter_swap_gen _ _ Zpos xO (Z.mul 2)) by done.
  change (Pos.iter (Z.mul 2) (Zpos p) s) with (Z.shiftl (Zpos p) (Zpos s)).
  apply Z.shiftl_mul_pow2. lia.
Qed.

Lemma Zdigits2_scaled m j :
  P52 <= m < P53 -> 0 <= j -> Zdigits2 (m * 2 ^ j) = 53 + j.
Proof.
  intros Hm Hj. assert (0 < 2 ^ j) by (apply Z.pow_pos_nonneg; lia).
  destruct (m * 2 ^ j) as [|p|p] eqn:Hp; unfold P52 in Hm; try nia.
  cbn [Zdigits2]. apply digits2_pos_unique. rewrite <- Hp.
  replace (53 + j - 1) with (52 + j) by lia.
  rewrite !Z.pow_add_r by lia. rewrite <- P52_pow, <- P53_pow.
  unfold P52, P53 in *. nia.
Qed.

(** Rounding a value that fits 53 bits exactly returns it. *)
Lemma binary_round_aux_exact m j e :
  P52 <= m < P53 -> 0 <= j -> -1074 <= e -> e + j + 1 <= 971 ->
  binary_round_aux 53 1024 false (m * 2 ^ j) e loc_Exact
  = S754_finite false (Z.to_pos m) (e + j).
Proof.
  intros Hm Hj He He'. unfold binary_round_aux.
  unfold shr_fexp at 1. rewrite Zdigits2_scaled by done. rewrite fexp64 by lia.
  replace (53 + j + e - 53 - e) with j by lia.
  assert (Hshr : shr (shr_record_of_loc (m * 2 ^ j) loc_Exact) e j
                 = (exact_record m, e + j)).
  { destruct j as [|p|p]; [|  |lia].
    - cbn [shr]. rewrite Z.pow_0_r, Z.mul_1_r, Z.add_0_r. done.
    - cbn [shr shr_record_of_loc]. f_equal.
      apply iter_shr_1_exact. unfold P52 in Hm. lia. }
  rewrite Hshr. cbn [exact_record shr_m loc_of_shr_record round_nearest_even].
  rewrite round_exact_53 by (unfold P53 in *; lia).
  destruct (Z.eqb_spec m P53); [lia|done].
Qed.

Lemma Zdigits2_bounds k :
  0 < k -> 0 < Zdigits2 k /\ 2 ^ (Zdigits2 k - 1) <= k < 2 ^ Zdigits2 k.
Proof.
  intros Hk. destruct k as [|p|p]; try lia. cbn [Zdigits2].
  split; [lia|apply digits2_pos_bounds].
Qed.

Lemma Zdigits2_le_53 k : 0 < k < P53 -> 0 < Zdigits2 k <= 53.
Proof.
  intros [Hk Hlt]. destruct (Zdigits2_bounds k Hk) as (Hd & Hlo & _).
  split; [done|].
  destruct (Z.le_gt_cases (Zdigits2 k) 53) as [|Hgt]; [done|].
  assert (2 ^ 53 <= 2 ^ (Zdigits2 k - 1)) by (apply Z.pow_le_mono_r; lia).
  rewrite <- P53_pow in *. lia.
Qed.

Lemma norm_man_bounds k : 0 < k < P53 -> P52 <= norm_man k < P53.
Proof.
  intros Hk. destruct (Zdigits2_le_53 k Hk) as [Hd Hd'].
  destruct (Zdigits2_bounds k ltac:(lia)) as (_ & Hlo & Hhi).
  unfold norm_man. set (d := Zdigits2 k) in *.
  assert (Hp : 0 < 2 ^ (53 - d)) by (apply Z.pow_pos_nonneg; lia).
  assert (H52 : P52 = 2 ^ (d - 1) * 2 ^ (53 - d)).
  { rewrite <- Z.pow_add_r by lia. rewrite P52_pow. f_equal. lia. }
  assert (H53 : P53 = 2 ^ d * 2 ^ (53 - d)).
  { rewrite <- Z.pow_add_r by lia. rewrite P53_pow. f_equal. lia. }
  rewrite H52, H53. split.
  - apply Z.mul_le_mono_nonneg_r; lia.
  - apply Z.mul_lt_mono_pos_r; lia.
Qed.

Lemma Zdigits2_shift k j : 0 < k -> 0 <= j -> Zdigits2 (k * 2 ^ j) = Zdigits2 k + j.
Proof.
  intros Hk Hj. destruct (Zdigits2_bounds k Hk) as (Hd & Hlo & Hhi).
  assert (Hp : 0 < 2 ^ j) by (apply Z.pow_pos_nonneg; lia).
  destruct (k * 2 ^ j) as [|p|p] eqn:Hp'; try nia.
  cbn [Zdigits2]. apply digits2_pos_unique. rewrite <- Hp'.
  replace (Zdigits2 k + j - 1) with (Zdigits2 k - 1 + j) by lia.
  rewrite !Z.pow_add_r by lia. split.
  - apply Z.mul_le_mono_nonneg_r; lia.
  - apply Z.mul_lt_mono_pos_r; lia.
Qed.

(** [binary_round] of an integer below 2^53, given with [j] extra zero bits
    at exponent [-j], is its normal form. *)
Lemma binary_round_integer k j :
  0 < k < P53 -> 0 <= j <= 1074 ->
  binary_round 53 1024 false (Z.to_pos (k * 2 ^ j)) (- j)
  = S754_finite false (Z.to_pos (norm_man k)) (norm_exp k).
Proof.
  intros Hk Hj. destruct (Zdigits2_le_53 k Hk) as [Hd Hd'].
  pose proof (norm_man_bounds k Hk) as Hnm.
  assert (Hp : 0 < 2 ^ j) by (apply Z.pow_pos_nonneg; lia).
  assert (Hkj : 0 < k * 2 ^ j) by nia.
  unfold binary_round.
  assert (Hdig : Zpos (digits2_pos (Z.to_pos (k * 2 ^ j))) = Zdigits2 k + j).
  { rewrite <- Zdigits2_shift by lia.
    destruct (k * 2 ^ j) as [|p|p]; [lia| |lia]. done. }
  rewrite Hdig. rewrite fexp64 by lia. unfold shl_align.
  replace (Zdigits2 k + j + - j - 53 - - j) with (Zdigits2 k - 53 + j) by lia.
  unfold norm_exp.
  destruct (Zdigits2 k - 53 + j) as [|s|s] eqn:Hs.
  - rewrite Z2Pos.id by lia.
    replace (k * 2 ^ j) with (norm_man k * 2 ^ 0).
    + rewrite binary_round_aux_exact by lia. f_equal. lia.
    + unfold norm_man. rewrite Z.pow_0_r, Z.mul_1_r. do 2 f_equal. lia.
  - rewrite Z2Pos.id by lia.
    replace (k * 2 ^ j) with (norm_man k * 2 ^ Zpos s).
    + rewrite binary_round_aux_exact by lia. f_equal. lia.
    + unfold norm_man. rewrite <- Z.mul_assoc, <- Z.pow_add_r by lia.
      do 2 f_equal. lia.
  - rewrite Zpos_iter_xO, Z2Pos.id by lia.
    replace (k * 2 ^ j * 2 ^ Zpos s) with (norm_man k * 2 ^ 0).
    + replace (Zdigits2 k + j + - j - 53) with (Zdigits2 k - 53) by lia.
      rewrite binary_round_aux_exact by lia. f_equal. lia.
    + unfold norm_man. rewrite Z.pow_0_r, Z.mul_1_r.
      rewrite <- Z.mul_assoc, <- Z.pow_add_r by lia. do 2 f_equal. lia.
Qed.

Lemma binary_normalize_int k :
  0 <= k < P53 -> binary_normalize 53 1024 k 0 false = double_int k.
Proof.
  intros Hk. unfold double_int. destruct (Z.eqb_spec k 0) as [->|Hne]; [done|].
  destruct k as [|p|p]; [done| |lia]. cbn [binary_normalize].
  rewrite <- (binary_round_integer (Zpos p) 0) by lia.
  rewrite Z.pow_0_r, Z.mul_1_r. done.
Qed.

Lemma shl_align_value m e ez :
  ez <= e -> Zpos (fst (shl_align m e ez)) = Zpos m * 2 ^ (e - ez).
Proof.
  intros He. unfold shl_align.
  destruct (ez - e) as [|d|d] eqn:Hd; cbn [fst].
  - replace (e - ez) with 0 by lia. lia.
  - lia.
  - rewrite Zpos_iter_xO. do 2 f_equal. lia.
Qed.

Lemma norm_man_exp k : 0 < k < P53 -> norm_man k = k * 2 ^ (- norm_exp k).
Proof. intros. unfold norm_man, norm_exp. do 2 f_equal. lia. Qed.

Lemma binary_normalize_pos m e :
  0 < m -> binary_normalize 53 1024 m e false
           = binary_round 53 1024 false (Z.to_pos m) e.
Proof. intros Hm. destruct m as [|p|p]; [lia|done|lia]. Qed.

(** Addition of two integers held in [double] is exact while the sum stays
    below 2^53. *)
Lemma SFadd_int a b :
  0 <= a -> 0 <= b -> a + b < P53 ->
  SFadd 53 1024 (double_int a) (double_int b) = double_int (a + b).
Proof.
  intros Ha Hb Hab. unfold double_int at 1 2.
  destruct (Z.eqb_spec a 0) as [->|Hane]; destruct (Z.eqb_spec b 0) as [->|Hbne].
  - done.
  - cbn [SFadd]. rewrite Z.add_0_l. unfold double_int.
    destruct (Z.eqb_spec b 0); [lia|done].
  - cbn [SFadd]. rewrite Z.add_0_r. unfold double_int.
    destruct (Z.eqb_spec a 0); [lia|done].
  - cbn [SFadd cond_Zopp].
    destruct (Zdigits2_le_53 a ltac:(lia)) as [Hda Hda'].
    destruct (Zdigits2_le_53 b ltac:(lia)) as [Hdb Hdb'].
    pose proof (norm_man_bounds a ltac:(lia)) as Hna.
    pose proof (norm_man_bounds b ltac:(lia)) as Hnb.
    set (ez := Z.min (norm_exp a) (norm_exp b)).
    assert (Hez : -52 <= ez <= 0) by (unfold ez, norm_exp; lia).
    rewrite !shl_align_value by (unfold ez; lia).
    rewrite !Z2Pos.id by (unfold P52 in *; lia).
    assert (Hsa : norm_man a * 2 ^ (norm_exp a - ez) = a * 2 ^ (- ez)).
    { rewrite (norm_man_exp a) by lia.
      rewrite <- Z.mul_assoc, <- Z.pow_add_r by (unfold norm_exp in *; lia).
      do 2 f_equal. lia. }
    assert (Hsb : norm_man b * 2 ^ (norm_exp b - ez) = b * 2 ^ (- ez)).
    { rewrite (norm_man_exp b) by lia.
      rewrite <- Z.mul_assoc, <- Z.pow_add_r by (unfold norm_exp in *; lia).
      do 2 f_equal. lia. }
    rewrite Hsa, Hsb, <- Z.mul_add_distr_r.
    assert (Hp : 0 < 2 ^ (- ez)) by (apply Z.pow_pos_nonneg; lia).
    rewrite binary_normalize_pos by nia.
    replace ez with (- - ez) at 2 by lia.
    rewrite binary_round_integer by lia.
    unfold double_int. destruct (Z.eqb_spec (a + b) 0); [lia|done].
Qed.

(** *** Division *)

Lemma new_location_ok d r : 0 <= r < d -> loc_ok (new_location d r) r d.
Proof.
  intros Hr. unfold new_location, new_location_even, new_location_odd.
  destruct (Z.even d) eqn:Hev.
  - destruct (Z.eqb_spec r 0) as [->|Hne]; [done|].
    destruct (Z.compare_spec (2 * r) d); cbn [loc_ok]; lia.
  - destruct (Z.eqb_spec r 0) as [->|Hne]; [done|].
    assert (Hodd : Z.odd d = true) by (by rewrite <- Z.negb_even, Hev).
    apply Z.odd_spec in Hodd as [h Hh].
    destruct (Z.compare_spec (2 * r + 1) d); cbn [loc_ok]; lia.
Qed.

Lemma SFdiv_core_53 mS eS mn en :
  P52 <= mS < P53 -> P52 <= mn < P53 -> -1021 <= eS - en ->
  SFdiv_core_binary 53 1024 mS eS mn en
  = (mS * P53 / mn, eS - en - 53, new_location mn (mS * P53 mod mn)).
Proof.
  intros HS Hn He. unfold SFdiv_core_binary.
  rewrite !Zdigits2_53 by done. rewrite fexp64 by lia.
  replace (Z.min (53 + eS - (53 + en) - 53) (eS - en)) with (eS - en - 53) by lia.
  replace (eS - en - (eS - en - 53)) with 53 by lia.
  rewrite Z.shiftl_mul_pow2 by lia. rewrite <- P53_pow.
  unfold Z.div, Z.modulo. by destruct (Z.div_eucl _ _).
Qed.

(** The quotient of two 53-bit mantissas rounds to a 53-bit mantissa within
    half a unit in the last place. *)
Lemma SFdiv_53 mS eS mn en :
  P52 <= Zpos mS < P53 -> P52 <= Zpos mn < P53 ->
  -1021 <= eS - en -> eS - en <= 1021 ->
  exists mf k c,
    SFdiv 53 1024 (S754_finite false mS eS) (S754_finite false mn en)
    = S754_finite false (Z.to_pos mf) (eS - en - 53 + k) /\
    P52 <= mf < P53 /\
    ((k = 0 /\ c = 1) \/ (k = 1 /\ c = 2) \/ (k = 2 /\ c = 4)) /\
    - (c * Zpos mn) <= 2 * (mf * c * Zpos mn - Zpos mS * P53) <= c * Zpos mn.
Proof.
  intros HS Hn He He'. cbn [SFdiv xorb].
  rewrite SFdiv_core_53 by done.
  set (Q := Zpos mS * P53). set (d := Zpos mn) in *.
  assert (Hd : 0 < d) by (unfold P52 in *; lia).
  pose proof (Z.div_mod Q d ltac:(lia)) as Hdm.
  pose proof (Z.mod_pos_bound Q d Hd) as Hr.
  pose proof (new_location_ok d (Q mod d) Hr) as Hl.
  set (q := Q / d) in *. set (r := Q mod d) in *.
  set (l := new_location d r) in *.
  assert (Hq : P52 <= q < 2 * P53).
  { unfold Q, P52, P53 in *. nia. }
  clearbody Q q r l. unfold P52, P53 in *.
  destruct (Z_lt_le_dec q 9007199254740992) as [Hlt|Hge].
  - rewrite binary_round_aux_53 by (unfold P52, P53; lia). cbv zeta.
    assert (Hm1 : (round_nearest_even q l = q /\ 2 * r <= d)
                  \/ (round_nearest_even q l = q + 1 /\ d <= 2 * r)).
    { destruct l as [|[]]; cbn [round_nearest_even loc_ok] in *;
        try destruct (Z.even q); lia. }
    fold P53 P52.
    destruct (Z.eqb_spec (round_nearest_even q l) P53) as [Heq|Hne];
      unfold P52, P53 in *.
    + exists 4503599627370496, 1, 2. split; [done|].
      split; [lia|]. split; [lia|].
      destruct Hm1 as [[Hm1 ?]|[Hm1 ?]]; rewrite Hm1 in Heq; subst Q; nia.
    + exists (round_nearest_even q l), 0, 1. split; [do 2 f_equal; lia|].
      split; [lia|]. split; [lia|].
      destruct Hm1 as [[Hm1 ?]|[Hm1 ?]]; rewrite Hm1 in *; subst Q; nia.
  - rewrite binary_round_aux_54 by (unfold P53; lia). cbv zeta. cbn [shr_m].
    set (h := q / 2).
    assert (Hh : q = 2 * h + (if Z.odd q then 1 else 0)).
    { unfold h. rewrite (Z.div_mod q 2) at 1 by lia.
      rewrite Zmod_odd. done. }
    set (l' := loc_of_shr_record _).
    assert (Hm1 : (round_nearest_even h l' = h /\
                   (if Z.odd q then 1 else 0) * d + r <= d)
                  \/ (round_nearest_even h l' = h + 1 /\
                      d <= (if Z.odd q then 1 else 0) * d + r)).
    { unfold l'. destruct (Z.odd q), l as [|[]];
        cbn [loc_of_shr_record round_nearest_even loc_ok] in *;
        try destruct (Z.even h); lia. }
    assert (Hhb : 4503599627370496 <= h < 9007199254740992)
      by (destruct (Z.odd q); lia).
    clearbody h l'.
    destruct (Z.eqb_spec (round_nearest_even h l') P53) as [Heq|Hne];
      unfold P52, P53 in *.
    + exists 4503599627370496, 2, 4. split; [done|].
      split; [lia|]. split; [lia|].
      destruct Hm1 as [[Hm1 ?]|[Hm1 ?]]; rewrite Hm1 in Heq;
        destruct (Z.odd q); subst Q; nia.
    + exists (round_nearest_even h l'), 1, 2. split; [done|].
      split; [lia|]. split; [lia|].
      destruct Hm1 as [[Hm1 ?]|[Hm1 ?]]; rewrite Hm1 in *;
        destruct (Z.odd q); subst Q; nia.
Qed.

Lemma SFltb_finite_pos m1 e1 m2 e2 :
  SFltb (S754_finite false m1 e1) (S754_finite false m2 e2) = true
  <-> e1 < e2 \/ (e1 = e2 /\ Zpos m1 < Zpos m2).
Proof.
  unfold SFltb, SFcompare.
  destruct (Z.compare_spec e1 e2) as [->|Hlt|Hgt].
  - change (Pos.compare_cont Eq m1 m2) with (Pos.compare m1 m2).
    destruct (Pos.compare_spec m1 m2) as [->|Hlt|Hgt]; split; try done; lia.
  - split; [lia|done].
  - split; [done|lia].
Qed.

Lemma scale_bound K x y z :
  0 < K -> - (K * z) <= 2 * (K * x - K * y) <= K * z -> - z <= 2 * (x - y) <= z.
Proof. intros HK H. nia. Qed.

(** The quotient of two integers held in [double] compares with 250000 as
    the exact quotient does. *)
Lemma SFdiv_int_threshold S n :
  0 < S < P53 -> 0 < n < 2 ^ 36 ->
  exists mf ef,
    SFdiv 53 1024 (double_int S) (double_int n) = S754_finite false mf ef /\
    P52 <= Zpos mf < P53 /\ -126 <= ef <= 53 /\
    (SFltb T250000 (S754_finite false mf ef) = true <-> 250000 * n < S).
Proof.
  intros HS Hn.
  assert (Hn' : 0 < n < P53) by (unfold P53; lia).
  unfold double_int.
  destruct (Z.eqb_spec S 0); [lia|]. destruct (Z.eqb_spec n 0); [lia|].
  pose proof (norm_man_bounds S HS) as HmS.
  pose proof (norm_man_bounds n Hn') as Hmn.
  destruct (Zdigits2_le_53 S HS) as [HdS HdS'].
  destruct (Zdigits2_le_53 n Hn') as [Hdn Hdn'].
  assert (HpS : Zpos (Z.to_pos (norm_man S)) = norm_man S)
    by (apply Z2Pos.id; unfold P52 in *; lia).
  assert (Hpn : Zpos (Z.to_pos (norm_man n)) = norm_man n)
    by (apply Z2Pos.id; unfold P52 in *; lia).
  destruct (SFdiv_53 (Z.to_pos (norm_man S)) (norm_exp S)
                     (Z.to_pos (norm_man n)) (norm_exp n)
                     ltac:(by rewrite HpS) ltac:(by rewrite Hpn)
                     ltac:(unfold norm_exp; lia) ltac:(unfold norm_exp; lia))
    as (mf & k & c & Hdiv & Hmf & Hk & Hb).
  rewrite HpS, Hpn in Hb.
  exists (Z.to_pos mf), (norm_exp S - norm_exp n - 53 + k).
  split; [done|]. rewrite Z2Pos.id by (unfold P52 in *; lia).
  split; [done|]. split; [unfold norm_exp; lia|].
  unfold T250000. rewrite SFltb_finite_pos.
  rewrite Z2Pos.id by (unfold P52 in *; lia).
  rewrite (norm_man_exp S), (norm_man_exp n) in Hb by done.
  set (eS := norm_exp S) in *. set (en := norm_exp n) in *.
  assert (HeS : -52 <= eS <= 0) by (unfold eS, norm_exp; lia).
  assert (Hen : -52 <= en <= 0) by (unfold en, norm_exp; lia).
  set (A := 2 ^ (- eS)) in *. set (B := 2 ^ (- en)) in *.
  assert (HA : 0 < A) by (apply Z.pow_pos_nonneg; lia).
  assert (HB : 0 < B) by (apply Z.pow_pos_nonneg; lia).
  assert (Hc : c = 2 ^ k) by (destruct Hk as [[-> ->]|[[-> ->]|[-> ->]]]; done).
  assert (Hk' : 0 <= k <= 2) by lia.
  set (K := A * 262144).
  assert (HK : 0 < K) by (unfold K; lia).
  assert (HKpow : K = 2 ^ (18 - eS)).
  { unfold K, A. change 262144 with (2 ^ 18).
    rewrite <- Z.pow_add_r by lia. f_equal; lia. }
  assert (HcB : c * B = 2 ^ (k - en)).
  { rewrite Hc. unfold B. rewrite <- Z.pow_add_r by lia. f_equal; lia. }
  assert (HQ : S * A * P53 = K * (S * 34359738368)).
  { unfold K, P53. ring. }
  clearbody A B eS en. clear Hk.
  destruct (Z_le_gt_dec 0 (eS - en - 18 + k)) as [HE|HE].
  - (* the result is at least at the exponent of the threshold *)
    set (G := 2 ^ (eS - en - 18 + k)).
    assert (HG : 0 < G) by (apply Z.pow_pos_nonneg; lia).
    assert (HcBG : c * B = K * G).
    { rewrite HcB, HKpow. unfold G. rewrite <- Z.pow_add_r by lia.
      f_equal; lia. }
    assert (Hb' : - (G * n) <= 2 * (mf * G * n - S * 34359738368) <= G * n).
    { apply (scale_bound K _ _ _ HK).
      assert (H1 : c * (n * B) = K * (G * n))
        by (replace (c * (n * B)) with (c * B * n) by ring; rewrite HcBG; ring).
      assert (H2 : mf * c * (n * B) = K * (mf * G * n))
        by (replace (mf * c * (n * B)) with (mf * n * (c * B)) by ring;
            rewrite HcBG; ring).
      rewrite <- H1, <- H2.
      rewrite <- HQ. exact Hb. }
    destruct (Z.eq_dec (eS - en - 18 + k) 0) as [HE0|HE0].
    + assert (HG1 : G = 1) by (unfold G; rewrite HE0; done).
      rewrite HG1 in Hb'. clearbody G. unfold P52, P53 in *.
      split.
      * intros [Hlt|[_ Hlt]]; [lia|]. nia.
      * intros Hgt. right. split; [lia|]. nia.
    + assert (HG2 : 2 <= G).
      { unfold G. change 2 with (2 ^ 1) at 1. apply Z.pow_le_mono_r; lia. }
      clearbody G. unfold P52, P53 in *.
      split; [intros _|intros _; left; lia]. nia.
  - (* the result lies below the exponent of the threshold *)
    set (G := 2 ^ (- (eS - en - 18 + k))).
    assert (HG2 : 2 <= G).
    { unfold G. change 2 with (2 ^ 1) at 1. apply Z.pow_le_mono_r; lia. }
    assert (HcBG : c * B * G = K).
    { rewrite HcB, HKpow. unfold G. rewrite <- Z.pow_add_r by lia.
      f_equal; lia. }
    assert (Hb' : - n <= 2 * (mf * n - S * 34359738368 * G) <= n).
    { apply (scale_bound K _ _ _ HK).
      assert (H1 : K * n = G * (c * (n * B)))
        by (rewrite <- HcBG; ring).
      assert (H2 : K * (mf * n) = G * (mf * c * (n * B)))
        by (rewrite <- HcBG; ring).
      assert (H3 : K * (S * 34359738368 * G) = G * (S * A * P53))
        by (rewrite HQ; ring).
      rewrite H1, H2, H3. clearbody G. nia. }
    clearbody G. unfold P52, P53 in *.
    split; [intros [Hlt|[Heq _]]; lia|]. intros Hgt. exfalso.
    assert (S * 34359738368 * 2 <= S * 34359738368 * G)
      by (apply Z.mul_le_mono_nonneg_l; lia).
    assert (mf * n <= 9007199254740992 * n)
      by (apply Z.mul_le_mono_nonneg_r; lia).
    lia.
Qed.

(** *** Square root *)

Lemma SFsqrt_53 m e :
  P52 <= Zpos m < P53 -> -1000 <= e <= 900 ->
  exists q r l,
    SFsqrt 53 1024 (S754_finite false m e)
    = binary_round_aux 53 1024 false q (e / 2 - 26) l /\
    Zpos m * 2 ^ (52 + e mod 2) = q * q + r /\ 0 <= r <= 2 * q /\ 0 <= q /\
    l = (if r =? 0 then loc_Exact
         else loc_Inexact (if r <=? q then Lt else Gt)).
Proof.
  intros Hm He. cbn [SFsqrt]. unfold SFsqrt_core_binary.
  rewrite Zdigits2_53 by done. rewrite !Z.div2_div.
  replace ((53 + e + 1) / 2) with (27 + e / 2)
    by (replace (53 + e + 1) with (27 * 2 + e) by lia;
        rewrite Z.div_add_l by lia; done).
  pose proof (Z.div_mod e 2 ltac:(lia)) as Hdm.
  pose proof (Z.mod_pos_bound e 2 ltac:(lia)) as Hmod.
  rewrite fexp64 by lia.
  replace (Z.min (27 + e / 2 - 53) (e / 2)) with (e / 2 - 26) by lia.
  replace (e - 2 * (e / 2 - 26)) with (52 + e mod 2) by lia.
  assert (Hs : match 52 + e mod 2 with
               | Zpos _ => Z.shiftl (Zpos m) (52 + e mod 2)
               | Z0 => Zpos m
               | Zneg _ => 0
               end = Zpos m * 2 ^ (52 + e mod 2)).
  { rewrite <- Z.shiftl_mul_pow2 by lia.
    destruct (52 + e mod 2) eqn:Hs; [lia|done|lia]. }
  rewrite Hs.
  pose proof (Z.sqrtrem_spec (Zpos m * 2 ^ (52 + e mod 2))) as Hsq.
  assert (Hp : 0 < 2 ^ (52 + e mod 2)) by (apply Z.pow_pos_nonneg; lia).
  destruct (Z.sqrtrem _) as [q r].
  destruct Hsq as [Hsq Hr]; [nia|].
  exists q, r, (if r =? 0 then loc_Exact
                else loc_Inexact (if r <=? q then Lt else Gt)).
  split; [done|]. split; [done|]. split; [done|]. split; [|done]. lia.
Qed.

(** The root of a positive [double] exceeds 500 exactly when the [double]
    exceeds 250000. *)
Lemma SFsqrt_threshold m e :
  P52 <= Zpos m < P53 -> -126 <= e <= 53 ->
  SFltb T500 (SFsqrt 53 1024 (S754_finite false m e)) = true
  <-> SFltb T250000 (S754_finite false m e) = true.
Proof.
  intros Hm He.
  destruct (SFsqrt_53 m e Hm ltac:(lia)) as (q & r & l & -> & Hsq & Hr & Hq0 & Hl).
  pose proof (Z.div_mod e 2 ltac:(lia)) as Hdm.
  pose proof (Z.mod_pos_bound e 2 ltac:(lia)) as Hmod.
  set (h := e / 2) in *. set (o := e mod 2) in *.
  assert (Hpow : 2 ^ (52 + o) = P52 * (1 + o)).
  { assert (Ho : o = 0 \/ o = 1) by lia. destruct Ho as [-> | ->]; done. }
  rewrite Hpow in Hsq. clearbody h o.
  unfold P52, P53 in *.
  assert (Hq : 4503599627370496 <= q < 9007199254740992) by nia.
  rewrite binary_round_aux_53 by (unfold P52, P53; lia). cbv zeta.
  assert (Hm1 : (round_nearest_even q l = q /\ r <= q)
                \/ (round_nearest_even q l = q + 1 /\ q < r)).
  { rewrite Hl. destruct (Z.eqb_spec r 0); [left; cbn; lia|].
    destruct (Z.leb_spec r q); cbn [round_nearest_even]; [left|right]; lia. }
  unfold T500, T250000.
  destruct (Z.eqb_spec (round_nearest_even q l) P53) as [Hc|Hc];
    rewrite !SFltb_finite_pos; unfold P52, P53 in *;
    rewrite ?Z2Pos.id by lia; cbn [Z.to_pos].
  - (* the rounding carried into the next binade *)
    destruct Hm1 as [[Hm1 Hrq]|[Hm1 Hrq]]; rewrite Hm1 in *; [lia|].
    assert (q = 9007199254740991) by lia. subst q.
    split.
    + intros [Hlt|[Heq Hlt]]; [|lia].
      destruct (Z_le_gt_dec e (-35)) as [Hle|Hgt]; [|left; lia].
      assert (o = 1) by lia. subst o. exfalso. lia.
    + intros [Hlt|[Heq Hlt]]; [left; lia|]. left. lia.
  - destruct (Z_le_gt_dec (-34) e) as [H34|H34]; [split; intros _; left; lia|].
    destruct (Z.eq_dec e (-35)) as [->|H35].
    + assert (h = -18 /\ o = 1) as [-> ->] by lia.
      split.
      * intros [Hlt|[_ Hlt]]; [lia|]. right. split; [done|].
        destruct Hm1 as [[Hm1 Hrq]|[Hm1 Hrq]]; rewrite Hm1 in *; nia.
      * intros [Hlt|[_ Hlt]]; [lia|]. right. split; [lia|].
        destruct Hm1 as [[Hm1 Hrq]|[Hm1 Hrq]]; rewrite Hm1 in *; nia.
    + split.
      * intros [Hlt|[Heq Hlt]]; [lia|]. exfalso.
        assert (h = -18 /\ o = 0) as [-> ->] by lia.
        destruct Hm1 as [[Hm1 Hrq]|[Hm1 Hrq]]; rewrite Hm1 in *; nia.
      * intros [Hlt|[Heq Hlt]]; lia.
Qed.

(** The conversion of an integer below 2^53 to [double] is exact. *)
Lemma Binary64_of_Z_int k : 0 <= k < P53 -> Binary64.of_Z k = double_int k.
Proof. apply binary_normalize_int. Qed.

End DoubleIntegers.

(** *** The high-pass filter *)

Lemma last_cons_default {A} (d x : A) (l : list A) :
  default d (last (x :: l)) = default x (last l).
Proof. rewrite last_cons. by destruct (last l). Qed.

Lemma applyHighPassFilter_loop : ∀ suf pre pin pout,
  foldl (fun s i => applyHighPassFilter_body i s) (pre ++ suf, pin, pout)
        (seq (length pre) (length suf))
  = (pre ++ (hp_store <$> hp_outputs suf pin pout),
     default pin (last (Binary32.of_Z <$> suf)),
     default pout (last (hp_outputs suf pin pout))).
Proof.
  induction suf as [|x suf IH]; intros pre pin pout; [done|].
  cbn [length seq foldl applyHighPassFilter_body].
  unfold at_index. rewrite list_lookup_middle by done.
  cbn [default from_option id].
  rewrite (insert_app_r_alt pre (x :: suf) (length pre)) by lia.
  rewrite Nat.sub_diag. cbn [insert list_insert].
  set (input := Binary32.of_Z x).
  set (y := (alpha * (pout + input - pin))%f32).
  specialize (IH (pre ++ [hp_store y]) input y).
  rewrite length_app, Nat.add_1_r, <- !app_assoc in IH.
  cbn [app] in IH. unfold hp_store at 1 in IH. rewrite IH.
  cbn [hp_outputs fmap list_fmap]. fold input. fold y.
  by rewrite !last_cons_default.
Qed.

Lemma applyHighPassFilter_eq (xs : list Z) (pin pout : float) :
  applyHighPassFilter xs pin pout
  = (hp_store <$> hp_outputs xs pin pout,
     default pin (last (Binary32.of_Z <$> xs)),
     default pout (last (hp_outputs xs pin pout))).
Proof. apply (applyHighPassFilter_loop xs [] pin pout). Qed.

(** C1 (as the code has it): the filter walks the block in order and in
    place; for each sample it computes
    [y = alpha * (prevOutput + x - prevInput)] with [alpha = 0.95f], sets
    the state to [(x, y)] with [y] unclamped, and stores [y] clamped to
    [-32768.0f, 32767.0f] and then converted to [short], that is with its
    fraction cut off (truncation toward zero), not rounded. *)
Theorem applyHighPassFilter_spec (xs : list Z) (pin pout : float) :
  applyHighPassFilter xs pin pout
  = (hp_store <$> hp_outputs xs pin pout,
     default pin (last (Binary32.of_Z <$> xs)),
     default pout (last (hp_outputs xs pin pout))).
Proof. apply applyHighPassFilter_eq. Qed.

(** C1 as stated fails: from the zero state the sample 1 gives
    [y = 0.95f], which rounds to 1 but is stored as 0. *)
Lemma applyHighPassFilter_does_not_round :
  hp_outputs [1%Z] f0 f0 = [alpha] ∧
  (applyHighPassFilter [1%Z] f0 f0).1.1 = [0%Z] ∧
  hp_store_rounding <$> hp_outputs [1%Z] f0 f0 = [1%Z] ∧
  (applyHighPassFilter [1%Z] f0 f0).1.1
    ≠ hp_store_rounding <$> hp_outputs [1%Z] f0 f0.
Proof. by vm_compute. Qed.

Lemma length_hp_outputs xs : ∀ pin pout, length (hp_outputs xs pin pout) = length xs.
Proof. induction xs as [|x xs IH]; intros; simpl; [done|]. by rewrite IH. Qed.

Lemma length_applyHighPassFilter xs pin pout :
  length (applyHighPassFilter xs pin pout).1.1 = length xs.
Proof.
  rewrite applyHighPassFilter_eq. simpl.
  by rewrite length_fmap, length_hp_outputs.
Qed.

(** *** The gain control *)

Lemma agc_level_eq audio :
  agc_level audio
  = Binary64.div
      (foldl (fun lvl x => Binary64.add lvl (Binary64.of_Z (Z.abs x)))
             (S754_zero false) audio)
      (Binary64.of_Z (Z.of_nat (length audio))).
Proof.
  unfold agc_level. f_equal.
  apply (for_loop_read (fun lvl x => Binary64.add lvl (Binary64.of_Z (Z.abs x)))).
Qed.

Lemma applyAGC_eq audio g :
  applyAGC audio g
  = if flt (Binary64.of_Z 0) (agc_level audio) then
      let new_gain := agc_new_gain g (agc_desired_gain (agc_level audio)) in
      ((fun x => float_to_short (clamp16 (Binary32.of_Z x * new_gain)%f32)) <$> audio,
       new_gain)
    else (audio, g).
Proof.
  unfold applyAGC. destruct (flt _ _); [|done]. cbv zeta. f_equal.
  apply (for_loop_map
    (fun x => float_to_short (clamp16 (Binary32.of_Z x * _)%f32))).
Qed.

Lemma length_applyAGC audio g : length (applyAGC audio g).1 = length audio.
Proof.
  rewrite applyAGC_eq. destruct (flt _ _); simpl; [|done].
  by rewrite length_fmap.
Qed.

Lemma applyAGC_gain_in_range audio g :
  in_gain_range g = true → in_gain_range (applyAGC audio g).2 = true.
Proof.
  intros Hg. rewrite applyAGC_eq. destruct (flt _ _); simpl; [|done].
  apply clamp_gain_in_range.
Qed.

Lemma agc_gain_after_in_range blocks : ∀ g,
  in_gain_range g = true → in_gain_range (agc_gain_after blocks g) = true.
Proof.
  unfold agc_gain_after.
  induction blocks as [|b blocks IH]; intros g Hg; simpl; [done|].
  by apply IH, applyAGC_gain_in_range.
Qed.

(** C2: [g_current_gain] starts at [1.0f], inside [0.1f, 10.0f]; whatever
    blocks [applyAGC] processes, in whatever number, the gain stays inside
    that range, because [applyAGC] either leaves it alone or stores a value
    that went through [std::max(0.1f, std::min(10.0f, .))]. *)
Theorem gain_never_leaves_range :
  g_current_gain dsp_init = f1 ∧
  in_gain_range (g_current_gain dsp_init) = true ∧
  (∀ blocks : list (list Z),
     in_gain_range (agc_gain_after blocks (g_current_gain dsp_init)) = true) ∧
  (∀ (block : list Z) (g : float),
     (applyAGC block g).2 = g ∨ ∃ v, (applyAGC block g).2 = clamp_gain v).
Proof.
  split; [done|]. split; [done|]. split.
  - intros blocks. by apply agc_gain_after_in_range.
  - intros block g. rewrite applyAGC_eq. destruct (flt _ _); simpl; [|by left].
    right. by eexists.
Qed.

(** **** The level in exact arithmetic *)

Section LevelExact.
Local Open Scope Z_scope.

Lemma short_abs_bound x : is_short x -> 0 <= Z.abs x <= 32768.
Proof. unfold is_short. lia. Qed.

Lemma sum_abs_bound l :
  Forall is_short l -> 0 <= sum_abs l <= Z.of_nat (length l) * 32768.
Proof.
  induction 1 as [|x l Hx Hl IH]; cbn [sum_abs foldr length]; [lia|].
  fold (sum_abs l). pose proof (short_abs_bound x Hx).
  rewrite Nat2Z.inj_succ. lia.
Qed.

Lemma sum_abs_zero l : Forall is_short l -> sum_abs l = 0 <-> Forall (fun x => x = 0) l.
Proof.
  induction 1 as [|x l Hx Hl IH]; cbn [sum_abs foldr]; [done|].
  fold (sum_abs l). pose proof (sum_abs_bound l Hl).
  rewrite Forall_cons, <- IH. lia.
Qed.

Lemma sum_abs_exact l : forall acc,
  Forall is_short l -> 0 <= acc ->
  acc + Z.of_nat (length l) * 32768 < P53 ->
  foldl (fun lvl x => Binary64.add lvl (Binary64.of_Z (Z.abs x)))
        (double_int acc) l
  = double_int (acc + sum_abs l).
Proof.
  induction l as [|x l IH]; intros acc Hl Hacc Hb.
  - cbn. by rewrite Z.add_0_r.
  - apply Forall_cons in Hl as [Hx Hl].
    pose proof (short_abs_bound x Hx) as Hxx.
    cbn [foldl length sum_abs foldr] in *.
    fold (sum_abs l). rewrite Nat2Z.inj_succ in Hb.
    rewrite Binary64_of_Z_int by (unfold P53 in *; lia).
    unfold Binary64.add at 2. unfold Binary64.prec, Binary64.emax.
    rewrite SFadd_int by (unfold P53 in *; lia).
    rewrite IH by (done || lia). f_equal. lia.
Qed.

Lemma agc_level_exact block :
  Forall is_short block -> 0 < Z.of_nat (length block) < 8388608 ->
  agc_level block
  = Binary64.div (double_int (sum_abs block))
                 (double_int (Z.of_nat (length block))).
Proof.
  intros Hs Hn. rewrite agc_level_eq.
  change (S754_zero false) with (double_int 0).
  rewrite sum_abs_exact by first [done | unfold P53; lia].
  rewrite Z.add_0_l, Binary64_of_Z_int by (unfold P53; lia). done.
Qed.

Lemma agc_level_zero_iff block :
  Forall is_short block -> 0 < Z.of_nat (length block) < 8388608 ->
  ((exists s, agc_level block = S754_zero s) <-> Forall (fun x => x = 0) block) /\
  (flt (Binary64.of_Z 0) (agc_level block) = true <-> 0 < sum_abs block).
Proof.
  intros Hs Hn. rewrite agc_level_exact by done.
  rewrite <- sum_abs_zero by done.
  pose proof (sum_abs_bound block Hs) as HS.
  unfold Binary64.div, Binary64.prec, Binary64.emax.
  destruct (Z.eq_dec (sum_abs block) 0) as [H0|H0].
  - rewrite H0. unfold double_int.
    destruct (Z.eqb_spec (Z.of_nat (length block)) 0); [lia|].
    cbn. split; [split; [done|by exists false]|split; [done|lia]].
  - destruct (SFdiv_int_threshold (sum_abs block) (Z.of_nat (length block)))
      as (mf & ef & -> & Hmf & Hef & _); [unfold P53; lia|lia|].
    split; [split; [by intros [s ?]|lia]|]. cbn. split; [lia|done].
Qed.
End LevelExact.

(** C8: when the mean absolute amplitude computed by [applyAGC] is zero,
    the gain and every sample are left as they were; and whenever the guard
    [current_level > 0] lets the division [AGC_TARGET_LEVEL / current_level]
    run, the divisor is neither a zero nor a NaN.  For a block of up to
    [2^23 - 1] samples of 16 bits the computed level is a zero exactly when
    every sample is 0, and the guard holds exactly when some sample is
    not. *)
Theorem applyAGC_zero_level (block : list Z) (g : float) (s : bool) :
  (agc_level block = S754_zero s → applyAGC block g = (block, g)) ∧
  (flt (Binary64.of_Z 0) (agc_level block) = true →
     (∀ s', agc_level block ≠ S754_zero s') ∧ agc_level block ≠ S754_nan) ∧
  (Forall is_short block →
   (0 < Z.of_nat (length block) < 8388608)%Z →
     ((∃ s', agc_level block = S754_zero s') ↔ Forall (fun x => x = 0%Z) block) ∧
     (flt (Binary64.of_Z 0) (agc_level block) = true ↔ (0 < sum_abs block)%Z)).
Proof.
  split; [|split].
  - intros Hl. unfold applyAGC. rewrite Hl. destruct s; reflexivity.
  - intros Hlt. split; [|by apply flt_not_nan in Hlt as [_ ?]].
    intros s' Hz. rewrite Hz in Hlt. destruct s'; discriminate Hlt.
  - apply agc_level_zero_iff.
Qed.

Lemma applyAGC_zero_level_witness :
  applyAGC [0; 0; 0]%Z f1 = ([0; 0; 0]%Z, f1) ∧
  (∀ s', agc_level [1000; -1000]%Z ≠ S754_zero s') ∧
  agc_level [1000; -1000]%Z ≠ S754_nan.
Proof.
  split.
  - apply (proj1 (applyAGC_zero_level [0; 0; 0]%Z f1 false)). reflexivity.
  - apply (proj1 (proj2 (applyAGC_zero_level [1000; -1000]%Z f1 false))).
    reflexivity.
Defined.

(** *** The noise gate *)

Lemma noise_gate_rms_eq audio : noise_gate_rms audio = rms audio.
Proof.
  unfold noise_gate_rms, rms, mean_square, noise_gate_body.
  rewrite (for_loop_read (fun r x => Binary64.add r (Binary64.of_Z (x * x)))).
  by rewrite foldl_fmap.
Qed.

Lemma sum_squares_zero_block n :
  foldl Binary64.add (S754_zero false)
        ((fun x => Binary64.of_Z (x * x)) <$> constant_block n 0%Z)
  = S754_zero false.
Proof. induction n as [|n IH]; simpl; [done|]. exact IH. Qed.

Lemma sum_abs_zero_block n :
  foldl (fun lvl x => Binary64.add lvl (Binary64.of_Z (Z.abs x)))
        (S754_zero false) (constant_block n 0%Z)
  = S754_zero false.
Proof. induction n as [|n IH]; simpl; [done|]. exact IH. Qed.

(** A zero divided by anything is a zero or a NaN. *)
Lemma div_zero_cases s y :
  Binary64.div (S754_zero s) y = S754_nan
  ∨ ∃ s', Binary64.div (S754_zero s) y = S754_zero s'.
Proof. destruct y as [| | |]; simpl; eauto. Qed.

Lemma isAudioAboveNoiseGate_zero_block n :
  isAudioAboveNoiseGate (constant_block n 0%Z) = false.
Proof.
  unfold isAudioAboveNoiseGate. rewrite noise_gate_rms_eq.
  unfold rms, mean_square. rewrite sum_squares_zero_block.
  destruct (div_zero_cases false
              (Binary64.of_Z (Z.of_nat (length (constant_block n 0%Z)))))
    as [-> | [s' ->]]; [done|]. by destruct s'.
Qed.

Lemma applyAGC_zero_block n g :
  applyAGC (constant_block n 0%Z) g = (constant_block n 0%Z, g).
Proof.
  unfold applyAGC. rewrite agc_level_eq, sum_abs_zero_block.
  destruct (div_zero_cases false
              (Binary64.of_Z (Z.of_nat (length (constant_block n 0%Z)))))
    as [-> | [s' ->]]; [done|]. by destruct s'.
Qed.

(** *** The noise gate in exact arithmetic *)

Section GateExact.
Local Open Scope Z_scope.

Lemma short_square_bound x : is_short x -> 0 <= x * x <= 1073741824.
Proof. unfold is_short. nia. Qed.

Lemma sum_squares_bound l :
  Forall is_short l -> 0 <= sum_squares l <= Z.of_nat (length l) * 1073741824.
Proof.
  induction 1 as [|x l Hx Hl IH]; cbn [sum_squares foldr length]; [lia|].
  fold (sum_squares l). pose proof (short_square_bound x Hx).
  rewrite Nat2Z.inj_succ. lia.
Qed.

(** The loop of the gate adds the squares without any rounding. *)
Lemma sum_squares_exact l : forall acc,
  Forall is_short l -> 0 <= acc ->
  acc + Z.of_nat (length l) * 1073741824 < P53 ->
  foldl Binary64.add (double_int acc)
        ((fun x => Binary64.of_Z (x * x)) <$> l)
  = double_int (acc + sum_squares l).
Proof.
  induction l as [|x l IH]; intros acc Hl Hacc Hb.
  - cbn. by rewrite Z.add_0_r.
  - apply Forall_cons in Hl as [Hx Hl].
    pose proof (short_square_bound x Hx) as Hxx.
    cbn [fmap list_fmap foldl length sum_squares foldr] in *.
    fold (sum_squares l). rewrite Nat2Z.inj_succ in Hb.
    rewrite Binary64_of_Z_int by (unfold P53 in *; lia).
    unfold Binary64.add at 2. unfold Binary64.prec, Binary64.emax.
    rewrite SFadd_int by (unfold P53 in *; lia).
    fold ((fun x => Binary64.of_Z (x * x)) <$> l).
    rewrite IH by (done || lia). f_equal. lia.
Qed.

(** No rounding of the sum, the quotient or the root moves the decision of
    the gate across the threshold. *)
Lemma noise_gate_exact audio :
  Forall is_short audio ->
  0 < Z.of_nat (length audio) < 8388608 ->
  isAudioAboveNoiseGate audio = true
  <-> 250000 * Z.of_nat (length audio) < sum_squares audio.
Proof.
  intros Hs Hn.
  pose proof (sum_squares_bound audio Hs) as HS.
  unfold isAudioAboveNoiseGate. rewrite noise_gate_rms_eq.
  unfold rms, mean_square.
  change (Binary64.of_Z NOISE_GATE_THRESHOLD) with T500.
  change (S754_zero false) with (double_int 0).
  rewrite sum_squares_exact by first [done | unfold P53; lia].
  rewrite Z.add_0_l, Binary64_of_Z_int by (unfold P53; lia).
  unfold flt, Binary64.sqrt, Binary64.div, Binary64.prec, Binary64.emax.
  destruct (Z.eq_dec (sum_squares audio) 0) as [H0|H0].
  - rewrite H0. unfold double_int at 1. cbn [Z.eqb].
    unfold double_int. destruct (Z.eqb_spec (Z.of_nat (length audio)) 0); [lia|].
    cbn. split; [done|lia].
  - destruct (SFdiv_int_threshold (sum_squares audio) (Z.of_nat (length audio)))
      as (mf & ef & -> & Hmf & Hef & Hiff); [unfold P53; lia|lia|].
    rewrite SFsqrt_threshold by done. exact Hiff.
Qed.

(** C5: the gate is a pure function of the block.  It answers [true]
    exactly when the root of the mean of the squared samples exceeds 500:
    both in the [double] arithmetic of the code (the squares summed from
    the first sample on, divided by the frame count, then [sqrt]), for every
    block, and in exact arithmetic, where the condition reads
    [250000 * n < x_1^2 + ... + x_n^2], for every block of up to [2^23 - 1]
    samples of 16 bits.  A block of zeros of any length is below the
    gate. *)
Theorem isAudioAboveNoiseGate_spec :
  (forall audio : list Z,
     isAudioAboveNoiseGate audio = true
     <-> flt (Binary64.of_Z NOISE_GATE_THRESHOLD) (rms audio) = true) /\
  (forall audio : list Z,
     Forall is_short audio ->
     0 < Z.of_nat (length audio) < 8388608 ->
     (isAudioAboveNoiseGate audio = true
      <-> 250000 * Z.of_nat (length audio) < sum_squares audio)) /\
  (forall n : nat, isAudioAboveNoiseGate (constant_block n 0) = false).
Proof.
  split; [|split].
  - intros audio. unfold isAudioAboveNoiseGate. by rewrite noise_gate_rms_eq.
  - apply noise_gate_exact.
  - apply isAudioAboveNoiseGate_zero_block.
Qed.

Lemma isAudioAboveNoiseGate_spec_witness :
  isAudioAboveNoiseGate [600; -600; 400; 400] = true.
Proof.
  apply (proj1 (proj2 isAudioAboveNoiseGate_spec) [600; -600; 400; 400]).
  - repeat constructor; unfold is_short; lia.
  - split; reflexivity.
  - reflexivity.
Defined.

End GateExact.

(** *** The callback *)

Lemma frames_fit_buffer : FRAMES_PER_BUFFER ≤ AUDIO_BUFFER_SIZE.
Proof. unfold FRAMES_PER_BUFFER, AUDIO_BUFFER_SIZE. lia. Qed.

Lemma buffer_ready_new : buffer_ready (CircularBuffer.new AUDIO_BUFFER_SIZE).
Proof.
  split; [|done]. apply wf_new. unfold AUDIO_BUFFER_SIZE. lia.
Qed.

Lemma length_preprocessAudio audio d :
  length (preprocessAudio audio d).1 = length audio.
Proof.
  unfold preprocessAudio.
  pose proof (length_applyHighPassFilter audio (prev_input d) (prev_output d)) as Hh.
  destruct (applyHighPassFilter _ _ _) as [[a pin] pout]. simpl in Hh.
  pose proof (length_applyAGC a (g_current_gain d)) as Ha.
  destruct (applyAGC _ _) as [a' g]. simpl in *. congruence.
Qed.

Section CallbackProperties.

Context {Recognizer : Type}.
Variable accept_waveform : Recognizer -> list Z -> Recognizer * Z.
Variable partial_result : Recognizer -> Recognizer * option string.
Variable final_result : Recognizer -> Recognizer * option string.

Local Abbreviation callback :=
  (paCallback accept_waveform partial_result final_result).
Local Abbreviation run :=
  (run_callbacks accept_waveform partial_result final_result).
Local Abbreviation status_handler :=
  (handle_status partial_result final_result).

(** Handling the status only ever adds printed lines to the trace. *)
Lemma handle_status_trace st r last tr :
  ∃ printed, (status_handler st r last tr).2 = printed ++ tr ∧
             Forall (fun e => ∃ line, e = EvPrint line) printed.
Proof.
  unfold handle_status.
  destruct (st =? 0)%Z.
  - destruct (partial_result r) as [r' [s|]]; simpl.
    + destruct (_ && _); simpl.
      * exists [EvPrint ("Partial: " ++ s)]. split; [done|].
        constructor; [by eexists|constructor].
      * by exists [].
    + by exists [].
  - destruct (0 <? st)%Z; [|by exists []].
    destruct (final_result r) as [r' [s|]]; simpl.
    + destruct (_ && _); simpl.
      * exists [EvPrint ("Final:   " ++ s)]. split; [done|].
        constructor; [by eexists|constructor].
      * by exists [].
    + by exists [].
Qed.

Lemma handle_status_no_fallback st r last tr :
  EvFallback ∉ tr → EvFallback ∉ (status_handler st r last tr).2.
Proof.
  intros Htr. destruct (handle_status_trace st r last tr) as (p & -> & Hp).
  intros [Hin|Hin]%elem_of_app; [|done].
  rewrite Forall_forall in Hp. by destruct (Hp _ Hin).
Qed.

(** C6: a block the gate rejects is dropped on the spot: the callback
    returns with the whole state as it was (filter state, gain, circular
    buffer, last-partial cache, recogniser, trace of submissions and
    output), so the recogniser is not called.  The gate rejects in
    particular every block of up to [2^23 - 1] samples of 16 bits whose mean
    square is at most 250000, that is whose RMS is at most 500.  Hence three
    blocks of zeros, of any lengths, leave the initial state untouched and
    the list of submissions empty. *)
Theorem gated_block_is_dropped (w : world) (block : list Z) :
  (isAudioAboveNoiseGate block = false →
     ∃ res, callback w (Some block) = Some (w, res)) ∧
  (Forall is_short block →
   (0 < Z.of_nat (length block) < 8388608)%Z →
   (sum_squares block ≤ 250000 * Z.of_nat (length block))%Z →
     ∃ res, callback w (Some block) = Some (w, res)) ∧
  (∀ (r : Recognizer) (n1 n2 n3 : nat),
     run (world_init r)
         [Some (constant_block n1 0%Z); Some (constant_block n2 0%Z);
          Some (constant_block n3 0%Z)] = Some (world_init r) ∧
     submissions (world_init r) = []).
Proof.
  assert (Hdrop : isAudioAboveNoiseGate block = false →
                  ∃ res, callback w (Some block) = Some (w, res)).
  { intros Hg. unfold paCallback. rewrite Hg. simpl.
    destruct (g_request_stop w); eauto. }
  split; [exact Hdrop|]. split.
  - intros Hs Hn Hq. apply Hdrop.
    destruct (isAudioAboveNoiseGate block) eqn:Hg; [|done].
    apply noise_gate_exact in Hg; [lia|done|done].
  - intros r n1 n2 n3. split; [|done].
    simpl. unfold paCallback. simpl.
    by rewrite !isAudioAboveNoiseGate_zero_block.
Qed.

(** After the push of a block of [FRAMES_PER_BUFFER] samples the buffer
    holds at least that many, [getSmoothed] hands the block back and the
    substitution branch is not taken. *)
Lemma smoothing_stage_ready buf audio :
  buffer_ready buf → length audio = FRAMES_PER_BUFFER →
  ∃ buf', smoothing_stage buf audio = Some (buf', audio, false) ∧
          buffer_ready buf' ∧
          CircularBuffer.push buf audio = Some buf' ∧
          FRAMES_PER_BUFFER ≤ CircularBuffer.count buf' ∧
          CircularBuffer.getSmoothed buf' FRAMES_PER_BUFFER = Some audio.
Proof.
  intros [Hw Hc] Hlen. pose proof frames_fit_buffer as Hfit.
  destruct (push_block_getSmoothed buf audio Hw ltac:(lia))
    as (buf' & Hp & Hw' & Hc' & Hcnt & Hk).
  exists buf'. unfold smoothing_stage. rewrite Hp. simpl. rewrite Hk. simpl.
  split; [|split; [|split; [|split]]].
  - destruct audio; [discriminate Hlen|done].
  - split; [done|congruence].
  - done.
  - by rewrite <- Hlen.
  - by rewrite <- Hlen.
Qed.

Lemma paCallback_keeps_ready w block :
  buffer_ready (g_audio_buffer w) → EvFallback ∉ trace w →
  length block = FRAMES_PER_BUFFER →
  ∃ w' res, callback w (Some block) = Some (w', res) ∧
            buffer_ready (g_audio_buffer w') ∧ EvFallback ∉ trace w'.
Proof.
  intros Hb Ht Hlen. unfold paCallback.
  destruct (g_request_stop w); [by eauto|].
  destruct (isAudioAboveNoiseGate block); simpl; [|by eauto].
  pose proof (length_preprocessAudio block (dsp w)) as Hl.
  destruct (preprocessAudio block (dsp w)) as [audio d]. simpl in Hl.
  destruct (smoothing_stage_ready (g_audio_buffer w) audio Hb ltac:(congruence))
    as (buf' & -> & Hb' & _). simpl.
  destruct (accept_waveform (recognizer w) audio) as [r st].
  pose proof (handle_status_no_fallback st r (g_last_partial_result_json w)
                (EvSubmit audio :: trace w)) as Hs.
  destruct (handle_status _ _ _ _ _ _) as [[r' last] tr]. simpl in Hs.
  do 2 eexists. split; [reflexivity|]. simpl. split; [done|].
  apply Hs. by intros [?|?]%elem_of_cons.
Qed.

Lemma run_callbacks_keeps_ready blocks : ∀ w,
  buffer_ready (g_audio_buffer w) → EvFallback ∉ trace w →
  Forall (fun b => length b = FRAMES_PER_BUFFER) blocks →
  ∃ w', run w (Some <$> blocks) = Some w' ∧
        buffer_ready (g_audio_buffer w') ∧ EvFallback ∉ trace w'.
Proof.
  induction blocks as [|b blocks IH]; intros w Hb Ht Hall; simpl.
  - by exists w.
  - apply Forall_cons in Hall as [Hlen Hall].
    destruct (paCallback_keeps_ready w b Hb Ht Hlen) as (w1 & res & -> & Hb1 & Ht1).
    simpl. destruct res; [by apply IH|by exists w1].
Qed.

(** C10: with blocks of [FRAMES_PER_BUFFER] = 512 samples and a buffer of
    [AUDIO_BUFFER_SIZE] = 8192, every callback that reaches the smoothing
    stage finds at least 512 samples in the buffer after its push, so
    [getSmoothed] returns the block just pushed, never the empty vector, and
    the branch that substitutes the unsmoothed block never runs, in any run
    of the callback from the initial state; nor is any undefined access
    reached. *)
Theorem fallback_branch_unreachable (r : Recognizer) (blocks : list (list Z)) :
  Forall (fun b => length b = FRAMES_PER_BUFFER) blocks →
  FRAMES_PER_BUFFER ≤ AUDIO_BUFFER_SIZE ∧
  (∃ w', run (world_init r) (Some <$> blocks) = Some w' ∧
         (EvFallback ∉ trace w') ∧
         (∀ audio, length audio = FRAMES_PER_BUFFER →
           ∃ buf', CircularBuffer.push (g_audio_buffer w') audio = Some buf' ∧
                   FRAMES_PER_BUFFER ≤ CircularBuffer.count buf' ∧
                   CircularBuffer.getSmoothed buf' FRAMES_PER_BUFFER = Some audio ∧
                   smoothing_stage (g_audio_buffer w') audio
                   = Some (buf', audio, false))).
Proof.
  intros Hall. split; [apply frames_fit_buffer|].
  destruct (run_callbacks_keeps_ready blocks (world_init r)) as (w' & Hr & Hb & Ht).
  - apply buffer_ready_new.
  - simpl. apply not_elem_of_nil.
  - done.
  - exists w'. split; [done|]. split; [done|].
    intros audio Hlen.
    destruct (smoothing_stage_ready _ audio Hb Hlen) as (buf' & Hs & _ & Hp & Hc & Hg).
    by exists buf'.
Qed.

(** What the callback does to the filter and gain state is [pipeline_step]. *)
Lemma paCallback_dsp w block w' res :
  g_request_stop w = false →
  callback w (Some block) = Some (w', res) →
  dsp w' = pipeline_step block (dsp w).
Proof.
  intros Hs. unfold paCallback, pipeline_step. rewrite Hs.
  destruct (isAudioAboveNoiseGate block); simpl; [|by intros [= <- _]].
  destruct (preprocessAudio block (dsp w)) as [audio d]. simpl.
  destruct (smoothing_stage _ _) as [[[buf sm] fb]|]; simpl; [|done].
  destruct (accept_waveform _ _) as [r st].
  destruct (handle_status _ _ _ _ _ _) as [[r' last] tr].
  by intros [= <- _].
Qed.

End CallbackProperties.

Lemma gated_block_is_dropped_witness :
  ∃ res,
    paCallback silent_accept silent_result silent_result
      (world_init tt) (Some [100; -100; 100]%Z)
    = Some (world_init tt, res).
Proof.
  apply (proj1 (gated_block_is_dropped silent_accept silent_result silent_result
                  (world_init tt) [100; -100; 100]%Z)).
  vm_compute. reflexivity.
Defined.

Lemma fallback_branch_unreachable_witness :
  ∃ w', run_callbacks silent_accept silent_result silent_result
          (world_init tt) (Some <$> [dc_block; dc_block]) = Some w' ∧
        EvFallback ∉ trace w'.
Proof.
  destruct (fallback_branch_unreachable silent_accept silent_result silent_result
              tt [dc_block; dc_block]) as (_ & w' & Hr & Ht & _).
  - constructor; [reflexivity|]. constructor; [reflexivity|]. constructor.
  - exists w'. split; assumption.
Defined.

(** *** The filter on a constant input *)

Lemma hp_dc_output_shift c pin pout k :
  hp_dc_output c (Binary32.of_Z c) (hp_dc_output c pin pout 0) k
  = hp_dc_output c pin pout (S k).
Proof.
  induction k as [|k IH]; [reflexivity|].
  cbn [hp_dc_output] in *. by rewrite IH.
Qed.

Lemma hp_outputs_dc_lookup c : ∀ n k pin pout,
  k < n →
  hp_outputs (constant_block n c) pin pout !! k = Some (hp_dc_output c pin pout k).
Proof.
  unfold constant_block.
  induction n as [|n IH]; intros k pin pout Hk; [lia|].
  destruct k as [|k]; [reflexivity|].
  cbn [replicate hp_outputs lookup list_lookup].
  rewrite IH by lia. f_equal. apply hp_dc_output_shift.
Qed.

Lemma hp_dc_stalls k : 276 ≤ k → hp_dc_output 1000 f0 f0 k = hp_stall.
Proof.
  induction 1 as [|k Hk IH].
  - by vm_compute.
  - cbn [hp_dc_output]. rewrite IH. by vm_compute.
Qed.

Lemma strictly_decreasing_lookup l : ∀ k y y',
  strictly_decreasing l = true →
  l !! k = Some y → l !! S k = Some y' → flt y' y = true.
Proof.
  induction l as [|a l IH]; intros k y y' Hd Hy Hy'; [done|].
  destruct l as [|b l]; [done|].
  cbn [strictly_decreasing] in Hd. apply andb_true_iff in Hd as [Hab Hd].
  destruct k as [|k].
  - injection Hy as <-. injection Hy' as <-. exact Hab.
  - exact (IH k y y' Hd Hy Hy').
Qed.

Lemma hp_dc_decreases k :
  k < 276 →
  flt (hp_dc_output 1000 f0 f0 (S k)) (hp_dc_output 1000 f0 f0 k) = true.
Proof.
  intros Hk.
  apply (strictly_decreasing_lookup (hp_outputs (constant_block 277 1000) f0 f0) k).
  - by vm_compute.
  - apply hp_outputs_dc_lookup. lia.
  - apply hp_outputs_dc_lookup. lia.
Qed.

Lemma hp_dc_stored_zero k : 135 ≤ k → hp_store (hp_dc_output 1000 f0 f0 k) = 0%Z.
Proof.
  intros Hk. destruct (decide (k < 276)) as [Hlt|Hge].
  - assert (Hall : Forall (fun y => hp_store y = 0%Z)
                     (drop 135 (hp_outputs (constant_block 277 1000) f0 f0))).
    { assert (Hb : forallb (fun y => (hp_store y =? 0)%Z)
                     (drop 135 (hp_outputs (constant_block 277 1000) f0 f0)) = true)
        by (by vm_compute).
      rewrite forallb_forall in Hb.
      apply Forall_forall. intros y Hy. by apply Z.eqb_eq, Hb, list_elem_of_In. }
    rewrite Forall_lookup in Hall. apply (Hall (k - 135)).
    rewrite lookup_drop, hp_outputs_dc_lookup by lia. do 2 f_equal. lia.
  - rewrite hp_dc_stalls by lia. by vm_compute.
Qed.

(** C9 as stated fails: on 512 samples of value 1000 from the zero state
    the unclamped outputs 276 and 277 are both [9.5 * 2^-14], which is not
    [alpha] times itself, and the last output of the block still has that
    value: the outputs have stopped decaying above zero. *)
Lemma hp_constant_input_not_geometric :
  hp_outputs dc_block f0 f0 !! 276 = Some hp_stall ∧
  hp_outputs dc_block f0 f0 !! 277 = Some hp_stall ∧
  hp_stall ≠ (alpha * hp_stall)%f32 ∧
  hp_outputs dc_block f0 f0 !! 511 = Some hp_stall ∧
  flt f0 hp_stall = true.
Proof. by vm_compute. Qed.

(** *** The gain on the constant-amplitude block *)

Lemma agc_level_dc_block : agc_level dc_block = Binary64.of_Z 1000.
Proof. by vm_compute. Qed.

(** On the block of amplitude 1000 the desired gain is exactly 8. *)
Lemma applyAGC_dc_block_gain g : (applyAGC dc_block g).2 = agc_new_gain g f8.
Proof.
  rewrite applyAGC_eq, agc_level_dc_block.
  change (flt (Binary64.of_Z 0) (Binary64.of_Z 1000)) with true.
  cbv zeta. cbn [snd]. f_equal.
Qed.

Lemma agc_gains_smoothing n : ∀ g,
  agc_gains dc_block n g = smoothing_gains f8 n g.
Proof.
  induction n as [|n IH]; intros g; cbn [agc_gains smoothing_gains]; [reflexivity|].
  by rewrite applyAGC_dc_block_gain, IH.
Qed.

Lemma agc_gains_dc_block n : ∀ g,
  agc_gains dc_block n g
  = g :: match n with 0 => [] | S n' => agc_gains dc_block n' (agc_new_gain g f8) end.
Proof.
  destruct n; intros g; cbn [agc_gains]; [reflexivity|].
  by rewrite applyAGC_dc_block_gain.
Qed.

Lemma agc_gain_after_dc_block n : ∀ g,
  agc_gain_after (replicate n dc_block) g = Nat.iter n (fun g => agc_new_gain g f8) g.
Proof.
  unfold agc_gain_after. induction n as [|n IH]; intros g; [done|].
  cbn [replicate foldl]. rewrite IH, applyAGC_dc_block_gain.
  symmetry. apply (Nat.iter_succ_r n (fun g => agc_new_gain g f8) g).
Qed.

Lemma agc_settled_fixpoint : agc_new_gain agc_settled_gain f8 = agc_settled_gain.
Proof. by vm_compute. Qed.

Lemma agc_settles n :
  141 ≤ n → Nat.iter n (fun g => agc_new_gain g f8) f1 = agc_settled_gain.
Proof.
  induction 1 as [|n Hn IH].
  - by vm_compute.
  - rewrite Nat.iter_succ, IH. apply agc_settled_fixpoint.
Qed.

Lemma agc_gains_settled n :
  agc_gains dc_block n agc_settled_gain = replicate (S n) agc_settled_gain.
Proof.
  induction n as [|n IH]; [reflexivity|].
  rewrite agc_gains_dc_block, agc_settled_fixpoint, IH. reflexivity.
Qed.

Lemma approaches_settled n :
  approaches_monotonically f8 (agc_gains dc_block n agc_settled_gain) = true.
Proof.
  rewrite agc_gains_settled.
  induction n as [|n IH]; [reflexivity|].
  change (replicate (S (S n)) agc_settled_gain)
    with (agc_settled_gain :: replicate (S n) agc_settled_gain).
  change (replicate (S n) agc_settled_gain)
    with (agc_settled_gain :: replicate n agc_settled_gain) in IH |- * at 1.
  cbn [approaches_monotonically] in IH |- *.
  apply andb_true_iff. split; [by vm_compute|exact IH].
Qed.

Lemma approaches_agc_succ n g :
  approaches_monotonically f8 (agc_gains dc_block (S n) g)
  = between g (agc_new_gain g f8) f8
    && approaches_monotonically f8 (agc_gains dc_block n (agc_new_gain g f8)).
Proof.
  cbn [agc_gains]. rewrite applyAGC_dc_block_gain.
  destruct n; reflexivity.
Qed.

Lemma approaches_extend m : ∀ g,
  approaches_monotonically f8 (agc_gains dc_block m g) = true →
  (∀ n, approaches_monotonically f8
          (agc_gains dc_block n (Nat.iter m (fun g => agc_new_gain g f8) g)) = true) →
  ∀ n, approaches_monotonically f8 (agc_gains dc_block n g) = true.
Proof.
  induction m as [|m IH]; intros g Hm Hrest n; [apply Hrest|].
  destruct n as [|n]; [reflexivity|].
  rewrite approaches_agc_succ in Hm |- *.
  apply andb_true_iff in Hm as [Hb Hm]. rewrite Hb. cbn [andb].
  apply IH; [exact Hm|].
  intros n'. specialize (Hrest n'). by rewrite Nat.iter_succ_r in Hrest.
Qed.

(** C4 (as the code has it): when the gain stage alone, without the
    high-pass filter in front of it, is fed the block of constant amplitude
    1000 again and again, the desired gain is 8.0 at every block and the new
    gain is [clamp(g + (8.0 - g) * 0.1f)]; starting from the initial gain 1.0
    the gain moves toward 8.0 at every block without ever passing it, and
    from the 141st block on it stays at [8 - 2^-19]. *)
Theorem agc_alone_settles_near_8 (n : nat) :
  (∀ g, (applyAGC dc_block g).2
        = clamp_gain (g + (f8 - g) * AGC_ADJUSTMENT_RATE)%f32) ∧
  approaches_monotonically f8 (agc_gains dc_block n f1) = true ∧
  (141 ≤ n → agc_gain_after (replicate n dc_block) f1 = agc_settled_gain) ∧
  (f8 - agc_settled_gain)%f32 = S754_finite false 8388608 (-42).
Proof.
  split; [|split; [|split]].
  - intros g. by rewrite applyAGC_dc_block_gain.
  - apply (approaches_extend 141).
    + rewrite agc_gains_smoothing. by vm_compute.
    + intros n'. rewrite agc_settles by lia. apply approaches_settled.
  - intros Hn. rewrite agc_gain_after_dc_block. by apply agc_settles.
  - by vm_compute.
Qed.

Lemma agc_alone_settles_near_8_witness :
  agc_gain_after (replicate 150 dc_block) f1 = agc_settled_gain.
Proof.
  apply (proj1 (proj2 (proj2 (agc_alone_settles_near_8 150)))). lia.
Defined.

(** C4 as stated fails: through gate, filter and gain stage the first
    block takes the gain from 1.0 to the upper clamp 10.0, past 8.0, and the
    following blocks leave it there. *)
Lemma pipeline_gain_overshoots :
  pipeline_gains dc_block 3 dsp_init = [f1; f10; f10; f10] ∧
  flt f8 f10 = true ∧
  approaches_monotonically f8 (pipeline_gains dc_block 3 dsp_init) = false.
Proof. by vm_compute. Qed.

(** The filter and gain state after the first block, [dsp_saturated], is a
    fixed point of the pipeline, so the gain is 10.0 after any number of
    blocks. *)
Lemma pipeline_gain_stays_at_max n :
  Nat.iter (S n) (pipeline_step dc_block) dsp_init = dsp_saturated ∧
  g_current_gain dsp_saturated = f10.
Proof.
  split; [|reflexivity].
  induction n as [|n IH]; [by vm_compute|].
  rewrite Nat.iter_succ, IH. by vm_compute.
Qed.

(** ** Part III: further properties *)

Section RingBufferMore.
Import CircularBuffer.

Lemma tail_consistent_new size : 0 < size → tail_consistent (new size).
Proof.
  intros Hs. split; [by apply wf_new|]. simpl. split; [done|].
  symmetry. apply Nat.mod_small. lia.
Qed.

Lemma push_sample_tail_consistent b x :
  tail_consistent b → ∃ b', push_sample b x = Some b' ∧ tail_consistent b'.
Proof.
  intros ((Hc & Hlen & Hh & Hcnt) & Ht & Hhead).
  unfold push_sample. rewrite decide_True by lia.
  eexists; split; [reflexivity|].
  assert (Hhead' : head b = if decide (tail b + count b < capacity b)
                            then tail b + count b
                            else tail b + count b - capacity b).
  { rewrite Hhead. clear Hhead Hh. apply mod_lt2; lia. }
  clear Hhead.
  split; [|split]; simpl.
  - unfold wf; simpl. rewrite length_insert.
    repeat split; try lia.
    + apply Nat.mod_upper_bound. lia.
    + repeat case_decide; lia.
  - destruct (decide (count b < capacity b)); [done|].
    apply Nat.mod_upper_bound. lia.
  - rewrite (mod_lt2 (head b + 1)) by lia.
    destruct (decide (count b < capacity b)) as [Hlt|Hge].
    + rewrite mod_lt2 by lia. repeat case_decide; lia.
    + rewrite (mod_lt2 (tail b + 1)) by lia.
      rewrite mod_lt2 by (repeat case_decide; lia).
      repeat case_decide; lia.
Qed.

Lemma push_tail_consistent data : ∀ b,
  tail_consistent b → ∃ b', push b data = Some b' ∧ tail_consistent b'.
Proof.
  induction data as [|x data IH]; intros b Hb; simpl; [by exists b|].
  destruct (push_sample_tail_consistent b x Hb) as (b1 & -> & Hb1). simpl.
  by apply IH.
Qed.

Lemma push_tail_fixed data : ∀ b b',
  push b data = Some b' → count b + length data ≤ capacity b → tail b' = tail b.
Proof.
  induction data as [|x data IH]; intros b b' Hp Hfit; simpl in *.
  - by injection Hp as <-.
  - unfold push_sample in Hp. case_decide; [|done]. simpl in Hp.
    apply IH in Hp; simpl in *.
    + rewrite Hp. by rewrite decide_True by lia.
    + rewrite decide_True by lia. lia.
Qed.

(** X1: [push] keeps [tail] in step with [head] and [count]: from a
    buffer where [head = (tail + count) mod capacity], every push is defined and
    ends in such a buffer; [tail] does not move as long as the samples fit
    in the free space, and once the buffer is full [count] is the capacity
    and [tail] equals [head]. *)
Theorem push_keeps_tail_consistent (b : t) (data : list Z) :
  tail_consistent b →
  ∃ b', push b data = Some b' ∧ tail_consistent b' ∧
        (count b + length data ≤ capacity b → tail b' = tail b) ∧
        (capacity b ≤ count b + length data →
           count b' = capacity b ∧ tail b' = head b').
Proof.
  intros Hb. destruct (push_tail_consistent data b Hb) as (b' & Hp & Hb').
  exists b'. split; [done|]. split; [done|].
  destruct Hb as ((Hc & Hlen & Hh & Hcnt) & Ht & Hhead).
  destruct (push_count data b b' Hcnt Hp) as [Hcount Hcap].
  split; [by apply push_tail_fixed|].
  intros Hfull. split; [lia|].
  destruct Hb' as ((Hc' & _ & Hh' & _) & Ht' & Hhead').
  rewrite Hhead', Hcount, Hcap.
  replace ((count b + length data) `min` capacity b) with (1 * capacity b) by lia.
  rewrite Nat.Div0.mod_add. symmetry. apply Nat.mod_small. lia.
Qed.

Lemma push_keeps_tail_consistent_witness :
  ∃ b', push (new 4) [1; 2; 3; 4; 5; 6]%Z = Some b' ∧
        count b' = 4 ∧ tail b' = head b'.
Proof.
  destruct (push_keeps_tail_consistent (new 4) [1; 2; 3; 4; 5; 6]%Z)
    as (b' & Hp & _ & _ & Hfull).
  - apply tail_consistent_new. lia.
  - exists b'. split; [exact Hp|]. apply Hfull. simpl. lia.
Defined.

(** X2: after any non-empty sequence of samples pushed into a freshly
    constructed buffer, [buffer[tail]] is the oldest sample still held: the
    one [count] places from the end of what was pushed. *)
Theorem tail_is_oldest_sample (size : nat) (history : list Z) :
  0 < size → history ≠ [] →
  ∃ b, push (new size) history = Some b ∧
       count b = length history `min` size ∧
       buffer b !! tail b = history !! (length history - count b).
Proof.
  intros Hs Hne.
  destruct (push_recent history (new size) [] (recent_nil _ (wf_new size Hs)))
    as (b & Hp & Hr & Hcap).
  destruct (push_tail_consistent history (new size) (tail_consistent_new size Hs))
    as (b2 & Hp2 & Hb).
  rewrite Hp in Hp2. injection Hp2 as <-.
  destruct (push_count history (new size) b ltac:(simpl; lia) Hp) as [Hcount _].
  simpl in Hcount, Hcap, Hr.
  exists b. split; [done|]. split; [done|].
  destruct Hr as (_ & _ & Hrd). destruct Hb as ((Hc & Hlen & Hh & Hcnt) & Ht & Hhead).
  assert (Hlh : 0 < length history) by (destruct history; [done|simpl; lia]).
  specialize (Hrd (count b - 1) ltac:(lia) ltac:(lia)).
  rewrite reverse_lookup in Hrd by lia.
  replace (length history - S (count b - 1)) with (length history - count b)
    in Hrd by lia.
  rewrite <- Hrd. f_equal.
  assert (Hhead' : head b = if decide (tail b + count b < capacity b)
                            then tail b + count b
                            else tail b + count b - capacity b).
  { rewrite Hhead. clear Hhead Hh. apply mod_lt2; lia. }
  clear Hhead Hrd.
  rewrite mod_lt2 by (repeat case_decide; lia).
  repeat case_decide; lia.
Qed.

Lemma tail_is_oldest_sample_witness :
  ∃ b, push (new 4) [1; 2; 3; 4; 5; 6]%Z = Some b ∧
       count b = 4 ∧ buffer b !! tail b = Some 3%Z.
Proof.
  destruct (tail_is_oldest_sample 4 [1; 2; 3; 4; 5; 6]%Z) as (b & Hp & Hc & Ht);
    [lia|done|].
  exists b. split; [exact Hp|]. split; [exact Hc|].
  rewrite Ht, Hc. reflexivity.
Defined.

(** X3: [getSmoothed] reads across the blocks of successive calls of
    [push]: after pushing [d1] and then [d2], [getSmoothed(n)] returns the
    last [n] samples of [d1] followed by [d2], for every [n] up to their
    total length and the capacity. *)
Theorem getSmoothed_spans_blocks (b : t) (d1 d2 : list Z) (n : nat) :
  wf b → n ≤ length d1 + length d2 → n ≤ capacity b →
  ∃ b1 b2, push b d1 = Some b1 ∧ push b1 d2 = Some b2 ∧
           getSmoothed b2 n = Some (drop (length d1 + length d2 - n) (d1 ++ d2)).
Proof.
  intros Hw Hn Hc.
  destruct (push_recent d1 b [] (recent_nil b Hw)) as (b1 & Hp1 & Hr1 & Hc1).
  destruct (push_recent d2 b1 _ Hr1) as (b2 & Hp2 & Hr2 & Hc2).
  exists b1, b2. split; [done|]. split; [done|]. simpl in Hr2.
  rewrite <- length_app. apply getSmoothed_recent; [done| |lia].
  rewrite length_app. lia.
Qed.

Lemma getSmoothed_spans_blocks_witness :
  ∃ b1 b2, push (new 4) [1; 2; 3]%Z = Some b1 ∧ push b1 [4; 5]%Z = Some b2 ∧
           getSmoothed b2 4 = Some [2; 3; 4; 5]%Z.
Proof.
  apply (getSmoothed_spans_blocks (new 4) [1; 2; 3]%Z [4; 5]%Z 4).
  - apply wf_new. lia.
  - simpl. lia.
  - simpl. lia.
Defined.

(** X4: on a buffer satisfying the class invariant [getSmoothed]
    never reads outside the storage, whatever the length asked for, and
    returns either [len] samples or, when fewer than [len] are held, none. *)
Theorem getSmoothed_defined (b : t) (len : nat) :
  wf b →
  ∃ l, getSmoothed b len = Some l ∧
       length l = (if decide (count b < len) then 0 else len) ∧
       (∀ i, i ∈ read_indices b len → i < length (buffer b)).
Proof.
  intros Hw.
  assert (Hin : ∀ i, i ∈ read_indices b len → i < length (buffer b))
    by (intros i; by apply read_indices_in_bounds).
  assert (Hs : is_Some (getSmoothed b len)).
  { unfold getSmoothed. apply mapM_is_Some, Forall_forall.
    intros i Hi. apply lookup_lt_is_Some. by apply Hin. }
  destruct Hs as [l Hl]. exists l. split; [done|]. split; [|done].
  unfold getSmoothed in Hl. apply length_mapM in Hl. rewrite <- Hl.
  unfold read_indices. case_decide; [done|].
  by rewrite length_fmap, length_seq.
Qed.

Lemma getSmoothed_defined_witness :
  ∃ l, getSmoothed (mk [5; 6; 7; 8] 1 1 4 4)%Z 3 = Some l ∧ length l = 3.
Proof.
  destruct (getSmoothed_defined (mk [5; 6; 7; 8] 1 1 4 4)%Z 3) as (l & Hl & Hlen & _).
  - unfold wf; simpl; lia.
  - exists l. split; [exact Hl|exact Hlen].
Defined.

Lemma smoothing_stage_total (b : t) (audio : list Z) :
  wf b →
  ∃ b' fallback,
    smoothing_stage b audio = Some (b', audio, fallback) ∧
    wf b' ∧ capacity b' = capacity b ∧
    (fallback = true ↔ audio = [] ∨ capacity b < length audio).
Proof.
  intros Hw. destruct (decide (length audio ≤ capacity b)) as [Hfit|Hbig].
  - destruct (push_block_getSmoothed b audio Hw Hfit)
      as (b' & Hp & Hw' & Hc' & _ & Hg).
    unfold smoothing_stage. rewrite Hp. simpl. rewrite Hg. simpl.
    destruct audio as [|x audio].
    + exists b', true. split; [done|]. split; [done|]. split; [done|]. tauto.
    + exists b', false. split; [done|]. split; [done|]. split; [done|].
      split; [done|]. intros [?|?]; [done|simpl in *; lia].
  - destruct (push_recent audio b [] (recent_nil b Hw)) as (b' & Hp & Hr & Hc').
    destruct Hw as (Hc & Hlen & Hh & Hcnt).
    destruct (push_count audio b b' Hcnt Hp) as [Hcount _].
    unfold smoothing_stage. rewrite Hp. simpl.
    unfold getSmoothed, read_indices. rewrite decide_True by lia. simpl.
    exists b', true. split; [done|]. split; [by eapply recent_wf|].
    split; [done|]. split; [right; lia|done].
Qed.

(** X5: for a block of any length the push, retrieval and
    substitution of the callback hand on the block that was given, and
    leave the buffer within its invariant; the substitution
    [smoothed_audio = audio_data] runs exactly when the block is empty or
    longer than the capacity. *)
Theorem smoothing_stage_identity (b : t) (audio : list Z) :
  wf b →
  ∃ b' fallback,
    smoothing_stage b audio = Some (b', audio, fallback) ∧
    wf b' ∧ capacity b' = capacity b ∧
    (fallback = true ↔ audio = [] ∨ capacity b < length audio).
Proof. apply smoothing_stage_total. Qed.

Lemma smoothing_stage_identity_witness :
  ∃ b' fallback,
    smoothing_stage (new 2) [1; 2; 3]%Z = Some (b', [1; 2; 3]%Z, fallback) ∧
    (fallback = true ↔ [1; 2; 3]%Z = [] ∨ capacity (new 2) < 3).
Proof.
  destruct (smoothing_stage_identity (new 2) [1; 2; 3]%Z) as (b' & fb & Hs & _ & _ & Hf).
  - apply wf_new. lia.
  - exists b', fb. split; [exact Hs|exact Hf].
Defined.

End RingBufferMore.

Lemma CircularBuffer_wf_init :
  CircularBuffer.wf (CircularBuffer.new AUDIO_BUFFER_SIZE).
Proof. apply wf_new. unfold AUDIO_BUFFER_SIZE. lia. Qed.

Section CallbackMore.

Context {Recognizer : Type}.
Variable accept_waveform : Recognizer -> list Z -> Recognizer * Z.
Variable partial_result : Recognizer -> Recognizer * option string.
Variable final_result : Recognizer -> Recognizer * option string.

Local Abbreviation callback :=
  (paCallback accept_waveform partial_result final_result).
Local Abbreviation run :=
  (run_callbacks accept_waveform partial_result final_result).
Local Abbreviation status_handler :=
  (handle_status partial_result final_result).

(** One callback on a block above the gate, from a buffer satisfying the
    class invariant. *)
Lemma paCallback_accepts w block :
  g_request_stop w = false →
  CircularBuffer.wf (g_audio_buffer w) →
  isAudioAboveNoiseGate block = true →
  ∃ w', callback w (Some block) = Some (w', paContinue) ∧
        g_request_stop w' = false ∧
        CircularBuffer.wf (g_audio_buffer w') ∧
        CircularBuffer.capacity (g_audio_buffer w')
        = CircularBuffer.capacity (g_audio_buffer w) ∧
        dsp w' = (preprocessAudio block (dsp w)).2 ∧
        submissions w' = (preprocessAudio block (dsp w)).1 :: submissions w.
Proof.
  intros Hs Hw Hg. unfold paCallback. rewrite Hs, Hg. simpl.
  destruct (preprocessAudio block (dsp w)) as [audio d]. simpl.
  destruct (smoothing_stage_total (g_audio_buffer w) audio Hw)
    as (buf' & fb & -> & Hw' & Hc' & _). simpl.
  destruct (accept_waveform (recognizer w) audio) as [r st].
  pose proof (handle_status_trace partial_result final_result st r
                (g_last_partial_result_json w)
                (EvSubmit audio :: (if fb then EvFallback :: trace w else trace w)))
    as (printed & Hpr & Hall).
  destruct (handle_status _ _ _ _ _ _) as [[r' last'] tr']. simpl in Hpr.
  eexists. split; [done|]. simpl.
  split; [done|]. split; [done|]. split; [done|]. split; [done|].
  unfold submissions. simpl. rewrite Hpr, omap_app.
  replace (omap _ printed) with (@nil (list Z)).
  - simpl. by destruct fb.
  - clear Hpr. induction Hall as [|e l [line ->] _ IH]; [done|]. simpl. done.
Qed.

(** X6: once [g_request_stop] is set the callback answers
    [paComplete] for every input, [NULL] included, and changes nothing: a run
    over any blocks ends in the state it started from. *)
Theorem stop_flag_ends_processing (w : world) (blocks : list (option (list Z))) :
  g_request_stop w = true →
  run w blocks = Some w ∧
  ∀ inputBuffer, callback w inputBuffer = Some (w, paComplete).
Proof.
  intros Hs.
  assert (Hc : ∀ inputBuffer, callback w inputBuffer = Some (w, paComplete))
    by (intros; unfold paCallback; by rewrite Hs).
  split; [|done]. destruct blocks as [|b rest]; [done|].
  simpl. by rewrite Hc.
Qed.

(** X7: from a state with the stop flag clear, a buffer within its
    invariant and a gain within [0.1, 10], a run of the callback over blocks
    of any lengths, [NULL] inputs included, reaches no undefined access; the
    callback never sets the stop flag, the buffer keeps its invariant and
    capacity, and the gain stays within [0.1, 10]. *)
Theorem run_callbacks_defined (blocks : list (option (list Z))) : ∀ w,
  g_request_stop w = false →
  CircularBuffer.wf (g_audio_buffer w) →
  in_gain_range (g_current_gain (dsp w)) = true →
  ∃ w', run w blocks = Some w' ∧
        g_request_stop w' = false ∧
        CircularBuffer.wf (g_audio_buffer w') ∧
        CircularBuffer.capacity (g_audio_buffer w')
        = CircularBuffer.capacity (g_audio_buffer w) ∧
        in_gain_range (g_current_gain (dsp w')) = true.
Proof.
  induction blocks as [|b rest IH]; intros w Hs Hw Hg; [by exists w|].
  assert (Hskip : callback w b = Some (w, paContinue) →
    ∃ w', run w (b :: rest) = Some w' ∧ g_request_stop w' = false ∧
          CircularBuffer.wf (g_audio_buffer w') ∧
          CircularBuffer.capacity (g_audio_buffer w')
          = CircularBuffer.capacity (g_audio_buffer w) ∧
          in_gain_range (g_current_gain (dsp w')) = true).
  { intros Hc. simpl. rewrite Hc. simpl. by apply IH. }
  destruct b as [block|].
  - destruct (isAudioAboveNoiseGate block) eqn:Hgate.
    + destruct (paCallback_accepts w block Hs Hw Hgate)
        as (w1 & Hc & Hs1 & Hw1 & Hc1 & Hd1 & _).
      assert (Hg1 : in_gain_range (g_current_gain (dsp w1)) = true).
      { rewrite Hd1. unfold preprocessAudio.
        destruct (applyHighPassFilter _ _ _) as [[a pin] pout].
        pose proof (applyAGC_gain_in_range a _ Hg) as Ha.
        by destruct (applyAGC a _). }
      destruct (IH w1 Hs1 Hw1 Hg1) as (w' & Hr & ? & ? & Hc' & ?).
      exists w'. simpl. rewrite Hc. simpl. rewrite Hc', Hc1. done.
    + apply Hskip. unfold paCallback. by rewrite Hs, Hgate.
  - apply Hskip. unfold paCallback. by rewrite Hs.
Qed.

(** X8: the recogniser is handed exactly the preprocessed blocks
    that passed the gate, one submission per such block and in order; what
    is submitted depends on the input blocks and the filter and gain state
    only, not on the answers of the recogniser, the cache of the last
    partial result or the contents of the circular buffer. *)
Theorem run_submits_pipeline_outputs (blocks : list (option (list Z))) : ∀ w,
  g_request_stop w = false →
  CircularBuffer.wf (g_audio_buffer w) →
  ∃ w', run w blocks = Some w' ∧
        submissions w' = reverse (pipeline_outputs blocks (dsp w)) ++ submissions w.
Proof.
  induction blocks as [|b rest IH]; intros w Hs Hw; [by exists w|].
  destruct b as [block|]; simpl.
  - destruct (isAudioAboveNoiseGate block) eqn:Hgate.
    + destruct (paCallback_accepts w block Hs Hw Hgate)
        as (w1 & Hc & Hs1 & Hw1 & _ & Hd1 & Hsub).
      destruct (IH w1 Hs1 Hw1) as (w' & Hr & Hsub').
      exists w'. rewrite Hc. simpl. split; [done|].
      rewrite Hsub', Hsub, Hd1, reverse_cons, <- app_assoc. done.
    + unfold paCallback. rewrite Hs, Hgate. simpl. by apply IH.
  - unfold paCallback. rewrite Hs. simpl. by apply IH.
Qed.

(** X9: the same partial result reported twice in a row is printed
    at most once: after the status of the first has been handled, handling
    the second leaves the cache and the output as they are. *)
Theorem partial_printed_once (r1 r1' r2 r2' : Recognizer) (p last : string)
    (tr : list event) :
  partial_result r1 = (r1', Some p) →
  partial_result r2 = (r2', Some p) →
  ∃ last1 tr1,
    status_handler 0 r1 last tr = (r1', last1, tr1) ∧
    status_handler 0 r2 last1 tr1 = (r2', last1, tr1).
Proof.
  intros H1 H2. unfold handle_status. simpl. rewrite H1, H2.
  destruct (_ && _) eqn:Hc.
  - eexists _, _. split; [done|]. by rewrite String.eqb_refl, andb_false_r.
  - eexists _, _. split; [done|]. by rewrite Hc.
Qed.

(** X10: handling a final result (positive status) clears the cache
    of the last partial result whatever the recogniser returns, so the next
    printable partial result is printed even if it equals one printed
    before. *)
Theorem final_result_resets_cache (st : Z) (r1 r2 r2' : Recognizer)
    (p last : string) (tr : list event) :
  (0 < st)%Z →
  partial_result r2 = (r2', Some p) →
  20 < String.length p → not_found empty_partial_marker p = true →
  ∃ r1' tr1,
    status_handler st r1 last tr = (r1', EmptyString, tr1) ∧
    status_handler 0 r2 EmptyString tr1
    = (r2', p, EvPrint ("Partial: " ++ p) :: tr1).
Proof.
  intros Hst H2 Hlen Hm.
  assert (H1 : ∃ r1' tr1, status_handler st r1 last tr = (r1', EmptyString, tr1)).
  { unfold handle_status.
    replace (st =? 0)%Z with false by (symmetry; apply Z.eqb_neq; lia).
    replace (0 <? st)%Z with true by (symmetry; apply Z.ltb_lt; lia).
    destruct (final_result r1) as [r1' [f|]]; [|by eauto].
    destruct (_ && _); by eauto. }
  destruct H1 as (r1' & tr1 & H1). exists r1', tr1. split; [done|].
  unfold handle_status. simpl. rewrite H2, Hm.
  replace (0 <? String.length p) with true by (symmetry; apply Nat.ltb_lt; lia).
  replace (20 <? String.length p) with true by (symmetry; apply Nat.ltb_lt; lia).
  destruct p; [simpl in Hlen; lia|done].
Qed.

Lemma handle_status_lines st r last tr :
  printed_lines_ok tr → printed_lines_ok (status_handler st r last tr).2.
Proof.
  intros Htr. unfold handle_status.
  destruct (st =? 0)%Z.
  - destruct (partial_result r) as [r' [p|]]; [|done].
    destruct (_ && _) eqn:Hc; [|done]. simpl.
    apply andb_prop in Hc as [Hc H20]. apply andb_prop in Hc as [Hc _].
    apply andb_prop in Hc as [_ Hm]. apply Nat.ltb_lt in H20.
    intros line [[= ->]|Hin]%elem_of_cons; [|by apply Htr].
    left. by exists p.
  - destruct (0 <? st)%Z; [|done].
    destruct (final_result r) as [r' [f|]]; [|done].
    destruct (_ && _) eqn:Hc; [|done]. simpl.
    apply andb_prop in Hc as [H0 Hm]. apply Nat.ltb_lt in H0.
    intros line [[= ->]|Hin]%elem_of_cons; [|by apply Htr].
    right. by exists f.
Qed.

Lemma paCallback_lines w inputBuffer w' res :
  printed_lines_ok (trace w) →
  callback w inputBuffer = Some (w', res) →
  printed_lines_ok (trace w').
Proof.
  intros Htr. unfold paCallback.
  destruct (g_request_stop w); [by intros [= <- _]|].
  destruct inputBuffer as [block|]; [|by intros [= <- _]].
  destruct (isAudioAboveNoiseGate block); simpl; [|by intros [= <- _]].
  destruct (preprocessAudio block (dsp w)) as [audio d]. simpl.
  destruct (smoothing_stage _ _) as [[[buf sm] fb]|]; simpl; [|done].
  destruct (accept_waveform _ _) as [r st].
  pose proof (handle_status_lines st r (g_last_partial_result_json w)
                (EvSubmit sm :: (if fb then EvFallback :: trace w else trace w)))
    as Hl.
  destruct (handle_status _ _ _ _ _ _) as [[r' last'] tr']. simpl in Hl.
  intros [= <- _]. simpl. apply Hl.
  intros line [[=]|Hin]%elem_of_cons.
  destruct fb; [|by apply Htr].
  apply elem_of_cons in Hin as [[=]|Hin]. by apply Htr.
Qed.

(** X11: every line a run of the callback prints is either
    [Partial: ] followed by a partial result longer than 20 characters that
    does not contain the empty-partial marker, or [Final:   ] followed by a
    non-empty final result that does not contain the empty-text marker. *)
Theorem run_prints_only_results (blocks : list (option (list Z))) : ∀ w w',
  printed_lines_ok (trace w) →
  run w blocks = Some w' →
  printed_lines_ok (trace w').
Proof.
  induction blocks as [|b rest IH]; intros w w' Htr; simpl.
  - by intros [= <-].
  - destruct (callback w b) as [[w1 res]|] eqn:Hc; simpl; [|done].
    pose proof (paCallback_lines w b w1 res Htr Hc) as H1.
    destruct res; [by apply IH|by intros [= <-]].
Qed.

(** X12: a block of zero frames is below the gate (the mean is the
    NaN of 0/0 and every comparison with it is false), [preprocessAudio]
    leaves it and the filter and gain state unchanged, and the callback
    returns with the state it was given. *)
Theorem empty_block_is_inert (w : world) (d : dsp_state) :
  isAudioAboveNoiseGate [] = false ∧
  preprocessAudio [] d = ([], d) ∧
  ∃ res, callback w (Some []) = Some (w, res).
Proof.
  split; [by vm_compute|]. split.
  - destruct d as [pin pout g]. reflexivity.
  - unfold paCallback. destruct (g_request_stop w); [by eauto|].
    replace (isAudioAboveNoiseGate []) with false by (by vm_compute).
    by eauto.
Qed.

End CallbackMore.

Lemma partial_printed_once_witness :
  ∃ last1 tr1,
    handle_status (fixed_result "{ partial : one two three }") silent_result
      0 tt EmptyString [] = (tt, last1, tr1) ∧
    handle_status (fixed_result "{ partial : one two three }") silent_result
      0 tt last1 tr1 = (tt, last1, tr1).
Proof.
  apply (partial_printed_once (fixed_result "{ partial : one two three }")
           silent_result tt tt tt tt "{ partial : one two three }" EmptyString []);
    reflexivity.
Defined.

Lemma final_result_resets_cache_witness :
  ∃ r1' tr1,
    handle_status (fixed_result "{ partial : one two three }") silent_result
      1 tt "{ partial : one two three }" [] = (r1', EmptyString, tr1) ∧
    handle_status (fixed_result "{ partial : one two three }") silent_result
      0 tt EmptyString tr1
    = (tt, "{ partial : one two three }"%string,
       EvPrint "Partial: { partial : one two three }" :: tr1).
Proof.
  apply (final_result_resets_cache (fixed_result "{ partial : one two three }")
           silent_result 1 tt tt tt "{ partial : one two three }"
           "{ partial : one two three }" []).
  - lia.
  - reflexivity.
  - simpl. lia.
  - reflexivity.
Defined.

Lemma run_prints_only_results_witness :
  ∃ w', run_callbacks silent_accept (fixed_result "{ partial : one two three }")
          silent_result
          (mkWorld false EmptyString dsp_init (CircularBuffer.new 4) tt [])
          [Some [20000; -20000]%Z] = Some w' ∧
        printed_lines_ok (trace w').
Proof.
  eexists. split; [vm_compute; reflexivity|].
  apply (run_prints_only_results silent_accept
           (fixed_result "{ partial : one two three }") silent_result
           [Some [20000; -20000]%Z]
           (mkWorld false EmptyString dsp_init (CircularBuffer.new 4) tt [])).
  - intros line Hin. simpl in Hin. by apply elem_of_nil in Hin.
  - vm_compute. reflexivity.
Defined.

Lemma stop_flag_ends_processing_witness :
  run_callbacks silent_accept silent_result silent_result
    (mkWorld true EmptyString dsp_init (CircularBuffer.new 4) tt [])
    [Some [20000; -20000]%Z; None]
  = Some (mkWorld true EmptyString dsp_init (CircularBuffer.new 4) tt []).
Proof.
  apply (stop_flag_ends_processing silent_accept silent_result silent_result
           (mkWorld true EmptyString dsp_init (CircularBuffer.new 4) tt [])).
  reflexivity.
Defined.

Lemma run_callbacks_defined_witness :
  ∃ w', run_callbacks silent_accept silent_result silent_result (world_init tt)
          [Some [20000; -20000]%Z; None; Some []; Some [3]%Z] = Some w' ∧
        g_request_stop w' = false ∧
        in_gain_range (g_current_gain (dsp w')) = true.
Proof.
  destruct (run_callbacks_defined silent_accept silent_result silent_result
              [Some [20000; -20000]%Z; None; Some []; Some [3]%Z] (world_init tt))
    as (w' & Hr & Hs & _ & _ & Hg).
  - reflexivity.
  - apply CircularBuffer_wf_init.
  - reflexivity.
  - exists w'. split; [exact Hr|]. split; [exact Hs|exact Hg].
Defined.

Lemma run_submits_pipeline_outputs_witness :
  ∃ w', run_callbacks silent_accept silent_result silent_result (world_init tt)
          [Some [20000; -20000]%Z; None; Some [3]%Z] = Some w' ∧
        submissions w'
        = reverse (pipeline_outputs [Some [20000; -20000]%Z; None; Some [3]%Z]
                     dsp_init) ++ [].
Proof.
  apply (run_submits_pipeline_outputs silent_accept silent_result silent_result
           [Some [20000; -20000]%Z; None; Some [3]%Z] (world_init tt)).
  - reflexivity.
  - apply CircularBuffer_wf_init.
Defined.

(** *** The quit loop *)

Lemma is_quit_eqb c : Ascii.eqb c "q" || Ascii.eqb c "Q" = true ↔ is_quit c.
Proof.
  unfold is_quit. rewrite orb_true_iff, !Ascii.eqb_eq. done.
Qed.

(** X13: started with the flag clear, the loop of
    [checkForQuitCommand] consumes the input up to and including the first
    [q] or [Q], sets [g_request_stop] and leaves the rest unread; if the
    input ends without one, all of it is consumed and the flag stays
    clear (a newline alone never ends the loop). *)
Theorem checkForQuitCommand_spec (cin : list ascii) :
  (∃ pre c rest,
     cin = pre ++ c :: rest ∧ is_quit c ∧ Forall (fun x => ¬ is_quit x) pre ∧
     checkForQuitCommand cin false = (rest, true))
  ∨ (Forall (fun x => ¬ is_quit x) cin ∧
     checkForQuitCommand cin false = ([], false)).
Proof.
  induction cin as [|c cin IH]; [by right|].
  simpl. destruct (Ascii.eqb c "q" || Ascii.eqb c "Q") eqn:Hq.
  - left. exists [], c, cin. apply is_quit_eqb in Hq. by repeat split.
  - assert (Hnq : ¬ is_quit c) by (rewrite <- is_quit_eqb, Hq; done).
    rewrite andb_false_r.
    destruct IH as [(pre & c' & rest & -> & Hc' & Hpre & Hrun)|[Hall Hrun]].
    + left. exists (c :: pre), c', rest. repeat split; try done.
      by constructor.
    + right. split; [by constructor|done].
Qed.

(** *** The callback of [voice_basic.cpp] *)

Section BasicCallback.

Context {Recognizer : Type}.
Variable accept_waveform : Recognizer -> list Z -> Recognizer * Z.
Variable partial_result : Recognizer -> Recognizer * option string.
Variable final_result : Recognizer -> Recognizer * option string.

Lemma basic_handle_status_trace st r last tr :
  ∃ printed,
    (Basic.handle_status partial_result final_result st r last tr).2
    = printed ++ tr ∧
    Forall (fun e => ∃ line, e = EvPrint line) printed.
Proof.
  unfold Basic.handle_status.
  destruct (st =? 0)%Z.
  - destruct (partial_result r) as [r' [s|]]; simpl.
    + destruct (_ && _); simpl.
      * exists [EvPrint ("Partial: " ++ s)]. split; [done|].
        constructor; [by eexists|constructor].
      * by exists [].
    + by exists [].
  - destruct (0 <? st)%Z; [|by exists []].
    destruct (final_result r) as [r' [s|]]; simpl.
    + destruct (0 <? _); simpl.
      * exists [EvPrint ("Final:   " ++ s)]. split; [done|].
        constructor; [by eexists|constructor].
      * by exists [].
    + by exists [].
Qed.

(** X14: the callback of [voice_basic.cpp] hands every non-[NULL]
    block to the recogniser unchanged, in order, whatever the recogniser
    answers. *)
Theorem basic_submits_every_block (blocks : list (option (list Z))) :
  ∀ w : Basic.world,
  Basic.g_request_stop w = false →
  Basic.submissions
    (Basic.run_callbacks accept_waveform partial_result final_result w blocks)
  = reverse (omap id blocks) ++ Basic.submissions w.
Proof.
  induction blocks as [|b rest IH]; intros w Hs; [done|].
  simpl. unfold Basic.paCallback. rewrite Hs.
  destruct b as [block|]; [|by apply IH].
  destruct (accept_waveform _ _) as [r st].
  pose proof (basic_handle_status_trace st r (Basic.g_last_partial_result_json w)
                (EvSubmit block :: Basic.trace w)) as (printed & Hpr & Hall).
  destruct (Basic.handle_status _ _ _ _ _ _) as [[r' last'] tr']. simpl in Hpr.
  rewrite IH by done. simpl. rewrite reverse_cons, <- app_assoc. f_equal.
  unfold Basic.submissions. simpl. rewrite Hpr, omap_app.
  replace (omap _ printed) with (@nil (list Z)); [done|].
  clear Hpr. induction Hall as [|e l [line ->] _ IHl]; [done|]. simpl. done.
Qed.

(** X15: on the same status, recogniser and cache, the status
    handling of [voice_w_cbuff.cpp] leaves the recogniser as that of
    [voice_basic.cpp] does, and either prints nothing or does exactly what
    the basic one does. *)
Theorem enhanced_prints_less_than_basic (st : Z) (r : Recognizer)
    (last : string) (tr : list event) :
  (handle_status partial_result final_result st r last tr).1.1
  = (Basic.handle_status partial_result final_result st r last tr).1.1 ∧
  ((handle_status partial_result final_result st r last tr).2 = tr ∨
   handle_status partial_result final_result st r last tr
   = Basic.handle_status partial_result final_result st r last tr).
Proof.
  unfold handle_status, Basic.handle_status.
  destruct (st =? 0)%Z.
  - destruct (partial_result r) as [r' [p|]]; [|by split; [|left]].
    destruct (20 <? String.length p).
    + rewrite andb_true_r. split; [by destruct (_ && _)|by right].
    + rewrite andb_false_r. split; [by destruct (_ && _)|by left].
  - destruct (0 <? st)%Z; [|by split; [|left]].
    destruct (final_result r) as [r' [f|]]; [|by split; [|left]].
    destruct (0 <? String.length f); simpl; [|by split; [|left]].
    destruct (not_found empty_text_marker f); by split; [|auto].
Qed.

End BasicCallback.

Lemma basic_submits_every_block_witness :
  Basic.submissions
    (Basic.run_callbacks silent_accept silent_result silent_result
       (Basic.mkWorld false EmptyString tt [])
       [Some [1; 2]%Z; None; Some []; Some [3]%Z])
  = [[3]; []; [1; 2]]%Z.
Proof.
  apply (basic_submits_every_block silent_accept silent_result silent_result
           [Some [1; 2]%Z; None; Some []; Some [3]%Z]
           (Basic.mkWorld false EmptyString tt [])).
  reflexivity.
Defined.

(** *** [main] *)

Lemma outcomes_cases (P : outcomes → Prop) :
  (∀ b1 b2 b3 b4 b5 b6 b7 b8 f, P (mkOutcomes b1 b2 b3 b4 b5 b6 b7 b8 f)) →
  ∀ o, P o.
Proof. intros H []. apply H. Qed.

Lemma final_result_and_cleanup_releases o :
  omap releases (final_result_and_cleanup o) = [RecognizerHandle; Model] ∧
  no_use_after_free (final_result_and_cleanup o) = true ∧
  omap basic_counterpart (final_result_and_cleanup o) = final_result_and_cleanup o.
Proof.
  unfold final_result_and_cleanup.
  destruct (final_buffered_result_json o) as [json|]; [|done].
  by destruct (_ && _).
Qed.

(** The quit loop sets the flag exactly when the input holds a [q] or
    [Q]. *)
Lemma checkForQuitCommand_stop cin :
  ((checkForQuitCommand cin false).2 = true ↔ Exists is_quit cin) ∧
  ((checkForQuitCommand cin false).2 = false ↔ Forall (fun x => ¬ is_quit x) cin).
Proof.
  induction cin as [|c cin [IH1 IH2]].
  - split; split; try done. by intros ?%Exists_nil.
  - simpl. destruct (Ascii.eqb c "q" || Ascii.eqb c "Q") eqn:Hq.
    + apply is_quit_eqb in Hq. split; split; try done.
      * intros _. by left.
      * intros [Hn _]%Forall_cons. done.
    + assert (Hnq : ¬ is_quit c) by (rewrite <- is_quit_eqb, Hq; done).
      rewrite andb_false_r. split.
      * rewrite IH1, Exists_cons. tauto.
      * rewrite IH2, Forall_cons. tauto.
Qed.

(** X16: [main] returns with status 1 exactly when one of the six setup
    steps fails, and with status 0 exactly when they all succeed and the
    console input holds a [q] or [Q]; when they all succeed and the input
    ends without one, [main] never returns.  No other status is returned,
    and a failure of [Pa_StopStream] or [Pa_CloseStream] changes
    nothing. *)
Theorem main_exit_status (o : outcomes) (cin : list ascii) :
  (∀ calls status, main o cin = returns calls status →
     status = 0%Z ∨ status = 1%Z) ∧
  ((∃ calls, main o cin = returns calls 1) ↔ all_setup_succeeds o = false) ∧
  ((∃ calls, main o cin = returns calls 0)
   ↔ all_setup_succeeds o = true ∧ Exists is_quit cin) ∧
  ((∃ calls, main o cin = never_returns calls)
   ↔ all_setup_succeeds o = true ∧ Forall (fun x => ¬ is_quit x) cin).
Proof.
  destruct (checkForQuitCommand_stop cin) as [Hq Hnq].
  revert o. apply outcomes_cases. intros b1 b2 b3 b4 b5 b6 b7 b8 f.
  unfold main, all_setup_succeeds. cbn [model_loaded recognizer_created
    pa_initialized device_found stream_opened stream_started].
  destruct b1, b2, b3, b4, b5, b6; cbn [negb andb].
  all: try solve
    [ split; [intros ?? [= _ <-]; by right|];
      (split; [split; [done|intros _; by eexists]|]);
      split; split; try done; by intros [? ?] ].
  destruct (checkForQuitCommand cin false).2 eqn:Hstop.
  - split; [intros ?? [= _ <-]; by left|].
    split; [split; [by intros [? ?]|done]|].
    split; split.
    + intros _. split; [done|]. by apply Hq.
    + intros _. by eexists.
    + by intros [? ?].
    + intros [_ Hall]. apply Hnq in Hall. done.
  - split; [by intros ?? ?|].
    split; [split; [by intros [? ?]|done]|].
    split; split.
    + by intros [? ?].
    + intros [_ Hex]. apply Hq in Hex. done.
    + intros _. split; [done|]. by apply Hnq.
    + intros _. by eexists.
Qed.

(** X17: when [main] returns, in either program, each resource obtained
    (model, recogniser, PortAudio, stream) has been released exactly once,
    in the reverse of the order of acquisition, and nothing that was not
    obtained has been released; when [main] never returns, all four are
    held and none has been released. *)
Theorem main_releases_in_reverse (o : outcomes) (cin : list ascii) :
  (∀ calls status, main o cin = returns calls status →
     omap releases calls = reverse (acquired o)) ∧
  (∀ calls status, basic_main o cin = returns calls status →
     omap releases calls = reverse (acquired o)) ∧
  (∀ calls, main o cin = never_returns calls →
     omap releases calls = [] ∧
     acquired o = [Model; RecognizerHandle; PortAudioLibrary; Stream]) ∧
  (∀ calls, basic_main o cin = never_returns calls →
     omap releases calls = [] ∧
     acquired o = [Model; RecognizerHandle; PortAudioLibrary; Stream]).
Proof.
  revert o. apply outcomes_cases. intros b1 b2 b3 b4 b5 b6 b7 b8 f.
  pose proof (final_result_and_cleanup_releases
                (mkOutcomes b1 b2 b3 b4 b5 b6 b7 b8 f)) as (Hf & _ & _).
  unfold main, basic_main, acquired, shutdown.
  destruct b1, b2, b3, b4, b5, b6, (checkForQuitCommand cin false).2;
    cbn -[final_result_and_cleanup];
    (split; [|split; [|split]]); intros; simplify_eq;
    cbn -[final_result_and_cleanup]; rewrite ?Hf; done.
Qed.

(** X18: in every run of [main], of either program, whether it returns or
    not, no call uses the recogniser after [vosk_recognizer_free]; and when
    [main] returns 0 the buffered result is fetched (and printed only if it
    is non-empty and without the empty-text marker) before the recogniser
    and the model are freed, nothing before that having freed either. *)
Theorem main_no_use_after_free (o : outcomes) (cin : list ascii) :
  no_use_after_free (calls_of (main o cin)) = true ∧
  no_use_after_free (calls_of (basic_main o cin)) = true ∧
  (∀ calls, main o cin = returns calls 0 →
     ∃ pre, calls = pre ++ final_result_and_cleanup o ∧
            Forall (fun c => releases c ≠ Some RecognizerHandle
                             ∧ releases c ≠ Some Model) pre).
Proof.
  revert o. apply outcomes_cases. intros b1 b2 b3 b4 b5 b6 b7 b8 f.
  pose proof (final_result_and_cleanup_releases
                (mkOutcomes b1 b2 b3 b4 b5 b6 b7 b8 f)) as (_ & Hf & _).
  unfold main, basic_main, shutdown.
  split; [|split].
  - destruct b1, b2, b3, b4, b5, b6, (checkForQuitCommand cin false).2;
      cbn -[final_result_and_cleanup]; done.
  - destruct b1, b2, b3, b4, b5, b6, (checkForQuitCommand cin false).2;
      cbn -[final_result_and_cleanup]; done.
  - destruct b1, b2, b3, b4, b5, b6, (checkForQuitCommand cin false).2;
      cbn -[final_result_and_cleanup]; intros calls Hr; simplify_eq.
    eexists (_ :: _ :: _ :: _ :: _ :: _ :: _ :: _ :: _ :: _ :: _ :: _ :: _ :: _
             :: []).
    split; [reflexivity|]. repeat constructor; done.
Qed.


Lemma main_no_use_after_free_witness :
  ∃ pre,
    calls_of (main (mkOutcomes true true true true true true false false
                      (Some "{ text : hello }"%string))
                ["x"; "q"; newline]%char)
    = pre ++ [vosk_recognizer_final_result;
              print_final_on_exit "{ text : hello }"%string;
              vosk_recognizer_free; vosk_model_free] ∧
    Forall (fun c => releases c ≠ Some RecognizerHandle
                     ∧ releases c ≠ Some Model) pre.
Proof.
  apply (proj2 (proj2 (main_no_use_after_free
           (mkOutcomes true true true true true true false false
              (Some "{ text : hello }"%string))
           ["x"; "q"; newline]%char))).
  reflexivity.
Defined.

(** *** The range of the samples written back *)

Section Rounding.

Local Open Scope Z_scope.

Variables prec emax : Z.
Hypothesis Hprec : 0 < prec.

Lemma shr_m_shr_1 r : 0 <= shr_m r -> shr_m (shr_1 r) = shr_m r / 2.
Proof.
  destruct r as [m rb sb]. simpl. intros H.
  destruct m as [|[p|p|]|p]; cbn [shr_m].
  - reflexivity.
  - symmetry. apply Zpos_xI_div2.
  - symmetry. apply Zpos_xO_div2.
  - reflexivity.
  - lia.
Qed.

Lemma shr_m_iter_shr_1 p : forall r,
  0 <= shr_m r -> shr_m (SpecFloat.iter_pos shr_1 p r) = shr_m r / 2 ^ Zpos p.
Proof.
  induction p as [p IH|p IH|]; intros r H; simpl SpecFloat.iter_pos.
  - assert (H1 : 0 <= shr_m (shr_1 r))
      by (rewrite shr_m_shr_1 by done; apply Z.div_pos; lia).
    assert (H2 : 0 <= shr_m (SpecFloat.iter_pos shr_1 p (shr_1 r)))
      by (rewrite IH by done; apply Z.div_pos; lia).
    rewrite IH, IH, shr_m_shr_1 by done.
    rewrite !Z.div_div by lia.
    f_equal. replace (Z.pos p~1) with (Z.pos p + Z.pos p + 1) by lia.
    rewrite !Z.pow_add_r by lia. change (2 ^ 1) with 2. lia.
  - assert (H2 : 0 <= shr_m (SpecFloat.iter_pos shr_1 p r))
      by (rewrite IH by done; apply Z.div_pos; lia).
    rewrite IH, IH by done.
    rewrite !Z.div_div by lia.
    f_equal. replace (Z.pos p~0) with (Z.pos p + Z.pos p) by lia.
    rewrite Z.pow_add_r by lia. lia.
  - by apply shr_m_shr_1.
Qed.

(** After [shr_fexp] the significand is below [2 ^ prec]. *)
Lemma shr_fexp_lt m e l :
  0 <= m -> 0 <= shr_m (shr_fexp prec emax m e l).1 < 2 ^ prec.
Proof.
  intros Hm. unfold shr_fexp, shr.
  assert (Hd : Zdigits2 m - prec <= fexp prec emax (Zdigits2 m + e) - e)
    by (unfold fexp; lia).
  assert (Hlt : forall k, 0 <= k -> Zdigits2 m - prec <= k -> m / 2 ^ k < 2 ^ prec).
  { intros k Hk Hdk. destruct (Z.eq_dec m 0) as [->|Hne].
    - rewrite Z.div_0_l by lia. lia.
    - destruct (Zdigits2_bounds m ltac:(lia)) as [Hd0 [_ Hub]].
      apply Z.div_lt_upper_bound; [lia|].
      rewrite <- Z.pow_add_r by lia.
      eapply Z.lt_le_trans; [exact Hub|].
      apply Z.pow_le_mono_r; lia. }
  destruct (fexp prec emax (Zdigits2 m + e) - e) as [|p|p] eqn:Hn; simpl.
  - rewrite shr_m_shr_record_of_loc. split; [done|].
    specialize (Hlt 0 ltac:(lia) ltac:(lia)). by rewrite Z.div_1_r in Hlt.
  - rewrite shr_m_iter_shr_1 by (by rewrite shr_m_shr_record_of_loc).
    rewrite shr_m_shr_record_of_loc. split.
    + apply Z.div_pos; lia.
    + apply Hlt; lia.
  - rewrite shr_m_shr_record_of_loc. split; [done|].
    specialize (Hlt 0 ltac:(lia) ltac:(lia)). by rewrite Z.div_1_r in Hlt.
Qed.

Lemma round_nearest_even_ge m l : m <= round_nearest_even m l.
Proof.
  unfold round_nearest_even. destruct l as [|[]]; try lia.
  destruct (Z.even m); lia.
Qed.

(** Rounding never yields a NaN, keeps the sign, and leaves a significand
    below [2 ^ prec]. *)
Lemma binary_round_aux_cases s m e l :
  0 <= m ->
  binary_round_aux prec emax s m e l = S754_zero s ∨
  binary_round_aux prec emax s m e l = S754_infinity s ∨
  ∃ m' e', binary_round_aux prec emax s m e l = S754_finite s m' e' ∧
           Zpos m' < 2 ^ prec.
Proof.
  intros Hm. unfold binary_round_aux.
  pose proof (shr_fexp_lt m e l Hm) as H1.
  destruct (shr_fexp prec emax m e l) as [r1 e1]. simpl in H1.
  pose proof (round_nearest_even_ge (shr_m r1) (loc_of_shr_record r1)) as Hr.
  pose proof (shr_fexp_lt (round_nearest_even (shr_m r1) (loc_of_shr_record r1))
                e1 loc_Exact ltac:(lia)) as H2.
  destruct (shr_fexp prec emax _ e1 loc_Exact) as [r2 e2]. simpl in H2.
  destruct (shr_m r2) as [|m'|m']; [by left| |lia].
  destruct (e2 <=? emax - prec); [|by right; left].
  right; right. exists m', e2. split; [done|lia].
Qed.

Lemma binary_round_cases s m e :
  binary_round prec emax s m e = S754_zero s ∨
  binary_round prec emax s m e = S754_infinity s ∨
  ∃ m' e', binary_round prec emax s m e = S754_finite s m' e' ∧
           Zpos m' < 2 ^ prec.
Proof.
  unfold binary_round. destruct (shl_align _ _ _) as [mz ez].
  apply binary_round_aux_cases. lia.
Qed.

End Rounding.

Lemma SFmul_fits x y : fits_float (Binary32.mul x y).
Proof.
  unfold Binary32.mul, Binary32.prec, Binary32.emax, SFmul.
  destruct x as [sx|sx| |sx mx ex], y as [sy|sy| |sy my ey]; try exact I.
  destruct (binary_round_aux_cases 24 128 ltac:(lia) (xorb sx sy)
              (Zpos (mx * my)) (ex + ey) loc_Exact ltac:(lia))
    as [-> | [-> | (m' & e' & -> & Hm)]]; try exact I.
  exact Hm.
Qed.

Lemma of_Z_sign x :
  (x = 0%Z ∧ Binary32.of_Z x = S754_zero false) ∨
  ((0 < x)%Z ∧ has_sign false (Binary32.of_Z x)) ∨
  ((x < 0)%Z ∧ has_sign true (Binary32.of_Z x)).
Proof.
  unfold Binary32.of_Z, Binary32.prec, Binary32.emax, binary_normalize. destruct x as [|p|p].
  - by left.
  - right; left. split; [lia|].
    destruct (binary_round_cases 24 128 ltac:(lia) false p 0)
      as [-> | [-> | (m' & e' & -> & _)]]; done.
  - right; right. split; [lia|].
    destruct (binary_round_cases 24 128 ltac:(lia) true p 0)
      as [-> | [-> | (m' & e' & -> & _)]]; done.
Qed.

Lemma SFmul_sign s x m e :
  has_sign s x → has_sign s (Binary32.mul x (S754_finite false m e)).
Proof.
  unfold Binary32.mul, Binary32.prec, Binary32.emax, SFmul.
  destruct x as [sx|sx| |sx mx ex]; simpl; try done.
  - intros ->. by destruct s.
  - intros ->. by destruct s.
  - intros ->.
    destruct (binary_round_aux_cases 24 128 ltac:(lia) (xorb s false)
                (Zpos (mx * m)) (ex + e) loc_Exact ltac:(lia))
      as [-> | [-> | (m' & e' & -> & _)]]; by destruct s.
Qed.

Lemma f32767_value : f32767 = S754_finite false 16776704 (-9).
Proof. reflexivity. Qed.
Lemma fm32768_value : fm32768 = S754_finite true 8388608 (-8).
Proof. reflexivity. Qed.

Lemma SFltb_finite_neg m1 e1 m2 e2 :
  SFltb (S754_finite true m1 e1) (S754_finite true m2 e2) = true
  ↔ (e2 < e1)%Z ∨ (e1 = e2 ∧ (Zpos m2 < Zpos m1)%Z).
Proof.
  unfold SFltb, SFcompare.
  destruct (Z.compare_spec e1 e2) as [->|Hlt|Hgt].
  - rewrite Pos.compare_antisym, CompOpp_involutive.
    destruct (Pos.compare_spec m2 m1) as [->|H|H]; split; try done; try lia.
    all: intros _; right; split; [done|lia].
  - split; [done|lia].
  - split; [intros _; left; lia|done].
Qed.

Lemma shiftl_neg_bound m k b :
  (0 < k)%Z → (Zpos m < b * 2 ^ k)%Z → (0 <= Z.shiftl (Zpos m) (- k) < b)%Z.
Proof.
  intros Hk Hm. rewrite Z.shiftl_opp_r, Z.shiftr_div_pow2 by lia. split.
  - apply Z.div_pos; lia.
  - apply Z.div_lt_upper_bound; lia.
Qed.

(** Clamping and truncating a value whose significand fits gives a value
    of the range of [short]. *)
Lemma hp_store_short x : fits_float x → is_short (hp_store x).
Proof.
  unfold hp_store, clamp16, std_max, std_min, is_short.
  rewrite f32767_value, fm32768_value.
  destruct x as [[]|[]| |[] m e].
  1-5: intros _; vm_compute; split; discriminate.
  - (* negative *)
    simpl fits_float. intros Hm.
    replace (flt (S754_finite true m e) (S754_finite false 16776704 (-9)))
      with true by done.
    destruct (flt _ (S754_finite true m e)) eqn:Hlo;
      [|vm_compute; split; discriminate].
    apply SFltb_finite_neg in Hlo. simpl float_to_short.
    assert (Hb : (0 <= Z.shiftl (Zpos m) e < 32768)%Z).
    { replace e with (- (- e))%Z by lia. apply shiftl_neg_bound; [lia|].
      destruct Hlo as [He|[<- Hm8]].
      - eapply Z.lt_le_trans; [exact Hm|].
        change (2 ^ 24)%Z with (32768 * 2 ^ 9)%Z.
        apply Z.mul_le_mono_nonneg_l; [lia|]. apply Z.pow_le_mono_r; lia.
      - simpl. lia. }
    lia.
  - (* positive *)
    simpl fits_float. intros Hm.
    destruct (flt (S754_finite false m e) _) eqn:Hhi.
    + replace (flt (S754_finite true 8388608 (-8)) (S754_finite false m e))
        with true by done.
      apply SFltb_finite_pos in Hhi. simpl float_to_short.
      assert (Hb : (0 <= Z.shiftl (Zpos m) e < 32767)%Z).
      { replace e with (- (- e))%Z by lia. apply shiftl_neg_bound; [lia|].
        destruct Hhi as [He|[-> Hm9]].
        - eapply Z.lt_le_trans; [exact Hm|].
          assert (2 ^ 10 <= 2 ^ (- e))%Z by (apply Z.pow_le_mono_r; lia).
          change (2 ^ 24)%Z with (16384 * 2 ^ 10)%Z. nia.
        - simpl. lia. }
      lia.
    + vm_compute; split; discriminate.
Qed.

Lemma hp_outputs_fit xs : ∀ pin pout, Forall fits_float (hp_outputs xs pin pout).
Proof.
  induction xs as [|x xs IH]; intros pin pout; cbn [hp_outputs]; constructor.
  - apply SFmul_fits.
  - apply IH.
Qed.

Lemma applyHighPassFilter_shorts xs pin pout :
  Forall is_short (applyHighPassFilter xs pin pout).1.1.
Proof.
  rewrite applyHighPassFilter_eq. simpl.
  apply Forall_fmap. eapply Forall_impl; [apply hp_outputs_fit|].
  intros y Hy. by apply hp_store_short.
Qed.

Lemma applyAGC_shorts audio g :
  Forall is_short audio → Forall is_short (applyAGC audio g).1.
Proof.
  intros Ha. rewrite applyAGC_eq. destruct (flt _ _); simpl; [|done].
  apply Forall_fmap, Forall_forall. intros x _.
  apply (hp_store_short (Binary32.mul (Binary32.of_Z x) _)), SFmul_fits.
Qed.

Lemma preprocessAudio_shorts audio d : Forall is_short (preprocessAudio audio d).1.
Proof.
  unfold preprocessAudio.
  pose proof (applyHighPassFilter_shorts audio (prev_input d) (prev_output d)) as Hh.
  destruct (applyHighPassFilter _ _ _) as [[a pin] pout]. simpl in Hh.
  pose proof (applyAGC_shorts a (g_current_gain d) Hh) as Ha.
  by destruct (applyAGC _ _).
Qed.

(** X20: for every block and every filter state, NaN and
    infinities included, each sample [applyHighPassFilter] writes back lies
    in the range of [short], so the conversion [static_cast<short>] is
    always defined; the block keeps its length. *)
Theorem applyHighPassFilter_stores_shorts (xs : list Z) (pin pout : float) :
  length (applyHighPassFilter xs pin pout).1.1 = length xs ∧
  Forall is_short (applyHighPassFilter xs pin pout).1.1.
Proof.
  split; [apply length_applyHighPassFilter|apply applyHighPassFilter_shorts].
Qed.

(** X21: for every gain, [applyAGC] maps a block of 16-bit samples
    to a block of 16-bit samples of the same length: the conversion of the
    clamped product is always defined. *)
Theorem applyAGC_stores_shorts (audio : list Z) (g : float) :
  Forall is_short audio →
  length (applyAGC audio g).1 = length audio ∧
  Forall is_short (applyAGC audio g).1.
Proof.
  intros Ha. split; [apply length_applyAGC|by apply applyAGC_shorts].
Qed.

Lemma applyAGC_stores_shorts_witness :
  Forall is_short (applyAGC [30000; -30000; 12]%Z f10).1.
Proof.
  apply (applyAGC_stores_shorts [30000; -30000; 12]%Z f10).
  repeat constructor; unfold is_short; lia.
Defined.

(** X22: every block the pipeline produces for the recogniser
    consists of samples in the range of [short], for all input blocks and
    every filter and gain state. *)
Theorem recognizer_receives_shorts (blocks : list (option (list Z))) :
  ∀ d : dsp_state, Forall (Forall is_short) (pipeline_outputs blocks d).
Proof.
  induction blocks as [|[block|] rest IH]; intros d; simpl; [constructor| |apply IH].
  destruct (isAudioAboveNoiseGate block); [|apply IH].
  constructor; [apply preprocessAudio_shorts|apply IH].
Qed.

Lemma clamp_gain_positive v : ∃ m e, clamp_gain v = S754_finite false m e.
Proof.
  unfold clamp_gain, std_max, std_min.
  change f10 with (S754_finite false 10485760 (-20)).
  unfold f0_1.
  destruct v as [[]|[]| |[] m e]; try (by eexists _, _).
  destruct (flt (S754_finite false m e) _).
  - destruct (flt _ (S754_finite false m e)); by eexists _, _.
  - by eexists _, _.
Qed.

Lemma hp_store_sign s x :
  has_sign s x → if s then (hp_store x <= 0)%Z else (0 <= hp_store x)%Z.
Proof.
  unfold hp_store, clamp16, std_max, std_min.
  rewrite f32767_value, fm32768_value.
  destruct x as [s'|s'| |s' m e]; simpl has_sign; [| |done|]; intros ->.
  - by destruct s.
  - by destruct s.
  - destruct s.
    + replace (flt (S754_finite true m e) (S754_finite false 16776704 (-9)))
        with true by done.
      destruct (flt _ (S754_finite true m e)); [|done].
      simpl. pose proof (Z.shiftl_nonneg (Zpos m) e). lia.
    + destruct (flt (S754_finite false m e) _); [|done].
      replace (flt (S754_finite true 8388608 (-8)) (S754_finite false m e))
        with true by done.
      simpl. apply Z.shiftl_nonneg. lia.
Qed.

(** X23: [applyAGC] never changes the polarity of a sample: a
    non-negative sample stays non-negative, a non-positive one non-positive,
    and zero stays zero, for every block and gain. *)
Theorem applyAGC_keeps_polarity (audio : list Z) (g : float) (i : nat) (x y : Z) :
  audio !! i = Some x → (applyAGC audio g).1 !! i = Some y →
  ((0 <= x)%Z → (0 <= y)%Z) ∧ ((x <= 0)%Z → (y <= 0)%Z).
Proof.
  intros Hx. rewrite applyAGC_eq. destruct (flt _ _); simpl.
  - rewrite list_lookup_fmap, Hx. simpl. intros [= <-].
    destruct (clamp_gain_positive
                (g + (agc_desired_gain (agc_level audio) - g) * AGC_ADJUSTMENT_RATE)%f32)
      as (mg & eg & Hg).
    unfold agc_new_gain. rewrite Hg.
    fold (hp_store (Binary32.mul (Binary32.of_Z x) (S754_finite false mg eg))).
    destruct (of_Z_sign x) as [[-> ->]|[[Hpos Hs]|[Hneg Hs]]].
    + by vm_compute.
    + pose proof (hp_store_sign false _ (SFmul_sign false _ mg eg Hs)) as H.
      simpl in H. lia.
    + pose proof (hp_store_sign true _ (SFmul_sign true _ mg eg Hs)) as H.
      simpl in H. lia.
  - rewrite Hx. intros [= <-]. lia.
Qed.

Lemma applyAGC_keeps_polarity_witness :
  ∃ y, (applyAGC [30000; -30000; 12]%Z f10).1 !! 1 = Some y ∧ (y <= 0)%Z.
Proof.
  eexists. split; [vm_compute; reflexivity|].
  apply (applyAGC_keeps_polarity [30000; -30000; 12]%Z f10 1 (-30000)%Z);
    [reflexivity|vm_compute; reflexivity|lia].
Defined.

(** *** The gate as a function of the block *)

Section GateMore.
Local Open Scope Z_scope.

Lemma sum_squares_Permutation a b : a ≡ₚ b → sum_squares a = sum_squares b.
Proof.
  unfold sum_squares.
  induction 1 as [|x a b _ IH|x y a|a b c _ IH1 _ IH2]; simpl; lia.
Qed.

Lemma sum_squares_le a b :
  Forall2 (fun x y => Z.abs x <= Z.abs y) a b → sum_squares a <= sum_squares b.
Proof.
  unfold sum_squares. induction 1 as [|x y a b Hxy _ IH]; simpl; [lia|nia].
Qed.

(** X24: for blocks of 1 to 2^23 - 1 16-bit samples the decision
    of the gate does not depend on the order of the samples, although the
    sum is accumulated in floating point. *)
Theorem noise_gate_order_independent (a b : list Z) :
  a ≡ₚ b → Forall is_short a → 0 < Z.of_nat (length a) < 8388608 →
  isAudioAboveNoiseGate a = isAudioAboveNoiseGate b.
Proof.
  intros Hp Ha Hn.
  assert (Hb : Forall is_short b) by (by rewrite <- Hp).
  assert (Hl : length b = length a) by (by rewrite Hp).
  pose proof (noise_gate_exact a Ha Hn) as H1.
  pose proof (noise_gate_exact b Hb ltac:(rewrite Hl; lia)) as H2.
  rewrite Hl, <- (sum_squares_Permutation a b Hp) in H2.
  destruct (isAudioAboveNoiseGate a), (isAudioAboveNoiseGate b); try done.
  - symmetry. apply H2, H1. done.
  - apply H1, H2. done.
Qed.

(** X25: for blocks of 1 to 2^23 - 1 16-bit samples the gate is
    monotone in the magnitudes: if a block passes, every block whose samples
    are at least as large in absolute value, position by position, passes
    too (in particular the signs do not matter). *)
Theorem noise_gate_monotone (a b : list Z) :
  Forall2 (fun x y => Z.abs x <= Z.abs y) a b →
  Forall is_short a → Forall is_short b →
  0 < Z.of_nat (length a) < 8388608 →
  isAudioAboveNoiseGate a = true → isAudioAboveNoiseGate b = true.
Proof.
  intros Hab Ha Hb Hn Hg.
  assert (Hl : length b = length a) by (symmetry; by eapply Forall2_length).
  apply (noise_gate_exact b Hb); [rewrite Hl; lia|].
  apply (noise_gate_exact a Ha Hn) in Hg.
  pose proof (sum_squares_le a b Hab). rewrite Hl. lia.
Qed.

Lemma sum_squares_bounds_by_amplitude (lo hi : Z) a :
  0 <= lo → Forall (fun x => lo <= Z.abs x <= hi) a →
  lo * lo * Z.of_nat (length a) <= sum_squares a <= hi * hi * Z.of_nat (length a).
Proof.
  intros Hlo. unfold sum_squares.
  induction 1 as [|x a Hx _ IH]; [simpl; lia|].
  cbn [foldr length]. rewrite Nat2Z.inj_succ.
  assert (lo * lo <= x * x <= hi * hi) by nia. lia.
Qed.

(** X26: a block of 1 to 2^23 - 1 16-bit samples all within
    [-500, 500] is below the gate, and a block whose samples all exceed 500
    in absolute value is above it. *)
Theorem noise_gate_by_amplitude (a : list Z) :
  Forall is_short a → 0 < Z.of_nat (length a) < 8388608 →
  (Forall (fun x => Z.abs x <= 500) a → isAudioAboveNoiseGate a = false) ∧
  (Forall (fun x => 500 < Z.abs x) a → isAudioAboveNoiseGate a = true).
Proof.
  intros Ha Hn. pose proof (noise_gate_exact a Ha Hn) as He. split.
  - intros Hq.
    destruct (sum_squares_bounds_by_amplitude 0 500 a ltac:(lia)) as [_ Hub].
    { eapply Forall_impl; [exact Hq|]. intros x Hx. simpl in Hx. lia. }
    destruct (isAudioAboveNoiseGate a); [|done].
    pose proof (proj1 He eq_refl). lia.
  - intros Hl.
    destruct (sum_squares_bounds_by_amplitude 501 32768 a ltac:(lia)) as [Hlb _].
    { rewrite Forall_forall in Ha, Hl. apply Forall_forall. intros x Hx.
      specialize (Ha x Hx). specialize (Hl x Hx). unfold is_short in Ha.
      simpl in Hl. lia. }
    apply He. lia.
Qed.

End GateMore.

Lemma noise_gate_order_independent_witness :
  isAudioAboveNoiseGate [600; -600; 400; 400]%Z
  = isAudioAboveNoiseGate [-600; 600; 400; 400]%Z.
Proof.
  apply noise_gate_order_independent.
  - apply perm_swap.
  - repeat constructor; unfold is_short; lia.
  - simpl. lia.
Defined.

Lemma noise_gate_monotone_witness :
  isAudioAboveNoiseGate [700; -900; 400; -401]%Z = true.
Proof.
  apply (noise_gate_monotone [600; -600; 400; 400]%Z).
  - repeat constructor; lia.
  - repeat constructor; unfold is_short; lia.
  - repeat constructor; unfold is_short; lia.
  - simpl. lia.
  - vm_compute. reflexivity.
Defined.

Lemma noise_gate_by_amplitude_witness :
  isAudioAboveNoiseGate [500; -500; 499]%Z = false ∧
  isAudioAboveNoiseGate [501; -501; 502]%Z = true.
Proof.
  destruct (noise_gate_by_amplitude [500; -500; 499]%Z) as [Hq _].
  { repeat constructor; unfold is_short; lia. }
  { simpl. lia. }
  destruct (noise_gate_by_amplitude [501; -501; 502]%Z) as [_ Hl].
  { repeat constructor; unfold is_short; lia. }
  { simpl. lia. }
  split; [apply Hq|apply Hl]; repeat constructor; lia.
Defined.

(** *** The gain stage as a function of the block *)

Lemma sum_abs_Permutation a b : a ≡ₚ b → sum_abs a = sum_abs b.
Proof.
  unfold sum_abs.
  induction 1 as [|x a b _ IH|x y a|a b c _ IH1 _ IH2]; simpl; lia.
Qed.

(** X27: for blocks of 1 to 2^23 - 1 16-bit samples the gain
    [applyAGC] settles on does not depend on the order of the samples, and
    reordering the input reorders the output in the same way: the two
    results are permutations of each other. *)
Theorem applyAGC_order_independent (a b : list Z) (g : float) :
  a ≡ₚ b → Forall is_short a → (0 < Z.of_nat (length a) < 8388608)%Z →
  (applyAGC a g).2 = (applyAGC b g).2 ∧ (applyAGC a g).1 ≡ₚ (applyAGC b g).1.
Proof.
  intros Hp Ha Hn.
  assert (Hb : Forall is_short b) by (by rewrite <- Hp).
  assert (Hl : length b = length a) by (by rewrite Hp).
  assert (Hlevel : agc_level a = agc_level b).
  { rewrite (agc_level_exact a Ha Hn).
    rewrite (agc_level_exact b Hb) by (rewrite Hl; lia).
    by rewrite Hl, (sum_abs_Permutation a b Hp). }
  rewrite !applyAGC_eq, <- Hlevel. destruct (flt _ _); simpl; [|done].
  split; [done|]. by apply fmap_Permutation.
Qed.

Lemma applyAGC_order_independent_witness :
  (applyAGC [3000; -200; 12]%Z f1).2 = (applyAGC [-200; 3000; 12]%Z f1).2 ∧
  (applyAGC [3000; -200; 12]%Z f1).1 ≡ₚ (applyAGC [-200; 3000; 12]%Z f1).1.
Proof.
  apply applyAGC_order_independent.
  - apply perm_swap.
  - repeat constructor; unfold is_short; lia.
  - simpl. lia.
Defined.

(** *** What the circular buffer holds *)

Section CallbackBuffer.

Context {Recognizer : Type}.
Variable accept_waveform : Recognizer -> list Z -> Recognizer * Z.
Variable partial_result : Recognizer -> Recognizer * option string.
Variable final_result : Recognizer -> Recognizer * option string.

Local Abbreviation callback :=
  (paCallback accept_waveform partial_result final_result).
Local Abbreviation run :=
  (run_callbacks accept_waveform partial_result final_result).

Lemma paCallback_pushes w block l :
  g_request_stop w = false →
  CircularBuffer.recent (g_audio_buffer w) l →
  isAudioAboveNoiseGate block = true →
  ∃ w', callback w (Some block) = Some (w', paContinue) ∧
        g_request_stop w' = false ∧
        dsp w' = (preprocessAudio block (dsp w)).2 ∧
        CircularBuffer.recent (g_audio_buffer w')
          (l ++ (preprocessAudio block (dsp w)).1).
Proof.
  intros Hs Hr Hg.
  assert (Hw : CircularBuffer.wf (g_audio_buffer w)) by (by eapply recent_wf).
  unfold paCallback. rewrite Hs, Hg. simpl.
  destruct (preprocessAudio block (dsp w)) as [audio d]. simpl.
  destruct (smoothing_stage_total (g_audio_buffer w) audio Hw)
    as (buf' & fb & Hst & _). rewrite Hst. simpl.
  destruct (push_recent audio (g_audio_buffer w) l Hr) as (b1 & Hp & Hr1 & _).
  assert (buf' = b1) as ->.
  { unfold smoothing_stage in Hst. rewrite Hp in Hst. simpl in Hst.
    destruct (CircularBuffer.getSmoothed b1 _) as [sm|]; simpl in Hst; [|done].
    destruct sm; by injection Hst as <-. }
  destruct (accept_waveform (recognizer w) audio) as [r st].
  destruct (handle_status _ _ _ _ _ _) as [[r' last'] tr'].
  eexists. split; [done|]. done.
Qed.

(** X28: blocks below the gate and [NULL] inputs never reach the
    circular buffer: after any run of the callback the buffer holds, newest
    last, the end of the concatenation of the preprocessed blocks that
    passed the gate, appended to what it held before. *)
Theorem buffer_holds_pipeline_outputs (blocks : list (option (list Z))) :
  ∀ (w : world) (l : list Z),
  g_request_stop w = false →
  CircularBuffer.recent (g_audio_buffer w) l →
  ∃ w', run w blocks = Some w' ∧
        CircularBuffer.recent (g_audio_buffer w')
          (l ++ concat (pipeline_outputs blocks (dsp w))).
Proof.
  induction blocks as [|b rest IH]; intros w l Hs Hr.
  - exists w. simpl. by rewrite app_nil_r.
  - destruct b as [block|]; simpl.
    + destruct (isAudioAboveNoiseGate block) eqn:Hgate.
      * destruct (paCallback_pushes w block l Hs Hr Hgate)
          as (w1 & Hc & Hs1 & Hd1 & Hr1).
        destruct (IH w1 _ Hs1 Hr1) as (w' & Hrun & Hr').
        exists w'. rewrite Hc. simpl. split; [done|].
        by rewrite Hd1, <- app_assoc in Hr'.
      * unfold paCallback. rewrite Hs, Hgate. simpl. by apply IH.
    + unfold paCallback. rewrite Hs. simpl. by apply IH.
Qed.

End CallbackBuffer.

Lemma buffer_holds_pipeline_outputs_witness :
  ∃ w', run_callbacks silent_accept silent_result silent_result (world_init tt)
          [Some [20000; -20000]%Z; None; Some [3]%Z; Some [-9000; 9000; 700]%Z]
        = Some w' ∧
        CircularBuffer.recent (g_audio_buffer w')
          ([] ++ concat (pipeline_outputs
                           [Some [20000; -20000]%Z; None; Some [3]%Z;
                            Some [-9000; 9000; 700]%Z] dsp_init)).
Proof.
  apply (buffer_holds_pipeline_outputs silent_accept silent_result silent_result
           [Some [20000; -20000]%Z; None; Some [3]%Z; Some [-9000; 9000; 700]%Z]
           (world_init tt) []).
  - reflexivity.
  - apply recent_nil, CircularBuffer_wf_init.
Defined.

(** *** Rounding to binary32, by value *)

Section Rounding32.

Local Open Scope Z_scope.

Lemma fexp32 x : fexp 24 128 x = Z.max (x - 24) (-149).
Proof. reflexivity. Qed.

Lemma Zdigits2_unique m d : 0 < m -> 2 ^ (d - 1) <= m < 2 ^ d -> Zdigits2 m = d.
Proof.
  intros Hm Hd. destruct m as [|p|p]; try lia.
  simpl. by apply digits2_pos_unique.
Qed.

Lemma Zdigits2_nonneg m : 0 <= m -> 0 <= Zdigits2 m.
Proof. destruct m; simpl; lia. Qed.

Lemma Zdigits2_lt_pow m : 0 <= m -> m < 2 ^ Zdigits2 m.
Proof.
  intros Hm. destruct (Z.eq_dec m 0) as [->|Hne]; [simpl; lia|].
  apply Zdigits2_bounds. lia.
Qed.

Lemma Zdigits2_mono a b : 0 <= a <= b -> Zdigits2 a <= Zdigits2 b.
Proof.
  intros [Ha Hab]. destruct (Z.eq_dec a 0) as [->|Hne].
  - simpl. by apply Zdigits2_nonneg; lia.
  - destruct (Zdigits2_bounds a ltac:(lia)) as [Hda [Hla _]].
    destruct (Zdigits2_bounds b ltac:(lia)) as [Hdb [_ Hub]].
    destruct (Z_lt_le_dec (Zdigits2 b) (Zdigits2 a)) as [Hlt|]; [|done].
    exfalso.
    assert (2 ^ Zdigits2 b <= 2 ^ (Zdigits2 a - 1)) by (apply Z.pow_le_mono_r; lia).
    lia.
Qed.

Lemma Zdigits2_div m k :
  0 < m -> 0 <= k < Zdigits2 m -> Zdigits2 (m / 2 ^ k) = Zdigits2 m - k.
Proof.
  intros Hm Hk. destruct (Zdigits2_bounds m Hm) as [Hd [Hlo Hhi]].
  assert (H2k : 0 < 2 ^ k) by (apply Z.pow_pos_nonneg; lia).
  assert (Hlo' : 2 ^ (Zdigits2 m - k - 1) <= m / 2 ^ k).
  { apply Z.div_le_lower_bound; [done|].
    rewrite <- Z.pow_add_r by lia.
    replace (k + (Zdigits2 m - k - 1)) with (Zdigits2 m - 1) by lia. done. }
  assert (Hhi' : m / 2 ^ k < 2 ^ (Zdigits2 m - k)).
  { apply Z.div_lt_upper_bound; [done|].
    rewrite <- Z.pow_add_r by lia.
    replace (k + (Zdigits2 m - k)) with (Zdigits2 m) by lia. done. }
  apply Zdigits2_unique; [|done].
  eapply Z.lt_le_trans; [|exact Hlo']. apply Z.pow_pos_nonneg; lia.
Qed.

Lemma div_pow2_small m k : 0 <= m -> Zdigits2 m <= k -> m / 2 ^ k = 0.
Proof.
  intros Hm Hk. apply Z.div_small. split; [done|].
  eapply Z.lt_le_trans; [by apply Zdigits2_lt_pow|].
  apply Z.pow_le_mono_r; [lia|done].
Qed.

(** [shr_fexp] when it has to shift right (or not at all). *)
Lemma shr_fexp_spec m e l :
  0 <= m -> e <= fexp 24 128 (Zdigits2 m + e) ->
  exists r, shr_fexp 24 128 m e l = (r, fexp 24 128 (Zdigits2 m + e)) /\
            shr_m r = m / 2 ^ (fexp 24 128 (Zdigits2 m + e) - e) /\
            (fexp 24 128 (Zdigits2 m + e) = e -> r = shr_record_of_loc m l) /\
            canon (shr_m r) (fexp 24 128 (Zdigits2 m + e)).
Proof.
  intros Hm Hk. unfold shr_fexp, shr.
  set (e1 := fexp 24 128 (Zdigits2 m + e)) in *.
  assert (Hcanon : canon (m / 2 ^ (e1 - e)) e1).
  { unfold canon. subst e1. rewrite !fexp32 in *.
    pose proof (Zdigits2_nonneg m Hm) as Hd0.
    destruct (Z_lt_le_dec (Z.max (Zdigits2 m + e - 24) (-149) - e) (Zdigits2 m))
      as [Hlt|Hge].
    - destruct (Z.eq_dec m 0) as [->|Hne]; [simpl in *; lia|].
      rewrite Zdigits2_div by lia. lia.
    - rewrite div_pow2_small by lia. simpl. lia. }
  destruct (e1 - e) as [|p|p] eqn:Hn; [| |lia].
  - exists (shr_record_of_loc m l). replace e1 with e by lia.
    rewrite shr_m_shr_record_of_loc. rewrite Z.pow_0_r, Z.div_1_r in *.
    split; [done|]. split; [done|]. split; [done|].
    by replace e with e1 by lia.
  - exists (SpecFloat.iter_pos shr_1 p (shr_record_of_loc m l)).
    replace (e + Z.pos p) with e1 by lia.
    rewrite shr_m_iter_shr_1 by (by rewrite shr_m_shr_record_of_loc).
    rewrite shr_m_shr_record_of_loc.
    split; [done|]. split; [done|]. split; [lia|done].
Qed.

Lemma round_nearest_even_le m l : round_nearest_even m l <= m + 1.
Proof.
  unfold round_nearest_even. destruct l as [|[]]; try lia.
  destruct (Z.even m); lia.
Qed.

(** The second [shr_fexp] of [binary_round_aux] loses nothing. *)
Lemma shr_fexp_after_round m1 e1 m2 :
  0 <= m1 -> canon m1 e1 -> m1 <= m2 <= m1 + 1 ->
  exists r e3, shr_fexp 24 128 m2 e1 loc_Exact = (r, e3) /\
               0 <= shr_m r /\ e1 <= e3 /\ canon (shr_m r) e3 /\
               shr_m r * 2 ^ (e3 - e1) = m2.
Proof.
  intros Hm1 Hc Hm2.
  assert (Hmono : Zdigits2 m1 <= Zdigits2 m2) by (apply Zdigits2_mono; lia).
  assert (Hk2 : e1 <= fexp 24 128 (Zdigits2 m2 + e1)).
  { unfold canon in Hc. rewrite fexp32 in *. lia. }
  destruct (shr_fexp_spec m2 e1 loc_Exact ltac:(lia) Hk2) as (r & Hr & Hm & Hex & Hcan).
  exists r, (fexp 24 128 (Zdigits2 m2 + e1)).
  split; [done|]. split; [rewrite Hm; apply Z.div_pos; lia|].
  split; [done|]. split; [done|].
  rewrite Hm.
  destruct (Z.eq_dec (fexp 24 128 (Zdigits2 m2 + e1)) e1) as [Heq|Hne].
  - rewrite Heq, Z.sub_diag, Z.pow_0_r, Z.div_1_r. lia.
  - (* the significand has grown by one digit: it is a power of two *)
    unfold canon in Hc. rewrite fexp32 in *.
    assert (Hd : Zdigits2 m1 < Zdigits2 m2) by lia.
    assert (Hm2' : m2 = m1 + 1).
    { destruct (Z.eq_dec m2 m1) as [->|]; [lia|lia]. }
    pose proof (Zdigits2_lt_pow m1 Hm1) as Hub1.
    destruct (Zdigits2_bounds m2 ltac:(lia)) as [_ [Hlo2 Hhi2]].
    pose proof (Zdigits2_nonneg m1 Hm1) as Hd1.
    assert (Hp : 2 ^ Zdigits2 m1 <= 2 ^ (Zdigits2 m2 - 1))
      by (apply Z.pow_le_mono_r; lia).
    assert (Hm2pow : m2 = 2 ^ Zdigits2 m1) by lia.
    assert (Hd2 : Zdigits2 m2 = Zdigits2 m1 + 1).
    { apply Zdigits2_unique; [lia|].
      replace (Zdigits2 m1 + 1 - 1) with (Zdigits2 m1) by lia.
      rewrite Z.pow_add_r by lia. lia. }
    rewrite Hd2 in *.
    assert (Hk1 : Z.max (Zdigits2 m1 + 1 + e1 - 24) (-149) - e1 = 1) by lia.
    rewrite Hk1. change (2 ^ 1) with 2.
    assert (Hpos : 1 <= Zdigits2 m1) by lia.
    assert (Hev : m2 = 2 ^ (Zdigits2 m1 - 1) * 2).
    { pose proof (Z.pow_add_r 2 (Zdigits2 m1 - 1) 1 ltac:(lia) ltac:(lia)) as Hp2.
      replace (Zdigits2 m1 - 1 + 1) with (Zdigits2 m1) in Hp2 by lia.
      change (2 ^ 1) with 2 in Hp2. lia. }
    rewrite Hev at 1. rewrite Z.div_mul by lia. lia.
Qed.

(** [binary_round_aux] on an exact product or sum: the result is zero, a
    number in normal form or an overflow, and its significand is within
    one unit of the last place of the exact one. *)
Lemma binary_round_aux_value s m e :
  0 < m -> e <= fexp 24 128 (Zdigits2 m + e) ->
  exists m3 e3,
    0 <= m3 /\ e <= e3 /\ canon m3 e3 /\
    binary_round_aux 24 128 s m e loc_Exact
    = match m3 with
      | Z0 => S754_zero s
      | Zpos p => if e3 <=? 104 then S754_finite s p e3 else S754_infinity s
      | Zneg _ => S754_nan
      end /\
    (2 ^ 23 * Z.abs (m3 * 2 ^ (e3 - e) - m) <= m \/
     (e < -149 /\ Z.abs (m3 * 2 ^ (e3 - e) - m) <= 2 ^ (-149 - e))).
Proof.
  intros Hm Hk. unfold binary_round_aux.
  destruct (shr_fexp_spec m e loc_Exact ltac:(lia) Hk) as (r1 & -> & Hm1 & Hex1 & Hc1).
  set (e1 := fexp 24 128 (Zdigits2 m + e)) in *.
  set (m2 := round_nearest_even (shr_m r1) (loc_of_shr_record r1)).
  assert (H2k : 0 < 2 ^ (e1 - e)) by (apply Z.pow_pos_nonneg; lia).
  assert (Hm1pos : 0 <= shr_m r1) by (rewrite Hm1; apply Z.div_pos; lia).
  assert (Hm2 : shr_m r1 <= m2 <= shr_m r1 + 1).
  { split; [apply round_nearest_even_ge|apply round_nearest_even_le]. }
  destruct (shr_fexp_after_round (shr_m r1) e1 m2 Hm1pos Hc1 Hm2)
    as (r & e3 & -> & Hm3 & He3 & Hc3 & Hval).
  exists (shr_m r), e3.
  split; [done|]. split; [lia|]. split; [done|]. split; [reflexivity|].
  (* the error *)
  replace (e3 - e) with ((e3 - e1) + (e1 - e)) by lia.
  rewrite Z.pow_add_r, Z.mul_assoc, Hval by lia.
  destruct (Z.eq_dec e1 e) as [Heq|Hne].
  - (* no shift: the value is exact *)
    left. assert (m2 = m) as ->.
    { unfold m2. rewrite (Hex1 Heq), shr_m_shr_record_of_loc.
      by rewrite loc_of_shr_record_of_loc. }
    rewrite Heq, Z.sub_diag, Z.pow_0_r. replace (m * 1 - m) with 0 by lia.
    simpl. lia.
  - pose proof (Z.div_mod m (2 ^ (e1 - e)) ltac:(lia)) as Hdm.
    pose proof (Z.mod_pos_bound m (2 ^ (e1 - e)) H2k) as Hmod.
    rewrite <- Hm1 in Hdm.
    assert (Herr : Z.abs (m2 * 2 ^ (e1 - e) - m) <= 2 ^ (e1 - e)) by nia.
    destruct (Zdigits2_bounds m Hm) as [Hd [Hlo _]].
    subst e1. rewrite fexp32 in *.
    destruct (Z_le_gt_dec (-149) (Zdigits2 m + e - 24)) as [Hn|Hsub].
    + left. replace (Z.max (Zdigits2 m + e - 24) (-149) - e)
        with (Zdigits2 m - 24) in * by lia.
      assert (2 ^ 23 * 2 ^ (Zdigits2 m - 24) = 2 ^ (Zdigits2 m - 1)).
      { rewrite <- Z.pow_add_r by lia. f_equal. lia. }
      nia.
    + right. replace (Z.max (Zdigits2 m + e - 24) (-149) - e)
        with (-149 - e) in * by lia.
      split; [lia|done].
Qed.

Lemma canon_ge m e : canon m e -> -149 <= e.
Proof. unfold canon. rewrite fexp32. lia. Qed.

(** The result of [binary_round_aux] as a number, when it does not
    overflow. *)
Lemma round_result s m3 e3 (R : spec_float) :
  0 <= m3 -> canon m3 e3 -> m3 * 2 ^ (e3 + 149) < 2 ^ 277 ->
  R = match m3 with
      | Z0 => S754_zero s
      | Zpos p => if e3 <=? 104 then S754_finite s p e3 else S754_infinity s
      | Zneg _ => S754_nan
      end ->
  finite_float R /\ float_units R = cond_Zopp s (m3 * 2 ^ (e3 + 149)).
Proof.
  intros Hm Hc Hv ->. pose proof (canon_ge _ _ Hc) as He.
  destruct m3 as [|p|p]; [| |lia].
  - split; [done|]. by destruct s.
  - assert (Hle : e3 <= 104).
    { destruct (Z_le_gt_dec e3 104) as [|Hgt]; [done|]. exfalso.
      unfold canon in Hc. rewrite fexp32 in Hc.
      assert (Hd : Zdigits2 (Z.pos p) = 24) by lia.
      destruct (Zdigits2_bounds (Z.pos p) ltac:(lia)) as [_ [Hlo _]].
      rewrite Hd in Hlo. change (2 ^ (24 - 1)) with (2 ^ 23) in Hlo.
      assert (2 ^ 254 <= 2 ^ (e3 + 149)) by (apply Z.pow_le_mono_r; lia).
      assert (2 ^ 23 * 2 ^ 254 <= Z.pos p * 2 ^ (e3 + 149)).
      { apply Z.mul_le_mono_nonneg; lia. }
      change (2 ^ 23 * 2 ^ 254) with (2 ^ 277) in *. lia. }
    replace (e3 <=? 104) with true by (symmetry; apply Z.leb_le; done).
    split; [|done]. split; [|done]. simpl. unfold bounded, canonical_mantissa.
    unfold canon in Hc. simpl in Hc. rewrite <- Hc, Z.eqb_refl. simpl.
    apply Z.leb_le. done.
Qed.

Lemma shl_align_fexp_spec p e :
  exists mz ez,
    shl_align p e (fexp 24 128 (Z.pos (digits2_pos p) + e)) = (mz, ez) /\
    ez <= e /\ Z.pos mz = Z.pos p * 2 ^ (e - ez) /\
    ez <= fexp 24 128 (Zdigits2 (Z.pos mz) + ez) /\
    (-149 <= e -> -149 <= ez).
Proof.
  unfold shl_align. rewrite fexp32.
  destruct (Z.max (Z.pos (digits2_pos p) + e - 24) (-149) - e) as [|d|d] eqn:Hd.
  - exists p, e. rewrite Z.sub_diag, Z.pow_0_r, fexp32. simpl Zdigits2.
    repeat split; try lia.
  - exists p, e. rewrite Z.sub_diag, Z.pow_0_r, fexp32. simpl Zdigits2.
    repeat split; try lia.
  - exists (Pos.iter xO p d), (Z.max (Z.pos (digits2_pos p) + e - 24) (-149)).
    assert (Hv : Z.pos (Pos.iter xO p d)
                 = Z.pos p * 2 ^ (e - Z.max (Z.pos (digits2_pos p) + e - 24) (-149))).
    { rewrite Zpos_iter_xO. f_equal. f_equal. lia. }
    split; [done|]. split; [lia|]. split; [done|]. split; [|lia].
    rewrite Hv, Zdigits2_shift by lia. simpl Zdigits2. rewrite fexp32. lia.
Qed.

Lemma cond_Zopp_mul s a b : cond_Zopp s a * b = cond_Zopp s (a * b).
Proof. destruct s; simpl; lia. Qed.

Lemma abs_cond_Zopp s a : Z.abs (cond_Zopp s a) = Z.abs a.
Proof. destruct s; simpl; lia. Qed.

(** [binary_round] by value: a relative error of at most [2^-23]. *)
Lemma binary_round_value s p e :
  -149 <= e -> Z.pos p * 2 ^ (e + 149) <= 2 ^ 276 ->
  finite_float (binary_round 24 128 s p e) /\
  exists v, 0 <= v /\
    float_units (binary_round 24 128 s p e) = cond_Zopp s v /\
    2 ^ 23 * Z.abs (v - Z.pos p * 2 ^ (e + 149)) <= Z.pos p * 2 ^ (e + 149).
Proof.
  intros He Hv. unfold binary_round.
  destruct (shl_align_fexp_spec p e) as (mz & ez & -> & Hez & Hmz & Hpre & Hlow).
  specialize (Hlow He).
  destruct (binary_round_aux_value s (Z.pos mz) ez ltac:(lia) Hpre)
    as (m3 & e3 & Hm3 & He3 & Hc3 & HR & Herr).
  destruct Herr as [Herr|[? _]]; [|lia].
  assert (Hscale : Z.pos mz * 2 ^ (ez + 149) = Z.pos p * 2 ^ (e + 149)).
  { rewrite Hmz, <- Z.mul_assoc, <- Z.pow_add_r by lia. do 2 f_equal. lia. }
  assert (Hscale3 : m3 * 2 ^ (e3 + 149) = m3 * 2 ^ (e3 - ez) * 2 ^ (ez + 149)).
  { rewrite <- Z.mul_assoc, <- Z.pow_add_r by lia. do 2 f_equal. lia. }
  assert (H2 : 0 < 2 ^ (ez + 149)) by (apply Z.pow_pos_nonneg; lia).
  assert (Hbound : 2 ^ 23 * Z.abs (m3 * 2 ^ (e3 + 149) - Z.pos p * 2 ^ (e + 149))
                   <= Z.pos p * 2 ^ (e + 149)).
  { rewrite Hscale3, <- Hscale, <- Z.mul_sub_distr_r, Z.abs_mul.
    rewrite (Z.abs_eq (2 ^ (ez + 149))) by lia.
    rewrite Z.mul_assoc. apply Z.mul_le_mono_nonneg_r; lia. }
  assert (Hov : m3 * 2 ^ (e3 + 149) < 2 ^ 277).
  { assert (H277 : 2 ^ 277 = 2 * 2 ^ 276) by reflexivity.
    assert (0 < 2 ^ 276) by reflexivity.
    change (2 ^ 23) with 8388608 in Hbound. lia. }
  destruct (round_result s m3 e3 _ Hm3 Hc3 Hov HR) as [Hfin Hunits].
  split; [done|]. exists (m3 * 2 ^ (e3 + 149)).
  split; [|split; [done|done]].
  apply Z.mul_nonneg_nonneg; [done|]. apply Z.pow_nonneg. lia.
Qed.

Lemma binary_normalize_value z e :
  -149 <= e -> Z.abs z * 2 ^ (e + 149) <= 2 ^ 276 ->
  finite_float (binary_normalize 24 128 z e false) /\
  2 ^ 23 * Z.abs (float_units (binary_normalize 24 128 z e false)
                  - z * 2 ^ (e + 149))
  <= Z.abs z * 2 ^ (e + 149).
Proof.
  intros He Hv. unfold binary_normalize. destruct z as [|p|p].
  - split; [done|]. simpl. lia.
  - destruct (binary_round_value false p e He Hv) as [Hf (v & Hv0 & -> & Hb)].
    split; [done|]. simpl cond_Zopp. simpl Z.abs. done.
  - destruct (binary_round_value true p e He Hv) as [Hf (v & Hv0 & -> & Hb)].
    split; [done|]. simpl cond_Zopp. simpl Z.abs.
    replace (- v - Z.neg p * 2 ^ (e + 149)) with (- (v - Z.pos p * 2 ^ (e + 149)))
      by lia.
    by rewrite Z.abs_opp.
Qed.

Lemma finite_float_exponent s m e : finite_float (S754_finite s m e) -> -149 <= e.
Proof.
  intros [Hv _]. simpl in Hv. unfold bounded in Hv.
  apply andb_prop in Hv as [Hc _]. unfold canonical_mantissa in Hc.
  apply Z.eqb_eq in Hc. rewrite fexp32 in Hc. lia.
Qed.

Lemma float_units_aligned s m e ez :
  -149 <= ez -> ez <= e ->
  cond_Zopp s (Z.pos (fst (shl_align m e ez))) * 2 ^ (ez + 149)
  = float_units (S754_finite s m e).
Proof.
  intros Hz He. rewrite shl_align_value by done. simpl.
  rewrite cond_Zopp_mul. f_equal.
  rewrite <- Z.mul_assoc, <- Z.pow_add_r by lia. do 2 f_equal. lia.
Qed.

(** Addition and subtraction by value. *)
Lemma SFadd_value x y :
  finite_float x -> finite_float y ->
  Z.abs (float_units x) + Z.abs (float_units y) <= 2 ^ 276 ->
  finite_float (Binary32.add x y) /\
  2 ^ 23 * Z.abs (float_units (Binary32.add x y) - (float_units x + float_units y))
  <= Z.abs (float_units x + float_units y).
Proof.
  intros Hx Hy Hb. unfold Binary32.add, Binary32.prec, Binary32.emax, SFadd.
  destruct x as [sx|sx| |sx mx ex]; try (by destruct Hx).
  - destruct y as [sy|sy| |sy my ey]; try (by destruct Hy).
    + split; [by destruct sx, sy|]. destruct sx, sy; simpl; lia.
    + split; [done|]. simpl float_units.
      replace (_ - _) with 0 by lia. simpl. lia.
  - destruct y as [sy|sy| |sy my ey]; try (by destruct Hy).
    + split; [done|]. simpl float_units.
      replace (_ - _) with 0 by lia. simpl. lia.
    + pose proof (finite_float_exponent _ _ _ Hx) as Hex.
      pose proof (finite_float_exponent _ _ _ Hy) as Hey.
      cbv zeta.
      set (z := cond_Zopp sx (Z.pos (fst (shl_align mx ex (Z.min ex ey))))
                + cond_Zopp sy (Z.pos (fst (shl_align my ey (Z.min ex ey))))).
      assert (Hz : z * 2 ^ (Z.min ex ey + 149)
                   = float_units (S754_finite sx mx ex)
                     + float_units (S754_finite sy my ey)).
      { unfold z. rewrite Z.mul_add_distr_r.
        rewrite !float_units_aligned by lia. done. }
      assert (H2 : 0 < 2 ^ (Z.min ex ey + 149)) by (apply Z.pow_pos_nonneg; lia).
      assert (Habs : Z.abs z * 2 ^ (Z.min ex ey + 149)
                     = Z.abs (float_units (S754_finite sx mx ex)
                              + float_units (S754_finite sy my ey))).
      { rewrite <- Hz, Z.abs_mul, (Z.abs_eq (2 ^ (Z.min ex ey + 149))) by lia.
        done. }
      destruct (binary_normalize_value z (Z.min ex ey) ltac:(lia)) as [Hf Hv].
      { rewrite Habs. lia. }
      split; [done|]. by rewrite Hz, Habs in Hv.
Qed.

Lemma SFsub_value x y :
  finite_float x -> finite_float y ->
  Z.abs (float_units x) + Z.abs (float_units y) <= 2 ^ 276 ->
  finite_float (Binary32.sub x y) /\
  2 ^ 23 * Z.abs (float_units (Binary32.sub x y) - (float_units x - float_units y))
  <= Z.abs (float_units x - float_units y).
Proof.
  intros Hx Hy Hb. unfold Binary32.sub, Binary32.prec, Binary32.emax, SFsub.
  destruct x as [sx|sx| |sx mx ex]; try (by destruct Hx).
  - destruct y as [sy|sy| |sy my ey]; try (by destruct Hy).
    + split; [by destruct sx, sy|]. destruct sx, sy; simpl; lia.
    + split; [exact Hy|]. simpl float_units.
      replace (cond_Zopp (negb sy) (Z.pos my * 2 ^ (ey + 149))
               - (0 - cond_Zopp sy (Z.pos my * 2 ^ (ey + 149)))) with 0
        by (destruct sy; simpl; lia).
      simpl. lia.
  - destruct y as [sy|sy| |sy my ey]; try (by destruct Hy).
    + split; [done|]. simpl float_units.
      replace (_ - _) with 0 by lia. simpl. lia.
    + pose proof (finite_float_exponent _ _ _ Hx) as Hex.
      pose proof (finite_float_exponent _ _ _ Hy) as Hey.
      cbv zeta.
      set (z := cond_Zopp sx (Z.pos (fst (shl_align mx ex (Z.min ex ey))))
                - cond_Zopp sy (Z.pos (fst (shl_align my ey (Z.min ex ey))))).
      assert (Hz : z * 2 ^ (Z.min ex ey + 149)
                   = float_units (S754_finite sx mx ex)
                     - float_units (S754_finite sy my ey)).
      { unfold z. rewrite Z.mul_sub_distr_r.
        rewrite !float_units_aligned by lia. done. }
      assert (H2 : 0 < 2 ^ (Z.min ex ey + 149)) by (apply Z.pow_pos_nonneg; lia).
      assert (Habs : Z.abs z * 2 ^ (Z.min ex ey + 149)
                     = Z.abs (float_units (S754_finite sx mx ex)
                              - float_units (S754_finite sy my ey))).
      { rewrite <- Hz, Z.abs_mul, (Z.abs_eq (2 ^ (Z.min ex ey + 149))) by lia.
        done. }
      destruct (binary_normalize_value z (Z.min ex ey) ltac:(lia)) as [Hf Hv].
      { rewrite Habs. lia. }
      split; [done|]. by rewrite Hz, Habs in Hv.
Qed.

Lemma of_Z_value c :
  Z.abs c <= 2 ^ 100 ->
  finite_float (Binary32.of_Z c) /\
  2 ^ 23 * Z.abs (float_units (Binary32.of_Z c) - c * float_one)
  <= Z.abs c * float_one.
Proof.
  intros Hc. unfold Binary32.of_Z, Binary32.prec, Binary32.emax, float_one.
  apply (binary_normalize_value c 0); [lia|].
  change (2 ^ (0 + 149)) with (2 ^ 149).
  assert (2 ^ 100 * 2 ^ 149 <= 2 ^ 276) by (by apply Z.leb_le).
  assert (0 < 2 ^ 149) by reflexivity.
  apply Z.le_trans with (2 ^ 100 * 2 ^ 149); [|done].
  apply Z.mul_le_mono_nonneg_r; lia.
Qed.

(** Multiplication by [alpha], by value: a relative error of at most
    [2^-23], or an absolute one of at most a unit for a subnormal
    result. *)
Lemma SFmul_alpha_value t :
  finite_float t -> Z.abs (float_units t) <= 2 ^ 276 ->
  finite_float (Binary32.mul alpha t) /\
  (2 ^ 23 * Z.abs (2 ^ 24 * Z.abs (float_units (Binary32.mul alpha t))
                   - 15938355 * Z.abs (float_units t))
   <= 15938355 * Z.abs (float_units t) \/
   Z.abs (2 ^ 24 * Z.abs (float_units (Binary32.mul alpha t))
          - 15938355 * Z.abs (float_units t)) <= 2 ^ 24).
Proof.
  intros Ht Hb. unfold Binary32.mul, Binary32.prec, Binary32.emax, alpha, SFmul.
  destruct t as [st|st| |st mt et]; try (by destruct Ht).
  - split; [done|]. left. simpl. lia.
  - pose proof (finite_float_exponent _ _ _ Ht) as Het.
    change (float_units (S754_finite st mt et))
      with (cond_Zopp st (Z.pos mt * 2 ^ (et + 149))) in *.
    rewrite abs_cond_Zopp in *.
    assert (H2 : 0 < 2 ^ (et + 149)) by (apply Z.pow_pos_nonneg; lia).
    rewrite (Z.abs_eq (Z.pos mt * 2 ^ (et + 149))) in * by lia.
    set (m := Z.pos (15938355 * mt)). set (e := -24 + et).
    assert (Hm : m = 15938355 * Z.pos mt) by (unfold m; lia).
    assert (Hpre : e <= fexp 24 128 (Zdigits2 m + e)).
    { rewrite fexp32.
      assert (Hd : Zdigits2 (Z.pos mt) + 23 <= Zdigits2 m).
      { rewrite <- (Zdigits2_shift (Z.pos mt) 23) by lia.
        apply Zdigits2_mono. change (2 ^ 23) with 8388608. lia. }
      destruct (Zdigits2_bounds (Z.pos mt) ltac:(lia)) as [Hd0 _].
      unfold e. lia. }
    destruct (binary_round_aux_value (xorb false st) m e ltac:(lia) Hpre)
      as (m3 & e3 & Hm3 & He3 & Hc3 & HR & Herr).
    pose proof (canon_ge _ _ Hc3) as He3'.
    assert (Hs3 : 2 ^ 24 * (m3 * 2 ^ (e3 + 149))
                  = m3 * 2 ^ (e3 - e) * 2 ^ (et + 149)).
    { rewrite <- (Z.mul_assoc m3), <- Z.pow_add_r by (unfold e; lia).
      rewrite Z.mul_comm, <- Z.mul_assoc, <- Z.pow_add_r by lia.
      do 2 f_equal. unfold e. lia. }
    assert (Hsm : 15938355 * (Z.pos mt * 2 ^ (et + 149)) = m * 2 ^ (et + 149))
      by (rewrite Hm; lia).
    assert (Hv3 : 0 <= m3 * 2 ^ (e3 + 149)).
    { apply Z.mul_nonneg_nonneg; [done|]. apply Z.pow_nonneg. lia. }
    assert (Herr' :
      2 ^ 23 * Z.abs (2 ^ 24 * (m3 * 2 ^ (e3 + 149))
                      - 15938355 * (Z.pos mt * 2 ^ (et + 149)))
      <= 15938355 * (Z.pos mt * 2 ^ (et + 149)) \/
      Z.abs (2 ^ 24 * (m3 * 2 ^ (e3 + 149))
             - 15938355 * (Z.pos mt * 2 ^ (et + 149))) <= 2 ^ 24).
    { rewrite Hs3, Hsm, <- Z.mul_sub_distr_r, Z.abs_mul.
      rewrite (Z.abs_eq (2 ^ (et + 149))) by lia.
      destruct Herr as [Herr|[Hlow Herr]].
      - left. rewrite Z.mul_assoc. apply Z.mul_le_mono_nonneg_r; lia.
      - right.
        replace (2 ^ 24) with (2 ^ (-149 - e) * 2 ^ (et + 149)).
        + apply Z.mul_le_mono_nonneg_r; lia.
        + rewrite <- Z.pow_add_r by (unfold e in *; lia).
          f_equal. unfold e. lia. }
    assert (Hov : m3 * 2 ^ (e3 + 149) < 2 ^ 277).
    { assert (15938355 * 2 ^ 276 + 2 ^ 24 + 15938355 * 2 ^ 276 < 2 ^ 24 * 2 ^ 277)
        by reflexivity.
      change (2 ^ 24) with 16777216 in *. change (2 ^ 23) with 8388608 in *.
      lia. }
    destruct (round_result (xorb false st) m3 e3 _ Hm3 Hc3 Hov HR)
      as [Hfin Hunits].
    split; [done|]. rewrite Hunits, abs_cond_Zopp, (Z.abs_eq _ Hv3). done.
Qed.

End Rounding32.

(** *** The filter on a constant input *)

Section ConstantInput.

Local Open Scope Z_scope.

Ltac numerals :=
  unfold float_one in *;
  let v := eval vm_compute in (2 ^ 149) in change (2 ^ 149) with v in *;
  let v := eval vm_compute in (2 ^ 100) in change (2 ^ 100) with v in *;
  let v := eval vm_compute in (2 ^ 103) in change (2 ^ 103) with v in *;
  let v := eval vm_compute in (2 ^ 250) in change (2 ^ 250) with v in *;
  let v := eval vm_compute in (2 ^ 276) in change (2 ^ 276) with v in *;
  change (2 ^ 23) with 8388608 in *; change (2 ^ 24) with 16777216 in *.

(** A value below one least significant bit is stored as 0. *)
Lemma hp_store_small y :
  finite_float y -> Z.abs (float_units y) < float_one -> hp_store y = 0.
Proof.
  intros Hf Hy. unfold hp_store, clamp16, std_max, std_min.
  rewrite f32767_value, fm32768_value.
  destruct y as [[]|s| |s m e]; try (by destruct Hf); try reflexivity.
  pose proof (finite_float_exponent _ _ _ Hf) as He.
  destruct Hf as [Hv _]. simpl in Hv. unfold bounded in Hv.
  apply andb_prop in Hv as [Hc _]. unfold canonical_mantissa in Hc.
  apply Z.eqb_eq in Hc. rewrite fexp32 in Hc.
  simpl float_units in Hy. rewrite abs_cond_Zopp in Hy.
  assert (H2 : 0 < 2 ^ (e + 149)) by (apply Z.pow_pos_nonneg; lia).
  rewrite Z.abs_eq in Hy by lia.
  (* the exponent is small and the significand below [2 ^ (- e)] *)
  assert (Hneg : e < -23).
  { destruct (Z_lt_le_dec e (-23)) as [|Hge]; [done|]. exfalso.
    assert (Hd : Z.pos (digits2_pos m) = 24) by lia.
    pose proof (digits2_pos_bounds m) as [Hlo _]. rewrite Hd in Hlo.
    change (2 ^ (24 - 1)) with (2 ^ 23) in Hlo.
    assert (2 ^ 126 <= 2 ^ (e + 149)) by (apply Z.pow_le_mono_r; lia).
    assert (2 ^ 23 * 2 ^ 126 <= Z.pos m * 2 ^ (e + 149))
      by (apply Z.mul_le_mono_nonneg; lia).
    unfold float_one in Hy. change (2 ^ 23 * 2 ^ 126) with (2 ^ 149) in *. lia. }
  assert (Hm : Z.pos m < 2 ^ (- e)).
  { unfold float_one in Hy.
    replace (2 ^ 149) with (2 ^ (- e) * 2 ^ (e + 149)) in Hy.
    - apply Z.mul_lt_mono_pos_r in Hy; done.
    - rewrite <- Z.pow_add_r by lia. f_equal. lia. }
  assert (Hz : Z.shiftl (Z.pos m) e = 0).
  { replace e with (- (- e)) by lia.
    rewrite Z.shiftl_opp_r, Z.shiftr_div_pow2 by lia.
    apply Z.div_small. lia. }
  destruct s.
  - replace (flt (S754_finite true m e) (S754_finite false 16776704 (-9)))
      with true by done.
    replace (flt (S754_finite true 8388608 (-8)) (S754_finite true m e)) with true.
    + simpl. rewrite Hz. done.
    + symmetry. apply SFltb_finite_neg. lia.
  - replace (flt (S754_finite false m e) (S754_finite false 16776704 (-9)))
      with true by (symmetry; apply SFltb_finite_pos; lia).
    replace (flt (S754_finite true 8388608 (-8)) (S754_finite false m e))
      with true by done.
    simpl. rewrite Hz. done.
Qed.

Lemma of_Z_short c :
  is_short c ->
  finite_float (Binary32.of_Z c) /\
  2 ^ 23 * Z.abs (float_units (Binary32.of_Z c)) <= 32772 * 2 ^ 23 * float_one.
Proof.
  intros Hc. unfold is_short in Hc.
  destruct (of_Z_value c) as [Hf Hv].
  { assert (32768 <= 2 ^ 100) by (by apply Z.leb_le). lia. }
  split; [done|]. numerals. lia.
Qed.

(** One sample of constant input: [y' = alpha * ((y + c) - c)]. *)
Lemma hp_dc_step c y :
  is_short c -> finite_float y -> Z.abs (float_units y) <= 2 ^ 103 * float_one ->
  finite_float (alpha * (y + Binary32.of_Z c - Binary32.of_Z c))%f32 /\
  (float_one <= Z.abs (float_units y) ->
   100 * Z.abs (float_units (alpha * (y + Binary32.of_Z c - Binary32.of_Z c))%f32)
   <= 96 * Z.abs (float_units y)) /\
  (Z.abs (float_units y) < float_one ->
   Z.abs (float_units (alpha * (y + Binary32.of_Z c - Binary32.of_Z c))%f32)
   < float_one).
Proof.
  intros Hc Hy Hb.
  destruct (of_Z_short c Hc) as [HC HCv].
  set (C := Binary32.of_Z c) in *.
  destruct (SFadd_value y C Hy HC) as [Hs Hsv]; [numerals; lia|].
  set (s := Binary32.add y C) in *.
  destruct (SFsub_value s C Hs HC) as [Ht Htv]; [numerals; lia|].
  set (t := Binary32.sub s C) in *.
  assert (Htb : Z.abs (float_units t) <= 2 ^ 276).
  { numerals. lia. }
  destruct (SFmul_alpha_value t Ht Htb) as [Hy' Hy'v].
  set (y' := Binary32.mul alpha t) in *.
  split; [done|]. numerals. split; intros Hu; lia.
Qed.

(** The first output, from any state the analysis covers. *)
Lemma hp_dc_first c pin pout :
  is_short c -> hp_state_ok pin -> hp_state_ok pout ->
  finite_float (hp_dc_output c pin pout 0) /\
  Z.abs (float_units (hp_dc_output c pin pout 0)) < 2 ^ 102 * float_one.
Proof.
  intros Hc [Hpin Hpinv] [Hpout Hpoutv]. cbn [hp_dc_output].
  destruct (of_Z_short c Hc) as [HC HCv].
  set (C := Binary32.of_Z c) in *.
  destruct (SFadd_value pout C Hpout HC) as [Hs Hsv]; [numerals; lia|].
  set (s := Binary32.add pout C) in *.
  destruct (SFsub_value s pin Hs Hpin) as [Ht Htv]; [numerals; lia|].
  set (t := Binary32.sub s pin) in *.
  assert (Htb : Z.abs (float_units t) <= 2 ^ 276) by (numerals; lia).
  destruct (SFmul_alpha_value t Ht Htb) as [Hy' Hy'v].
  split; [done|].
  let v := eval vm_compute in (2 ^ 102) in change (2 ^ 102) with v.
  numerals. lia.
Qed.

(** From the zero state the first output is below [2^15]. *)
Lemma hp_dc_first_zero c :
  is_short c ->
  Z.abs (float_units (hp_dc_output c f0 f0 0)) < 2 ^ 15 * float_one.
Proof.
  intros Hc. cbn [hp_dc_output].
  destruct (of_Z_short c Hc) as [HC HCv].
  assert (Hc' : Z.abs c <= 2 ^ 100)
    by (unfold is_short in Hc; assert (32768 <= 2 ^ 100) by (by apply Z.leb_le); lia).
  destruct (of_Z_value c Hc') as [_ HCv'].
  set (C := Binary32.of_Z c) in *.
  assert (H0 : finite_float f0) by done.
  destruct (SFadd_value f0 C H0 HC) as [Hs Hsv];
    [change (float_units f0) with 0; numerals; lia|].
  set (s := Binary32.add f0 C) in *.
  destruct (SFsub_value s f0 Hs H0) as [Ht Htv];
    [change (float_units f0) with 0 in *; numerals; lia|].
  set (t := Binary32.sub s f0) in *.
  change (float_units f0) with 0 in *.
  assert (Htb : Z.abs (float_units t) <= 2 ^ 276) by (numerals; lia).
  destruct (SFmul_alpha_value t Ht Htb) as [Hy' Hy'v].
  unfold is_short in Hc. change (2 ^ 15) with 32768. numerals. lia.
Qed.

Section Run.

Variables (c : Z) (pin pout : float).
Hypothesis Hc : is_short c.
Hypothesis Hpin : hp_state_ok pin.
Hypothesis Hpout : hp_state_ok pout.

Local Abbreviation Y := (hp_dc_output c pin pout).

Lemma hp_dc_bounded k :
  finite_float (Y k) /\ Z.abs (float_units (Y k)) <= 2 ^ 103 * float_one.
Proof.
  induction k as [|k [Hf Hb]].
  - destruct (hp_dc_first c pin pout Hc Hpin Hpout) as [Hf Hb]. split; [done|].
    let v := eval vm_compute in (2 ^ 102) in change (2 ^ 102) with v in *.
    numerals. lia.
  - destruct (hp_dc_step c (Y k) Hc Hf Hb) as (Hf' & Hdec & Hlow).
    cbn [hp_dc_output]. split; [done|].
    destruct (Z_lt_le_dec (Z.abs (float_units (Y k))) float_one) as [Hlt|Hge].
    + specialize (Hlow Hlt). numerals. lia.
    + specialize (Hdec Hge). numerals. lia.
Qed.

Lemma hp_dc_decay k :
  (float_one <= Z.abs (float_units (Y k)) ->
   100 * Z.abs (float_units (Y (S k))) <= 96 * Z.abs (float_units (Y k))) /\
  (Z.abs (float_units (Y k)) < float_one ->
   Z.abs (float_units (Y (S k))) < float_one).
Proof.
  destruct (hp_dc_bounded k) as [Hf Hb].
  destruct (hp_dc_step c (Y k) Hc Hf Hb) as (_ & Hdec & Hlow).
  cbn [hp_dc_output]. done.
Qed.

Lemma hp_dc_stays_small k0 k :
  (k0 <= k)%nat -> Z.abs (float_units (Y k0)) < float_one ->
  Z.abs (float_units (Y k)) < float_one.
Proof.
  induction 1 as [|k Hk IH]; [done|].
  intros H0. by apply hp_dc_decay, IH.
Qed.

Lemma hp_dc_decay_many j : forall k,
  100 ^ Z.of_nat j * Z.abs (float_units (Y (k + j)))
  <= 96 ^ Z.of_nat j * Z.abs (float_units (Y k)) \/
  Z.abs (float_units (Y (k + j))) < float_one.
Proof.
  induction j as [|j IH]; intros k.
  - left. rewrite Nat.add_0_r. simpl. lia.
  - replace (k + S j)%nat with (S (k + j)) by lia.
    destruct (hp_dc_decay (k + j)) as [Hdec Hlow].
    destruct (IH k) as [Hl|Hr]; [|right; by apply Hlow].
    destruct (Z_lt_le_dec (Z.abs (float_units (Y (k + j)))) float_one) as [Hlt|Hge];
      [right; by apply Hlow|].
    left. specialize (Hdec Hge).
    rewrite Nat2Z.inj_succ, !Z.pow_succ_r by lia.
    assert (H100 : 0 < 100 ^ Z.of_nat j) by (apply Z.pow_pos_nonneg; lia).
    assert (H96 : 0 < 96 ^ Z.of_nat j) by (apply Z.pow_pos_nonneg; lia).
    apply Z.le_trans
      with (100 ^ Z.of_nat j * (96 * Z.abs (float_units (Y (k + j))))).
    + rewrite <- Z.mul_assoc, (Z.mul_comm 100), <- !Z.mul_assoc.
      apply Z.mul_le_mono_nonneg_l; lia.
    + rewrite Z.mul_assoc, (Z.mul_comm _ 96), <- !Z.mul_assoc.
      apply Z.mul_le_mono_nonneg_l; lia.
Qed.

(** Seventeen samples at least halve the output, or bring it below one. *)
Lemma hp_dc_halves k (i : nat) :
  Z.abs (float_units (Y k)) < 2 ^ Z.of_nat (S i) * float_one ->
  Z.abs (float_units (Y (k + 17))) < 2 ^ Z.of_nat i * float_one.
Proof.
  intros Hk. rewrite Nat2Z.inj_succ, Z.pow_succ_r in Hk by lia.
  assert (Hp : 1 <= 2 ^ Z.of_nat i).
  { change 1 with (2 ^ 0). apply Z.pow_le_mono_r; lia. }
  assert (HU : 0 < float_one) by reflexivity.
  assert (HT : float_one <= 2 ^ Z.of_nat i * float_one) by nia.
  set (T := 2 ^ Z.of_nat i * float_one) in *.
  replace (2 * 2 ^ Z.of_nat i * float_one) with (2 * T) in Hk by (unfold T; lia).
  destruct (hp_dc_decay_many 17 k) as [Hl|Hr]; [|lia].
  change (Z.of_nat 17) with 17 in Hl.
  let v := eval vm_compute in (100 ^ 17) in change (100 ^ 17) with v in Hl.
  let v := eval vm_compute in (96 ^ 17) in change (96 ^ 17) with v in Hl.
  lia.
Qed.

Lemma hp_dc_below_one (i : nat) : forall k0 k,
  Z.abs (float_units (Y k0)) < 2 ^ Z.of_nat i * float_one ->
  (k0 + 17 * i <= k)%nat ->
  Z.abs (float_units (Y k)) < float_one.
Proof.
  induction i as [|i IH]; intros k0 k H0 Hk.
  - apply (hp_dc_stays_small k0); [lia|]. simpl in H0. lia.
  - apply (IH (k0 + 17)%nat); [by apply hp_dc_halves|lia].
Qed.

End Run.

Lemma hp_state_ok_zero : hp_state_ok f0.
Proof. split; [done|]. by apply Z.leb_le. Qed.

(** A NaN in the state stays there: the stored samples are then 32767. *)
Lemma hp_nan_state_persists c pin k :
  hp_dc_output c pin S754_nan k = S754_nan /\ hp_store S754_nan = 32767.
Proof.
  split; [|reflexivity].
  induction k as [|k IH]; [reflexivity|].
  cbn [hp_dc_output]. rewrite IH. reflexivity.
Qed.

End ConstantInput.

(** *** The states the filter can reach *)

Section Reachable.

Local Open Scope Z_scope.

Ltac numerals :=
  unfold float_one in *;
  let v := eval vm_compute in (2 ^ 149) in change (2 ^ 149) with v in *;
  let v := eval vm_compute in (2 ^ 100) in change (2 ^ 100) with v in *;
  let v := eval vm_compute in (2 ^ 276) in change (2 ^ 276) with v in *;
  change (2 ^ 21) with 2097152 in *;
  change (2 ^ 23) with 8388608 in *; change (2 ^ 24) with 16777216 in *.

(** One sample, whatever the input: the output stays within [2^21]. *)
Lemma hp_step_reachable x p y :
  is_short x -> is_short p ->
  finite_float y -> Z.abs (float_units y) <= 2 ^ 21 * float_one ->
  finite_float (alpha * (y + Binary32.of_Z x - Binary32.of_Z p))%f32 /\
  Z.abs (float_units (alpha * (y + Binary32.of_Z x - Binary32.of_Z p))%f32)
  <= 2 ^ 21 * float_one.
Proof.
  intros Hx Hp Hy Hb.
  destruct (of_Z_short x Hx) as [HX HXv].
  destruct (of_Z_short p Hp) as [HP HPv].
  set (X := Binary32.of_Z x) in *. set (P := Binary32.of_Z p) in *.
  destruct (SFadd_value y X Hy HX) as [Hs Hsv]; [numerals; lia|].
  set (s := Binary32.add y X) in *.
  destruct (SFsub_value s P Hs HP) as [Ht Htv]; [numerals; lia|].
  set (t := Binary32.sub s P) in *.
  assert (Htb : Z.abs (float_units t) <= 2 ^ 276) by (numerals; lia).
  destruct (SFmul_alpha_value t Ht Htb) as [Hy' Hy'v].
  split; [done|]. numerals. lia.
Qed.

Lemma hp_outputs_reachable xs : forall p y,
  Forall is_short xs -> is_short p ->
  finite_float y -> Z.abs (float_units y) <= 2 ^ 21 * float_one ->
  Forall (fun y' => finite_float y' /\
                    Z.abs (float_units y') <= 2 ^ 21 * float_one)
         (hp_outputs xs (Binary32.of_Z p) y).
Proof.
  induction xs as [|x xs IH]; intros p y Hxs Hp Hy Hb; [constructor|].
  apply Forall_cons in Hxs as [Hx Hxs]. cbn [hp_outputs].
  destruct (hp_step_reachable x p y Hx Hp Hy Hb) as [Hf Hb'].
  constructor; [done|]. by apply IH.
Qed.

(** The zero state is reachable, every call of the filter on 16-bit
    samples leads from a reachable state to a reachable one, and the
    reachable states are among those [hp_constant_input] covers. *)
Lemma hp_state_reachable_invariant :
  hp_state_reachable f0 f0 /\
  (forall xs pin pout,
     Forall is_short xs -> hp_state_reachable pin pout ->
     hp_state_reachable (applyHighPassFilter xs pin pout).1.2
                        (applyHighPassFilter xs pin pout).2) /\
  (forall pin pout,
     hp_state_reachable pin pout -> hp_state_ok pin /\ hp_state_ok pout).
Proof.
  split; [|split].
  - split; [exists 0; split; [unfold is_short; lia|done]|].
    split; [done|]. by apply Z.leb_le.
  - intros xs pin pout Hxs [(p & Hp & ->) [Hy Hb]].
    rewrite applyHighPassFilter_eq. cbn [fst snd].
    pose proof (hp_outputs_reachable xs p pout Hxs Hp Hy Hb) as Hall.
    split; [|].
    + destruct xs as [|x xs _] using rev_ind; [by exists p|].
      rewrite fmap_app. cbn [fmap list_fmap]. rewrite last_snoc. simpl.
      exists x. split; [|done].
      destruct (proj1 (Forall_app is_short xs [x]) Hxs) as [_ Hx].
      exact (proj1 (Forall_singleton is_short x) Hx).
    + destruct (last (hp_outputs xs (Binary32.of_Z p) pout)) as [y|] eqn:Hl;
        [|done].
      simpl. apply last_Some_elem_of in Hl.
      rewrite Forall_forall in Hall. by apply Hall.
  - intros pin pout [(p & Hp & ->) [Hy Hb]]. split.
    + destruct (of_Z_short p Hp) as [Hf Hv]. split; [done|]. numerals. lia.
    + split; [done|]. numerals. lia.
Qed.

End Reachable.

(** C9 (as the code has it): on a constant input [c] of the range of
    [short], from any state of two finite values of magnitude at most
    [2^100], every unclamped output is finite; each output is at most 0.96
    times the one before it in magnitude as long as that one is at least 1,
    the least significant bit of a stored sample, and once an output is
    below 1 in magnitude so are all later ones.  Hence, if the first output
    is below [2^i] in magnitude, every stored sample from index [17 * i] on
    is 0: from index 1751 on for every such state, and from index 255 on
    from the zero state.  The outputs themselves need not reach zero and
    [y[n+1] = alpha * y[n]] does not hold exactly
    ([hp_constant_input_not_geometric]); a NaN in the state never leaves it
    ([hp_nan_state_persists]).  The states covered include every state the
    filter reaches from zero on 16-bit samples
    ([hp_state_reachable_invariant]). *)
Theorem hp_constant_input (c : Z) (pin pout : float) :
  is_short c → hp_state_ok pin → hp_state_ok pout →
  (∀ n k y, hp_outputs (constant_block n c) pin pout !! k = Some y →
     finite_float y) ∧
  (∀ n k y y',
     hp_outputs (constant_block n c) pin pout !! k = Some y →
     hp_outputs (constant_block n c) pin pout !! S k = Some y' →
     (float_one ≤ Z.abs (float_units y) →
      100 * Z.abs (float_units y') ≤ 96 * Z.abs (float_units y))%Z ∧
     (Z.abs (float_units y) < float_one →
      Z.abs (float_units y') < float_one)%Z) ∧
  (∀ (i n k : nat) y0,
     hp_outputs (constant_block n c) pin pout !! 0 = Some y0 →
     (Z.abs (float_units y0) < 2 ^ Z.of_nat i * float_one)%Z →
     17 * i ≤ k < n →
     (∃ y, hp_outputs (constant_block n c) pin pout !! k = Some y ∧
           (Z.abs (float_units y) < float_one)%Z) ∧
     (applyHighPassFilter (constant_block n c) pin pout).1.1 !! k = Some 0%Z) ∧
  (∀ n k, 1751 ≤ k < n →
     (applyHighPassFilter (constant_block n c) pin pout).1.1 !! k = Some 0%Z) ∧
  (pin = f0 → pout = f0 → ∀ n k, 255 ≤ k < n →
     (applyHighPassFilter (constant_block n c) pin pout).1.1 !! k = Some 0%Z).
Proof.
  intros Hc Hpin Hpout.
  assert (Hlen : ∀ n, length (hp_outputs (constant_block n c) pin pout) = n).
  { intros n. rewrite length_hp_outputs. apply length_replicate. }
  assert (Hlook : ∀ n k y, hp_outputs (constant_block n c) pin pout !! k = Some y →
                           k < n ∧ y = hp_dc_output c pin pout k).
  { intros n k y Hy. assert (Hk : k < n).
    { apply lookup_lt_Some in Hy. by rewrite Hlen in Hy. }
    split; [done|]. rewrite hp_outputs_dc_lookup in Hy by done. by injection Hy. }
  assert (Hstored : ∀ (i : nat) n k,
    (Z.abs (float_units (hp_dc_output c pin pout 0)) < 2 ^ Z.of_nat i * float_one)%Z →
    17 * i ≤ k < n →
    (Z.abs (float_units (hp_dc_output c pin pout k)) < float_one)%Z ∧
    (applyHighPassFilter (constant_block n c) pin pout).1.1 !! k = Some 0%Z).
  { intros i n k H0 Hk.
    pose proof (hp_dc_below_one c pin pout Hc Hpin Hpout i 0 k H0 ltac:(lia)) as Hs.
    split; [done|].
    rewrite applyHighPassFilter_eq. cbn [fst].
    rewrite list_lookup_fmap, hp_outputs_dc_lookup by lia. simpl. f_equal.
    apply hp_store_small; [|done].
    apply (hp_dc_bounded c pin pout Hc Hpin Hpout k). }
  split; [|split; [|split; [|split]]].
  - intros n k y [_ ->]%Hlook. apply (hp_dc_bounded c pin pout Hc Hpin Hpout k).
  - intros n k y y' [_ ->]%Hlook [_ ->]%Hlook.
    apply (hp_dc_decay c pin pout Hc Hpin Hpout k).
  - intros i n k y0 [_ ->]%Hlook H0 Hk.
    destruct (Hstored i n k H0 Hk) as [Hs Hz]. split; [|done].
    exists (hp_dc_output c pin pout k). split; [|done].
    apply hp_outputs_dc_lookup. lia.
  - intros n k Hk. apply (Hstored 103 n k); [|lia].
    destruct (hp_dc_first c pin pout Hc Hpin Hpout) as [_ Hb].
    eapply Z.lt_le_trans; [exact Hb|].
    apply Z.mul_le_mono_nonneg_r; [by apply Z.leb_le|by apply Z.leb_le].
  - intros -> -> n k Hk. apply (Hstored 15 n k); [|lia].
    by apply hp_dc_first_zero.
Qed.

Lemma hp_constant_input_witness :
  (applyHighPassFilter (constant_block 512 1000) f0 f0).1.1 !! 300 = Some 0%Z.
Proof.
  apply (proj2 (proj2 (proj2 (proj2
           (hp_constant_input 1000 f0 f0 ltac:(unfold is_short; lia)
              hp_state_ok_zero hp_state_ok_zero)))) eq_refl eq_refl 512 300).
  lia.
Defined.
